(** * ScriptNote: scene grammar, indexing, numbering and statistics

    A shallow embedding of the text-processing core of the ScriptNote
    plugin (src/utils/constants.ts, src/services/SceneService.ts,
    src/services/StatsService.ts, the two exporters' line classifiers and
    the line tests of the editor extensions), followed by the properties
    of that code.

    Conventions of the embedding:
    - a JavaScript string is the list of its UTF-16 code units ([str]);
    - a JavaScript number that holds an integer is a [Z], and what the
      source reads, prints or adds is rounded as binary64 rounds it
      (see [JS.toDouble]);
    - a JavaScript number that holds a fraction is a [Q]:
      [Binary64.estimateDuration] is [estimateDuration] with its division
      rounded as binary64 rounds it, [StatsService.estimateDuration] the
      same formula in exact arithmetic; the two agree on word counts below
      2^53 (lemma [estimateDuration_exact_below_2_53]), and the sums and the
      average of the statistics are exact below that bound too;
    - a regular expression is a value of [regex], run by a backtracking
      matcher that tries alternatives and repetitions in the order the
      ECMAScript matcher does. *)

From Stdlib Require Import List NArith ZArith QArith Qround Bool Lia Lqa Sorted.
From Stdlib Require Floats Uint63.
Import ListNotations.

Set Implicit Arguments.
Close Scope Q_scope.
Open Scope Z_scope.

(** ** Code units and character classes *)

Definition char := N.
Definition str := list char.

(** ECMAScript WhiteSpace and LineTerminator code points: what [\s]
    matches and what [String.prototype.trim] strips. *)
Definition isWhiteSpace (c : char) : bool :=
  ((9 <=? c) && (c <=? 13) || (c =? 32) || (c =? 160) || (c =? 5760)
   || ((8192 <=? c) && (c <=? 8202)) || (c =? 8232) || (c =? 8233)
   || (c =? 8239) || (c =? 8287) || (c =? 12288) || (c =? 65279))%N.

(** Line terminators: the characters [.] refuses. *)
Definition isLineTerminator (c : char) : bool :=
  ((c =? 10) || (c =? 13) || (c =? 8232) || (c =? 8233))%N.

Definition isDigit (c : char) : bool := ((48 <=? c) && (c <=? 57))%N.

Fixpoint str_eqb (a b : str) : bool :=
  match a, b with
  | [], [] => true
  | x :: a', y :: b' => (x =? y)%N && str_eqb a' b'
  | _, _ => false
  end.

(** ** String primitives *)

Module JS.

Fixpoint dropWhile (p : char -> bool) (s : str) : str :=
  match s with
  | [] => []
  | c :: s' => if p c then dropWhile p s' else s
  end.

Definition trimStart (s : str) : str := dropWhile isWhiteSpace s.
Definition trimEnd (s : str) : str := rev (dropWhile isWhiteSpace (rev s)).

(** [s.trim()] *)
Definition trim (s : str) : str := trimEnd (trimStart s).

(** [s.startsWith(p)] *)
Fixpoint startsWith (p s : str) : bool :=
  match p, s with
  | [], _ => true
  | x :: p', y :: s' => (x =? y)%N && startsWith p' s'
  | _ :: _, [] => false
  end.

(** [s.substring(n)] *)
Definition substring (n : nat) (s : str) : str := skipn n s.

(** [s.split(sep)] for a one-character separator; the empty string
    splits into one empty piece. *)
Fixpoint split (sep : char) (s : str) : list str :=
  match s with
  | [] => [[]]
  | c :: s' =>
      if (c =? sep)%N then [] :: split sep s'
      else match split sep s' with
           | l :: ls => (c :: l) :: ls
           | [] => [[c]]
           end
  end.

(** [s.split(/\s+/)]: pieces between maximal runs of white space; a
    leading or trailing run leaves an empty piece at that end. *)
Fixpoint splitWs (s : str) : list str :=
  match s with
  | [] => [[]]
  | c :: s' =>
      if isWhiteSpace c then
        match s' with
        | c' :: _ => if isWhiteSpace c' then splitWs s' else [] :: splitWs s'
        | [] => [] :: splitWs s'
        end
      else match splitWs s' with
           | l :: ls => (c :: l) :: ls
           | [] => [[c]]
           end
  end.

(** [lines.join(sep)] *)
Fixpoint join (sep : str) (l : list str) : str :=
  match l with
  | [] => []
  | [x] => x
  | x :: l' => x ++ sep ++ join sep l'
  end.

(** [s.replace(pat, rep)] for a string pattern: the first occurrence
    of [pat] is replaced.  (The replacement texts of the source are
    printed numbers and a dash, without [$] patterns.) *)
Fixpoint replace (pat rep s : str) : str :=
  if startsWith pat s then rep ++ skipn (length pat) s
  else match s with
       | [] => []
       | c :: s' => c :: replace pat rep s'
       end.

(** [list.includes(x)] on a list of strings *)
Definition includes (l : list str) (x : str) : bool := existsb (str_eqb x) l.

(** [s.replace(/\s+/g, '')] *)
Definition removeWhiteSpace (s : str) : str :=
  filter (fun c => negb (isWhiteSpace c)) s.

(** Decimal digits of a non-negative integer, most significant first. *)
Fixpoint digitsFuel (fuel : nat) (n : N) (acc : str) : str :=
  match fuel with
  | O => acc
  | S f =>
      let acc' := (48 + n mod 10)%N :: acc in
      if (n / 10 =? 0)%N then acc' else digitsFuel f (n / 10)%N acc'
  end.

Definition digits (n : N) : str := digitsFuel (S (N.to_nat (N.log2 n))) n [].

(** *** Numbers

    A number of the source is an IEEE 754 binary64 value.  The numbers
    this code reads, prints and adds are integers: the model writes an
    integer double as that integer, and the two infinities as [2^1024] and
    [-2^1024], which are not doubles themselves and sit where the
    infinities do in the order. *)
Definition INFINITY : Z := 2 ^ 1024.

(** The double nearest to a non-negative integer: 53 significant bits,
    ties to the even significand, infinity from [2^1024 - 2^970] on. *)
Definition toDoubleAbs (n : Z) : Z :=
  if n <? 2 ^ 53 then n
  else
    let e := Z.log2 n - 52 in
    let q := n / 2 ^ e in
    let r := n mod 2 ^ e in
    let half := 2 ^ (e - 1) in
    let q' := if r <? half then q
              else if half <? r then q + 1
              else if Z.even q then q else q + 1 in
    if INFINITY <=? q' * 2 ^ e then INFINITY else q' * 2 ^ e.

Definition toDouble (n : Z) : Z :=
  if n <? 0 then - toDoubleAbs (- n) else toDoubleAbs n.

(** The integers that are doubles (with the two infinities as written
    above). *)
Definition isDouble (n : Z) : Prop := toDouble n = n.

(** [a + b] on integer doubles (never on two opposite infinities here). *)
Definition add (a b : Z) : Z := toDouble (a + b).

(** Number::toString, step 5: the shortest decimal significand [s], of
    [k] digits, with [s * 10^(n - k)] reading back as the double [x]; of
    two such, the one nearer to [x].  [len] is the number of digits of
    [x]; the result is [(s, k, n)]. *)
Fixpoint shortestFuel (fuel : nat) (k : Z) (x len : Z) : Z * Z * Z :=
  match fuel with
  | O => (x, len, len)
  | S f =>
      let p := 10 ^ (len - k) in
      let lo := x / p in
      let hi := lo + 1 in
      let okLo := toDouble (lo * p) =? x in
      let okHi := toDouble (hi * p) =? x in
      let s :=
        if okLo && okHi then
          (if x - lo * p <? hi * p - x then lo
           else if hi * p - x <? x - lo * p then hi
           else if Z.even lo then lo else hi)
        else if okLo then lo else hi in
      if okLo || okHi then
        (if s =? 10 ^ k then (1, 1, len + 1) else (s, k, len))
      else shortestFuel f (k + 1) x len
  end.

Definition shortest (x : Z) : Z * Z * Z :=
  let len := Z.of_nat (length (digits (Z.to_N x))) in
  shortestFuel (Z.to_nat len) 1 x len.

(** Number::toString for a non-negative integer double: an integer below
    [2^53] is its own shortest significand; from [2^53] on the shortest
    significand is padded with zeros, and from [10^21] on it is written
    with an exponent ([1e+21], [1.5e+300]). *)
Definition numberToStringAbs (x : Z) : str :=
  if x <? 2 ^ 53 then digits (Z.to_N x)
  else if INFINITY <=? x then [73; 110; 102; 105; 110; 105; 116; 121]%N
  else
    let '(s, k, n) := shortest x in
    if x <? 10 ^ 21 then digits (Z.to_N s) ++ repeat 48%N (Z.to_nat (n - k))
    else
      let exponent := [101; 43]%N ++ digits (Z.to_N (n - 1)) in
      match digits (Z.to_N s) with
      | [] => exponent
      | [d] => d :: exponent
      | d :: rest => d :: 46%N :: rest ++ exponent
      end.

(** [`${n}`] for an integer double [n]. *)
Definition numberToString (n : Z) : str :=
  match n with
  | Zneg p => 45%N :: numberToStringAbs (Zpos p)
  | _ => numberToStringAbs n
  end.

(** [parseInt(s, 10)] on a string that begins with its digits: the double
    nearest to the value of the leading run of decimal digits.  Every call
    in the source passes a [\d+] capture, so the not-a-number outcome (no
    leading digit) never arises; the model returns 0 there. *)
Fixpoint parseDigits (acc : Z) (s : str) : Z :=
  match s with
  | [] => acc
  | c :: s' =>
      if isDigit c then parseDigits (acc * 10 + Z.of_N (c - 48)) s' else acc
  end.

Definition parseInt (s : str) : Z := toDouble (parseDigits 0 s).

(** Lower-case hexadecimal digits, for [n.toString(16)]. *)
Definition hexDigit (d : N) : char := (if d <? 10 then 48 + d else 87 + d)%N.

Fixpoint hexFuel (fuel : nat) (n : N) (acc : str) : str :=
  match fuel with
  | O => acc
  | S f =>
      let acc' := hexDigit (n mod 16) :: acc in
      if (n / 16 =? 0)%N then acc' else hexFuel f (n / 16)%N acc'
  end.

Definition toString16 (n : Z) : str :=
  match n with
  | Zneg p => 45%N :: hexFuel (S (N.to_nat (N.log2 (Npos p)))) (Npos p) []
  | _ => hexFuel (S (N.to_nat (N.log2 (Z.to_N n)))) (Z.to_N n) []
  end.

(** ToInt32: the signed 32-bit value the bitwise operators work on. *)
Definition toInt32 (n : Z) : Z :=
  let m := (n mod 4294967296)%Z in
  if (m <? 2147483648)%Z then m else (m - 4294967296)%Z.

End JS.

(** ** Regular expressions

    The fragment of ECMAScript patterns the source uses: literals,
    character classes, sequence, ordered alternation, greedy and lazy
    repetition of a character class, capturing groups and the end
    assertion [$].  Every pattern of the source but [TAG_REGEX] starts with
    [^] and has no [m] flag, so it can only match at index 0: [exec] below
    runs a pattern at the start of its input.  No pattern of the source has
    a group under an alternation or a repetition, so the captures of a
    match are listed in the order of their opening parentheses. *)

Module Regex.

Inductive cclass : Type :=
| Digit                    (* \d *)
| Space                    (* \s *)
| NonSpace                 (* \S *)
| Dot                      (* .  *)
| OneOf (cs : list char).  (* [...] *)

Definition mem (c : cclass) (x : char) : bool :=
  match c with
  | Digit => isDigit x
  | Space => isWhiteSpace x
  | NonSpace => negb (isWhiteSpace x)
  | Dot => negb (isLineTerminator x)
  | OneOf cs => existsb (N.eqb x) cs
  end.

Inductive regex : Type :=
| Lit (l : str)             (* literal characters *)
| One (c : cclass)          (* one character of a class *)
| Seq (r1 r2 : regex)       (* r1 r2 *)
| Alt (r1 r2 : regex)       (* r1|r2 *)
| Star (c : cclass)         (* c, zero or more, greedy *)
| Plus (c : cclass)         (* c+ *)
| PlusLazy (c : cclass)     (* c+? *)
| Group (r : regex)         (* (r) *)
| Eol.                      (* $   *)

Section Matcher.
Variable A : Type.

(** Greedy repetition of [c] from [s]: the longest run first, then
    shorter ones. *)
Fixpoint star (c : cclass) (s : str) (k : str -> option A) : option A :=
  match s with
  | x :: s' =>
      if mem c x then
        match star c s' k with
        | Some a => Some a
        | None => k s
        end
      else k s
  | [] => k s
  end.

(** [c+?] after its first character: the shortest run first. *)
Fixpoint lazy (c : cclass) (s : str) (k : str -> option A) : option A :=
  match k s with
  | Some a => Some a
  | None =>
      match s with
      | x :: s' => if mem c x then lazy c s' k else None
      | [] => None
      end
  end.

Fixpoint lit (l s : str) (k : str -> option A) : option A :=
  match l, s with
  | [], _ => k s
  | x :: l', y :: s' => if (x =? y)%N then lit l' s' k else None
  | _ :: _, [] => None
  end.
End Matcher.

(** The substring a group consumed, given the input at its start and
    the input left at its end. *)
Definition consumed (s s' : str) : str := firstn (length s - length s') s.

(** [run r s k]: match [r] at the start of [s], then continue with [k]
    on the rest; the first success in backtracking order, with the
    captures of [r]. *)
Fixpoint run (A : Type) (r : regex) (s : str) (k : str -> option A)
  : option (list str * A) :=
  match r with
  | Lit l => lit l s (fun s' => option_map (pair []) (k s'))
  | One c =>
      match s with
      | x :: s' => if mem c x then option_map (pair []) (k s') else None
      | [] => None
      end
  | Seq r1 r2 =>
      match run r1 s (fun s' => run r2 s' k) with
      | Some (c1, (c2, a)) => Some (c1 ++ c2, a)
      | None => None
      end
  | Alt r1 r2 =>
      match run r1 s k with
      | Some res => Some res
      | None => run r2 s k
      end
  | Star c => star c s (fun s' => option_map (pair []) (k s'))
  | Plus c =>
      match s with
      | x :: s' =>
          if mem c x then star c s' (fun s' => option_map (pair []) (k s'))
          else None
      | [] => None
      end
  | PlusLazy c =>
      match s with
      | x :: s' =>
          if mem c x then lazy c s' (fun s' => option_map (pair []) (k s'))
          else None
      | [] => None
      end
  | Group r1 =>
      match run r1 s (fun s' => option_map (pair s') (k s')) with
      | Some (c1, (s', a)) => Some (consumed s s' :: c1, a)
      | None => None
      end
  | Eol =>
      match s with
      | [] => option_map (pair []) (k s)
      | _ :: _ => None
      end
  end.

(** [s.match(r)] for a pattern anchored with [^]: the whole match
    (index 0 of the result array) followed by the groups. *)
Definition exec (r : regex) (s : str) : option (list str) :=
  match run r s (fun s' => Some s') with
  | Some (caps, s') => Some (consumed s s' :: caps)
  | None => None
  end.

(** [r.test(s)] *)
Definition test (r : regex) (s : str) : bool :=
  match exec r s with Some _ => true | None => false end.

(** Successive matches of an unanchored pattern with the [g] flag, as a
    [while ((m = r.exec(text)) !== null)] loop collects them: try each
    index in turn and resume after the end of a match.  One unit of fuel
    is spent per index tried. *)
Fixpoint execAllFuel (fuel : nat) (r : regex) (s : str) : list (list str) :=
  match fuel with
  | O => []
  | S f =>
      match s with
      | [] => []
      | _ :: s' =>
          match run r s (fun rest => Some rest) with
          | Some (caps, rest) =>
              (consumed s rest :: caps)
                :: execAllFuel f r (if (length rest <? length s)%nat then rest else s')
          | None => execAllFuel f r s'
          end
      end
  end.

Definition execAll (r : regex) (s : str) : list (list str) :=
  execAllFuel (S (length s)) r s.

End Regex.

Import Regex.

(** ** src/utils/constants.ts *)

(** Code units of the literals the source spells out. *)
Definition c_DASH : char := 45%N.       (* - *)
Definition c_SP : char := 32%N.         (* space *)
Definition c_HASH : char := 35%N.       (* # *)
Definition c_COLON : char := 58%N.      (* : *)
Definition c_NL : char := 10%N.         (* \n *)
Definition c_RI : char := 26085%N.      (* 日 *)
Definition c_YE : char := 22812%N.      (* 夜 *)
Definition c_YU : char := 38632%N.      (* 雨 *)
Definition c_XUE : char := 38634%N.     (* 雪 *)
Definition c_NEI : char := 20869%N.     (* 内 *)
Definition c_WAI : char := 22806%N.     (* 外 *)
Definition c_REN : char := 20154%N.     (* 人 *)
Definition c_WU : char := 29289%N.      (* 物 *)
Definition c_LPAR : char := 65288%N.    (* （ *)
Definition c_RPAR : char := 65289%N.    (* ） *)
Definition c_FCOLON : char := 65306%N.  (* ： *)
Definition c_TRI : char := 9651%N.      (* △ *)
Definition c_LBR : char := 12304%N.     (* 【 *)
Definition c_RBR : char := 12305%N.     (* 】 *)
Definition c_BIAO : char := 26631%N.    (* 标 *)
Definition c_QIAN : char := 31614%N.    (* 签 *)
Definition c_SHAN : char := 38378%N.    (* 闪 *)
Definition c_HUI : char := 22238%N.     (* 回 *)
Definition c_JIE : char := 32467%N.     (* 结 *)
Definition c_SHU : char := 26463%N.     (* 束 *)
Definition c_DI : char := 31532%N.      (* 第 *)
Definition c_JI : char := 38598%N.      (* 集 *)

(** [/^(\d+)-(\d+)/] *)
Definition SCENE_NUMBER_REGEX : regex :=
  Seq (Group (Plus Digit)) (Seq (Lit [c_DASH]) (Group (Plus Digit))).

(** [/^(\d+)-(\d+)\s+(日|夜|雨夜|雪夜|\S+)\s+(内|外)\s+(.+)$/] *)
Definition TIME_ALTERNATIVES : regex :=
  Alt (Lit [c_RI])
    (Alt (Lit [c_YE])
       (Alt (Lit [c_YU; c_YE])
          (Alt (Lit [c_XUE; c_YE]) (Plus NonSpace)))).

Definition SCENE_HEADER_REGEX : regex :=
  Seq (Group (Plus Digit))
    (Seq (Lit [c_DASH])
       (Seq (Group (Plus Digit))
          (Seq (Plus Space)
             (Seq (Group TIME_ALTERNATIVES)
                (Seq (Plus Space)
                   (Seq (Group (Alt (Lit [c_NEI]) (Lit [c_WAI])))
                      (Seq (Plus Space)
                         (Seq (Group (Plus Dot)) Eol)))))))).

(** [/^人\s+(.+)$/] *)
Definition CHARACTER_LIST_REGEX : regex :=
  Seq (Lit [c_REN]) (Seq (Plus Space) (Seq (Group (Plus Dot)) Eol)).

(** [/^(.+?)（(.+?)）：(.+)$/] *)
Definition DIALOGUE_REGEX : regex :=
  Seq (Group (PlusLazy Dot))
    (Seq (Lit [c_LPAR])
       (Seq (Group (PlusLazy Dot))
          (Seq (Lit [c_RPAR; c_FCOLON]) (Seq (Group (Plus Dot)) Eol)))).

(** [/^(.+?)：(.+)$/] *)
Definition SIMPLE_DIALOGUE_REGEX : regex :=
  Seq (Group (PlusLazy Dot))
    (Seq (Lit [c_FCOLON]) (Seq (Group (Plus Dot)) Eol)).

(** The pattern for action lines: [^], the marker △, [\s*], a group
    holding [.*] (any run of non-terminator characters), and [$]. *)
Definition ACTION_REGEX : regex :=
  Seq (Lit [c_TRI]) (Seq (Star Space) (Seq (Group (Star Dot)) Eol)).

(** [/【标签：(.+?)】/g] (matched at any index, see [Regex.execAll]) *)
Definition TAG_REGEX : regex :=
  Seq (Lit [c_LBR; c_BIAO; c_QIAN; c_FCOLON])
    (Seq (Group (PlusLazy Dot)) (Lit [c_RBR])).

Definition FLASHBACK_START : str := [c_LBR; c_SHAN; c_HUI; c_RBR].
Definition FLASHBACK_END : str := [c_LBR; c_SHAN; c_HUI; c_JIE; c_SHU; c_RBR].

Definition LOCATION_TYPES : list str := [[c_NEI]; [c_WAI]].

Definition WORDS_PER_MINUTE : Z := 200.

(** ** src/types: scene records *)

Record SceneNumber : Type := mkSceneNumber {
  n_episode : Z;
  n_scene : Z
}.

Record SceneInfo : Type := mkSceneInfo {
  s_episode : Z;
  s_scene : Z;
  s_line : Z;
  s_time : str;
  s_locationType : str;
  s_location : str;
  s_characters : list str;
  s_tags : list str;
  s_wordCount : Z;
  s_isFlashback : bool
}.

Record SceneIndex : Type := mkSceneIndex {
  i_scenes : list SceneInfo;
  i_episodeCount : Z;
  i_lastUpdated : Z;
  i_contentHash : str
}.

(** The texts of the validation messages. *)
Inductive Message : Type :=
| MsgEmpty              (* 场景头不能为空 *)
| MsgNoNumber           (* 缺少有效的场景编号（格式：集数-场数，如 1-1） *)
| MsgMissingAll         (* 缺少时间、内外景和地点信息 *)
| MsgMissingTime        (* 缺少时间信息（如：日、夜、雨夜、雪夜） *)
| MsgMissingLocationType          (* 缺少内外景信息（内 或 外） *)
| MsgBadLocationType (given : str) (* 内外景必须是 内 或 外，当前值：given *)
| MsgMissingLocation    (* 缺少地点信息 *)
| MsgBadFormat.         (* 场景头格式不正确，正确格式：编号 时间 内外景 地点 *)

Record ValidationError : Type := mkError {
  position : Z;
  message : Message
}.

Record ValidationResult : Type := mkResult {
  valid : bool;
  errors : list ValidationError
}.

(** ** src/services/SceneService.ts *)

Record ParsedSceneHeader : Type := mkHeader {
  h_episode : Z;
  h_scene : Z;
  h_time : str;
  h_locationType : str;
  h_location : str
}.

(** [m[i]] of a match array (an absent entry reads as the empty string,
    which no pattern of the source leaves observable). *)
Definition at_ (m : list str) (i : nat) : str := nth i m [].

Definition len (s : str) : Z := Z.of_nat (length s).

Definition parseSceneHeader (line : str) : option ParsedSceneHeader :=
  let trimmedLine := JS.trim line in
  match exec SCENE_HEADER_REGEX trimmedLine with
  | None => None
  | Some m =>
      Some {| h_episode := JS.parseInt (at_ m 1);
              h_scene := JS.parseInt (at_ m 2);
              h_time := at_ m 3;
              h_locationType := at_ m 4;
              h_location := JS.trim (at_ m 5) |}
  end.

Definition isEmpty (s : str) : bool :=
  match s with [] => true | _ :: _ => false end.

Definition validateSceneHeader (line : str) : ValidationResult :=
  let trimmedLine := JS.trim line in
  if isEmpty trimmedLine then
    {| valid := false; errors := [ {| position := 0; message := MsgEmpty |} ] |}
  else
    match exec SCENE_NUMBER_REGEX trimmedLine with
    | None =>
        {| valid := false;
           errors := [ {| position := 0; message := MsgNoNumber |} ] |}
    | Some numberMatch =>
        let afterNumber :=
          JS.trim (JS.substring (length (at_ numberMatch 0)) trimmedLine) in
        let numberEndPos := len (at_ numberMatch 0) in
        if isEmpty afterNumber then
          {| valid := false;
             errors := [ {| position := numberEndPos;
                            message := MsgMissingAll |} ] |}
        else
          let parts := JS.splitWs afterNumber in
          let errors1 :=
            if (length parts <? 1)%nat || isEmpty (at_ parts 0)
            then [ {| position := numberEndPos; message := MsgMissingTime |} ]
            else [] in
          let errors2 :=
            if (length parts <? 2)%nat
            then errors1 ++ [ {| position := numberEndPos + len (at_ parts 0) + 1;
                                 message := MsgMissingLocationType |} ]
            else if negb (JS.includes LOCATION_TYPES (at_ parts 1))
            then errors1 ++ [ {| position := numberEndPos + len (at_ parts 0) + 1;
                                 message := MsgBadLocationType (at_ parts 1) |} ]
            else errors1 in
          let errors3 :=
            if (length parts <? 3)%nat
            then errors2 ++ [ {| position := len trimmedLine;
                                 message := MsgMissingLocation |} ]
            else errors2 in
          if (0 <? length errors3)%nat then
            {| valid := false; errors := errors3 |}
          else
            match exec SCENE_HEADER_REGEX trimmedLine with
            | None =>
                {| valid := false;
                   errors := errors3 ++ [ {| position := 0;
                                             message := MsgBadFormat |} ] |}
            | Some _ => {| valid := true; errors := [] |}
            end
    end.

Definition isSceneNumberLine (line : str) : bool :=
  test SCENE_NUMBER_REGEX (JS.trim line).

Definition extractSceneNumber (line : str) : option SceneNumber :=
  match exec SCENE_NUMBER_REGEX (JS.trim line) with
  | None => None
  | Some m =>
      Some {| n_episode := JS.parseInt (at_ m 1);
              n_scene := JS.parseInt (at_ m 2) |}
  end.

Definition parseCharacterList (line : str) : option (list str) :=
  match exec CHARACTER_LIST_REGEX (JS.trim line) with
  | None => None
  | Some m =>
      Some (filter (fun name => (0 <? length name)%nat) (JS.splitWs (at_ m 1)))
  end.

Definition parseSceneTags (text : str) : list str :=
  map (fun m => at_ m 1) (execAll TAG_REGEX text).

Definition formatSceneNumber (sceneNumber : SceneNumber) : str :=
  JS.numberToString (n_episode sceneNumber)
    ++ [c_DASH] ++ JS.numberToString (n_scene sceneNumber).

(** The module-level [countWords] of SceneService.ts. *)
Definition countWords (text : str) : Z := len (JS.removeWhiteSpace text).

(** [calculateHash]: [hash = ((hash << 5) - hash) + char; hash = hash & hash]
    over the code units, printed in base 16. *)
Definition hashStep (hash : Z) (c : char) : Z :=
  JS.toInt32 (JS.toInt32 (Z.shiftl (JS.toInt32 hash) 5) - hash + Z.of_N c).

Definition calculateHash (content : str) : str :=
  JS.toString16 (fold_left hashStep content 0).

(** *** parseDocument *)

(** The accumulators of the scan loop. *)
Record ScanState : Type := mkScan {
  sc_scenes : list SceneInfo;
  sc_inFlashback : bool;
  sc_currentSceneStartLine : Z;
  sc_currentSceneContent : list str;
  sc_currentTags : list str;
  sc_maxEpisode : Z
}.

(** [scenes[scenes.length - 1] = f(scenes[scenes.length - 1])]: the field
    assignments on the last scene of the array. *)
Fixpoint updateLast (f : SceneInfo -> SceneInfo) (l : list SceneInfo)
  : list SceneInfo :=
  match l with
  | [] => []
  | [x] => [f x]
  | x :: l' => x :: updateLast f l'
  end.

Definition setCount (wc : Z) (tags : list str) (s : SceneInfo) : SceneInfo :=
  {| s_episode := s_episode s; s_scene := s_scene s; s_line := s_line s;
     s_time := s_time s; s_locationType := s_locationType s;
     s_location := s_location s; s_characters := s_characters s;
     s_tags := tags; s_wordCount := wc; s_isFlashback := s_isFlashback s |}.

Definition setCharacters (cs : list str) (s : SceneInfo) : SceneInfo :=
  {| s_episode := s_episode s; s_scene := s_scene s; s_line := s_line s;
     s_time := s_time s; s_locationType := s_locationType s;
     s_location := s_location s; s_characters := cs;
     s_tags := s_tags s; s_wordCount := s_wordCount s;
     s_isFlashback := s_isFlashback s |}.

(** One iteration of the loop over the lines. *)
Definition scanLine (lineIndex : Z) (line : str) (st : ScanState) : ScanState :=
  let trimmedLine := JS.trim line in
  if str_eqb trimmedLine FLASHBACK_START then
    {| sc_scenes := sc_scenes st; sc_inFlashback := true;
       sc_currentSceneStartLine := sc_currentSceneStartLine st;
       sc_currentSceneContent := sc_currentSceneContent st;
       sc_currentTags := sc_currentTags st; sc_maxEpisode := sc_maxEpisode st |}
  else if str_eqb trimmedLine FLASHBACK_END then
    {| sc_scenes := sc_scenes st; sc_inFlashback := false;
       sc_currentSceneStartLine := sc_currentSceneStartLine st;
       sc_currentSceneContent := sc_currentSceneContent st;
       sc_currentTags := sc_currentTags st; sc_maxEpisode := sc_maxEpisode st |}
  else
    match parseSceneHeader trimmedLine with
    | Some parsedHeader =>
        let saved :=
          if (sc_currentSceneStartLine st >=? 0)
             && (0 <? length (sc_scenes st))%nat
          then updateLast
                 (setCount
                    (countWords (JS.join [c_NL] (sc_currentSceneContent st)))
                    (sc_currentTags st))
                 (sc_scenes st)
          else sc_scenes st in
        let sceneInfo :=
          {| s_episode := h_episode parsedHeader;
             s_scene := h_scene parsedHeader;
             s_line := lineIndex;
             s_time := h_time parsedHeader;
             s_locationType := h_locationType parsedHeader;
             s_location := h_location parsedHeader;
             s_characters := [];
             s_tags := [];
             s_wordCount := 0;
             s_isFlashback := sc_inFlashback st |} in
        {| sc_scenes := saved ++ [sceneInfo];
           sc_inFlashback := sc_inFlashback st;
           sc_currentSceneStartLine := lineIndex;
           sc_currentSceneContent := [];
           sc_currentTags := [];
           sc_maxEpisode :=
             if h_episode parsedHeader >? sc_maxEpisode st
             then h_episode parsedHeader else sc_maxEpisode st |}
    | None =>
        if sc_currentSceneStartLine st >=? 0 then
          match parseCharacterList trimmedLine with
          | Some characters =>
              {| sc_scenes :=
                   if (0 <? length (sc_scenes st))%nat
                   then updateLast (setCharacters characters) (sc_scenes st)
                   else sc_scenes st;
                 sc_inFlashback := sc_inFlashback st;
                 sc_currentSceneStartLine := sc_currentSceneStartLine st;
                 sc_currentSceneContent := sc_currentSceneContent st;
                 sc_currentTags := sc_currentTags st;
                 sc_maxEpisode := sc_maxEpisode st |}
          | None =>
              let tags := parseSceneTags trimmedLine in
              {| sc_scenes := sc_scenes st;
                 sc_inFlashback := sc_inFlashback st;
                 sc_currentSceneStartLine := sc_currentSceneStartLine st;
                 sc_currentSceneContent := sc_currentSceneContent st ++ [line];
                 sc_currentTags :=
                   if (0 <? length tags)%nat
                   then sc_currentTags st ++ tags else sc_currentTags st;
                 sc_maxEpisode := sc_maxEpisode st |}
          end
        else st
    end.

(** [for (let lineIndex = ...; lineIndex < lines.length; lineIndex++)] *)
Fixpoint scanLines (lineIndex : Z) (lines : list str) (st : ScanState)
  : ScanState :=
  match lines with
  | [] => st
  | line :: rest => scanLines (lineIndex + 1) rest (scanLine lineIndex line st)
  end.

Definition initialScan : ScanState :=
  {| sc_scenes := []; sc_inFlashback := false;
     sc_currentSceneStartLine := -1; sc_currentSceneContent := [];
     sc_currentTags := []; sc_maxEpisode := 0 |}.

(** The part of [parseDocument] after the hash test: the scan, the
    closing of the last scene and the index it builds at time [now]. *)
Definition buildIndex (now : Z) (content contentHash : str) : SceneIndex :=
  let lines := JS.split c_NL content in
  let st := scanLines 0 lines initialScan in
  let scenes' :=
    if (0 <? length (sc_scenes st))%nat
       && (0 <? length (sc_currentSceneContent st))%nat
    then updateLast
           (setCount (countWords (JS.join [c_NL] (sc_currentSceneContent st)))
                     (sc_currentTags st))
           (sc_scenes st)
    else sc_scenes st in
  {| i_scenes := scenes';
     i_episodeCount := sc_maxEpisode st;
     i_lastUpdated := now;
     i_contentHash := contentHash |}.

(** [SceneIndex] objects live in a store and are passed by reference: the
    service field [this.index] and the [previousIndex] argument hold
    references.  A new object takes the next free address. *)
Definition ref := nat.
Definition store := list SceneIndex.

Definition deref (h : store) (r : ref) : option SceneIndex := nth_error h r.

Definition alloc (h : store) (v : SceneIndex) : ref * store :=
  (length h, h ++ [v]).

Record SceneService : Type := mkService {
  index : ref
}.

(** [createEmptyIndex()] at time [now], and the state the constructor
    leaves: a store holding that empty index, referenced by the service. *)
Definition createEmptyIndex (now : Z) : SceneIndex :=
  {| i_scenes := []; i_episodeCount := 0; i_lastUpdated := now;
     i_contentHash := [] |}.

Definition newService (now : Z) : store * SceneService :=
  ([createEmptyIndex now], {| index := 0%nat |}).

(** [parseDocument(content, previousIndex?)], reading the clock as [now].
    Returns the reference it returns in the source, the store and the
    service afterwards.  A reference that is not in the store cannot be
    written in the source; the model reads it as no previous index. *)
Definition parseDocument (now : Z) (content : str) (previousIndex : option ref)
    (h : store) (this : SceneService) : ref * store * SceneService :=
  let contentHash := calculateHash content in
  let rebuild :=
    let '(r, h') := alloc h (buildIndex now content contentHash) in
    (r, h', {| index := r |}) in
  match previousIndex with
  | Some p =>
      match deref h p with
      | Some previous =>
          if str_eqb (i_contentHash previous) contentHash
          then (p, h, this)
          else rebuild
      | None => rebuild
      end
  | None => rebuild
  end.

(** *** The numbering engine

    The methods below read [this.index.scenes]; they take the index
    object the service holds. *)

(** The loop that finds the scenes around the cursor:
    [if (scenes[i].line <= cursorLine) prevScene = scenes[i];
     else { nextScene = scenes[i]; break; }] *)
Fixpoint findAround (scenes : list SceneInfo) (cursorLine : Z)
    (prevScene : option SceneInfo) : option SceneInfo * option SceneInfo :=
  match scenes with
  | [] => (prevScene, None)
  | s :: rest =>
      if s_line s <=? cursorLine then findAround rest cursorLine (Some s)
      else (prevScene, Some s)
  end.

Definition getNextSceneNumber (index : SceneIndex) (cursorLine : Z)
  : SceneNumber :=
  let scenes := i_scenes index in
  match scenes with
  | [] => {| n_episode := 1; n_scene := 1 |}
  | firstScene :: _ =>
      match findAround scenes cursorLine None with
      | (None, _) => {| n_episode := s_episode firstScene; n_scene := 1 |}
      | (Some prevScene, None) =>
          {| n_episode := s_episode prevScene;
             n_scene := JS.add (s_scene prevScene) 1 |}
      | (Some prevScene, Some nextScene) =>
          if s_episode prevScene =? s_episode nextScene
          then {| n_episode := s_episode prevScene;
                  n_scene := JS.add (s_scene prevScene) 1 |}
          else {| n_episode := s_episode prevScene;
                  n_scene := JS.add (s_scene prevScene) 1 |}
      end
  end.

Definition needsRenumbering (index : SceneIndex) (cursorLine : Z) : bool :=
  let scenes := i_scenes index in
  match scenes with
  | [] => false
  | _ :: _ =>
      match findAround scenes cursorLine None with
      | (_, None) => false
      | (Some prevScene, Some nextScene) =>
          if s_episode prevScene =? s_episode nextScene then true
          else false
      | (None, Some nextScene) =>
          if s_scene nextScene =? 1 then true else false
      end
  end.


Definition generateSceneHeaderTemplate (sceneNumber : SceneNumber)
    (time locationType location : str) : str :=
  JS.numberToString (n_episode sceneNumber) ++ [c_DASH]
    ++ JS.numberToString (n_scene sceneNumber) ++ [c_SP]
    ++ time ++ [c_SP] ++ locationType ++ [c_SP] ++ location.



(** ** src/services/StatsService.ts *)

Module StatsService.

Definition countWords (text : str) : Z :=
  if isEmpty text then 0 else len (JS.removeWhiteSpace text).

Definition SEPARATOR : str := [c_DASH; c_DASH; c_DASH].          (* --- *)
Definition CHARACTER_PREFIX : str := [c_REN; c_SP].              (* 人 + space *)
Definition TAG_PREFIX : str := [c_LBR; c_BIAO; c_QIAN; c_FCOLON]. (* 【标签： *)

(** The body of the loop of [countContentWords]: what one line adds
    to [totalWords]. *)
Definition lineWords (line : str) : Z :=
  let trimmedLine := JS.trim line in
  if isEmpty trimmedLine then 0
  else if test SCENE_NUMBER_REGEX trimmedLine then 0
  else if JS.startsWith CHARACTER_PREFIX trimmedLine then 0
  else if str_eqb trimmedLine FLASHBACK_START
          || str_eqb trimmedLine FLASHBACK_END then 0
  else if JS.startsWith TAG_PREFIX trimmedLine then 0
  else if str_eqb trimmedLine SEPARATOR then 0
  else if JS.startsWith [c_HASH] trimmedLine then 0
  else
    match exec DIALOGUE_REGEX trimmedLine with
    | Some dialogueMatch => countWords (at_ dialogueMatch 3)
    | None =>
        match exec SIMPLE_DIALOGUE_REGEX trimmedLine with
        | Some simpleDialogueMatch => countWords (at_ simpleDialogueMatch 2)
        | None =>
            match exec ACTION_REGEX trimmedLine with
            | Some actionMatch => countWords (at_ actionMatch 1)
            | None => countWords trimmedLine
            end
        end
    end.

Definition countContentWords (text : str) : Z :=
  if isEmpty text then 0
  else fold_left (fun totalWords line => totalWords + lineWords line)
                 (JS.split c_NL text) 0.

(** [Math.ceil(rawDuration * 2) / 2] with
    [rawDuration = wordCount / WORDS_PER_MINUTE], in exact arithmetic.
    This is what the code computes for a word count below 2^53; the
    evaluation in doubles, for every word count, is
    [Binary64.estimateDuration] below. *)
Definition estimateDuration (wordCount : Z) : Q :=
  if wordCount <=? 0 then 0%Q
  else
    let rawDuration := (inject_Z wordCount / inject_Z WORDS_PER_MINUTE)%Q in
    (inject_Z (Qceiling (rawDuration * 2)) / 2)%Q.

End StatsService.

(** ** [estimateDuration] in doubles

    The quotient of two positive integers as a double: the binary64 number
    nearest to [a / b], ties to the even significand.  The quotient is
    scaled by a power of two so that it lies between 2^52 and 2^53, rounded
    to an integer there, and scaled back.  (A word count divided by 200 is
    far from the overflow threshold and from the subnormal numbers, which
    the model leaves out.) *)
Module Binary64.

(** Numerator and denominator of [a / (b * 2^e)]. *)
Definition scaled (a b e : Z) : Z * Z :=
  if 0 <=? e then (a, b * 2 ^ e) else (a * 2 ^ (- e), b).

(** The exponent [e] with [2^52 <= a / (b * 2^e) < 2^53]. *)
Definition exponent (a b : Z) : Z :=
  let e := Z.log2 a - Z.log2 b - 53 in
  let '(n, d) := scaled a b e in
  if 2 ^ 53 * d <=? n then e + 1 else e.

(** The integer nearest to [n / d], ties to even. *)
Definition roundHalfEven (n d : Z) : Z :=
  let q := n / d in
  let r := n mod d in
  if 2 * r <? d then q
  else if d <? 2 * r then q + 1
  else if Z.even q then q else q + 1.

(** [a / b] on doubles that hold positive integers. *)
Definition div (a b : Z) : Q :=
  let e := exponent a b in
  let '(n, d) := scaled a b e in
  let m := roundHalfEven n d in
  if 0 <=? e then inject_Z (m * 2 ^ e)
  else (inject_Z m / inject_Z (2 ^ (- e)))%Q.

(** [estimateDuration]: the division rounds; doubling, [Math.ceil] and
    halving are exact on the doubles they meet here. *)
Definition estimateDuration (wordCount : Z) : Q :=
  if wordCount <=? 0 then 0%Q
  else
    let rawDuration := div wordCount WORDS_PER_MINUTE in
    (inject_Z (Qceiling (rawDuration * 2)) / 2)%Q.

End Binary64.

(** Rocq's primitive floats are binary64 numbers with the operations of
    IEEE 754, as JavaScript's numbers are: they give the machine's own
    result at a given input, to compare [JS.toDouble] and [Binary64.div]
    with.  [primOfZ] converts an integer below 2^63, [primValue] reads a
    finite float as a rational. *)
Definition primOfZ (n : Z) : PrimFloat.float :=
  PrimFloat.of_uint63 (Uint63.of_Z n).

Definition primValue (f : PrimFloat.float) : option Q :=
  match FloatOps.Prim2SF f with
  | SpecFloat.S754_zero _ => Some 0%Q
  | SpecFloat.S754_finite s m e =>
      let v := if 0 <=? e then inject_Z (Z.pos m * 2 ^ e)
               else (inject_Z (Z.pos m) / inject_Z (2 ^ (- e)))%Q in
      Some (if s then (- v)%Q else v)
  | _ => None
  end.

Definition sameValue (f : PrimFloat.float) (q : Q) : bool :=
  match primValue f with
  | Some v => Qeq_bool v q
  | None => false
  end.

(** Word counts to compare at: small ones, the neighbours of 2^53, and
    doubles far above it. *)
Definition sampleWordCounts : list Z :=
  [1; 3; 50; 199; 200; 201; 12345; 999999; 4503599627370497;
   9007199254740991; 9007199254740992; 9007199254740994;
   23102894335191400; 29859746793793300; 72057594037928304;
   1152921504606846976; 4611686018427387904].

(** Integers to round to a double: between the doubles above 2^53. *)
Definition sampleIntegers : list Z :=
  [0; 1; 9007199254740991; 9007199254740992; 9007199254740993;
   9007199254740994; 9007199254740995; 18014398509481985;
   18014398509481986; 18014398509481990; 72057594037928303;
   1000000000000000001; 4611686018427387903; 9223372036854775807].

(** ** The exporters' line classifiers *)

Inductive LineType : Type :=
| SceneHeader | CharacterList | Dialogue | SimpleDialogue | Action
| FlashbackStart | FlashbackEnd | EpisodeHeader | Empty | Other.

Module PDFExporter.

(** [/^#\s*第\d+集/] *)
Definition EPISODE_HEADER_REGEX : regex :=
  Seq (Lit [c_HASH])
    (Seq (Star Space) (Seq (Lit [c_DI]) (Seq (Plus Digit) (Lit [c_JI])))).

Definition getLineType (line : str) : LineType :=
  let trimmed := JS.trim line in
  if isEmpty trimmed then Empty
  else if str_eqb trimmed FLASHBACK_START then FlashbackStart
  else if str_eqb trimmed FLASHBACK_END then FlashbackEnd
  else if test SCENE_HEADER_REGEX trimmed then SceneHeader
  else if test CHARACTER_LIST_REGEX trimmed then CharacterList
  else if test DIALOGUE_REGEX trimmed then Dialogue
  else if test SIMPLE_DIALOGUE_REGEX trimmed then SimpleDialogue
  else if test ACTION_REGEX trimmed then Action
  else if test EPISODE_HEADER_REGEX trimmed then EpisodeHeader
  else Other.

End PDFExporter.

(** The Word exporter (src/unnamed/part_001). *)
Module WordExporter.

(** [/^#\s*第.+集/] *)
Definition EPISODE_HEADER_REGEX : regex :=
  Seq (Lit [c_HASH])
    (Seq (Star Space) (Seq (Lit [c_DI]) (Seq (Plus Dot) (Lit [c_JI])))).

(** [/^人物[：:]/] *)
Definition CHARACTER_LABEL_REGEX : regex :=
  Seq (Lit [c_REN; c_WU]) (One (OneOf [c_FCOLON; c_COLON])).

Definition getLineType (line : str) : LineType :=
  let trimmed := JS.trim line in
  if isEmpty trimmed then Empty
  else if str_eqb trimmed FLASHBACK_START then FlashbackStart
  else if str_eqb trimmed FLASHBACK_END then FlashbackEnd
  else if test EPISODE_HEADER_REGEX trimmed then EpisodeHeader
  else if test SCENE_HEADER_REGEX trimmed then SceneHeader
  else if test CHARACTER_LABEL_REGEX trimmed then CharacterList
  else if test CHARACTER_LIST_REGEX trimmed then CharacterList
  else if test ACTION_REGEX trimmed then Action
  else if test DIALOGUE_REGEX trimmed then Dialogue
  else if test SIMPLE_DIALOGUE_REGEX trimmed then SimpleDialogue
  else Other.

End WordExporter.

(** ** Notions used to state the properties *)

(** [stops c s]: a run of [c] cannot be extended into [s]. *)
Definition stops (c : cclass) (s : str) : Prop :=
  match s with
  | [] => True
  | y :: _ => mem c y = false
  end.

Definition allIn (c : cclass) (w : str) : Prop :=
  Forall (fun x => mem c x = true) w.

(** What [run] returns on success, read declaratively: [matches r s s' cs]
    says that [r] can consume [s] down to [s'] with captures [cs]. *)
Inductive matches : regex -> str -> str -> list str -> Prop :=
| M_Lit l rest : matches (Lit l) (l ++ rest) rest []
| M_One c x rest : mem c x = true -> matches (One c) (x :: rest) rest []
| M_Seq r1 r2 s s1 s2 c1 c2 :
    matches r1 s s1 c1 -> matches r2 s1 s2 c2 ->
    matches (Seq r1 r2) s s2 (c1 ++ c2)
| M_AltL r1 r2 s s' cs : matches r1 s s' cs -> matches (Alt r1 r2) s s' cs
| M_AltR r1 r2 s s' cs : matches r2 s s' cs -> matches (Alt r1 r2) s s' cs
| M_Star c w rest : allIn c w -> matches (Star c) (w ++ rest) rest []
| M_Plus c w rest : w <> [] -> allIn c w -> matches (Plus c) (w ++ rest) rest []
| M_PlusLazy c w rest :
    w <> [] -> allIn c w -> matches (PlusLazy c) (w ++ rest) rest []
| M_Group r w rest cs :
    matches r (w ++ rest) rest cs -> matches (Group r) (w ++ rest) rest (w :: cs)
| M_Eol : matches Eol [] [] [].

(** [trimmed s]: [s] neither starts nor ends with white space. *)
Definition trimmed (s : str) : Prop := stops Space s /\ stops Space (rev s).

(** A string of decimal digits (what [\d+] captures). *)
Definition isNumeral (d : str) : Prop := d <> [] /\ allIn Digit d.

(** A validation result that reports, at once, a missing time, a missing
    location kind and a missing location. *)
Definition reportsAllThree (r : ValidationResult) : Prop :=
  valid r = false
  /\ In MsgMissingTime (map message (errors r))
  /\ In MsgMissingLocationType (map message (errors r))
  /\ In MsgMissingLocation (map message (errors r)).

(** The line [3-2]. *)
Definition line_3_2 : str := [51; 45; 50]%N.

(** The next scene of the numbering rules: the first scene whose line is
    after the cursor. *)
Definition nextSceneAfter (index : SceneIndex) (cursorLine : Z)
  : option SceneInfo :=
  find (fun s => cursorLine <? s_line s) (i_scenes index).

Definition firstScene (index : SceneIndex) : option SceneInfo :=
  hd_error (i_scenes index).

Definition cursorBeforeEveryScene (index : SceneIndex) (cursorLine : Z) : Prop :=
  Forall (fun s => cursorLine < s_line s) (i_scenes index).

(** The contract of [needsRenumbering] in the words of the specification:
    true exactly when (a) a next scene exists in the episode of the
    computed insertion number, or (b) the cursor is before every scene and
    the first scene is numbered 1. *)
Definition needsRenumberingContract (index : SceneIndex) (cursorLine : Z) : Prop :=
  needsRenumbering index cursorLine = true <->
  ((exists next,
       nextSceneAfter index cursorLine = Some next
       /\ s_episode next = n_episode (getNextSceneNumber index cursorLine))
   \/ (cursorBeforeEveryScene index cursorLine
       /\ exists first, firstScene index = Some first /\ s_scene first = 1)).

(** A scene record with the given number and line (other fields blank). *)
Definition sceneAt (episode scene line : Z) : SceneInfo :=
  {| s_episode := episode; s_scene := scene; s_line := line;
     s_time := []; s_locationType := []; s_location := [];
     s_characters := []; s_tags := []; s_wordCount := 0;
     s_isFlashback := false |}.

Definition indexOf (l : list SceneInfo) : SceneIndex :=
  {| i_scenes := l; i_episodeCount := 0; i_lastUpdated := 0; i_contentHash := [] |}.

(** The index of the cross-episode example: scene 1-3 at line 0 and scene
    2-1 at line 10. *)
Definition boundaryIndex : SceneIndex :=
  indexOf [sceneAt 1 3 0; sceneAt 2 1 10].

(** The index object a call of [parseDocument] without a previous index
    returns, on a service just constructed. *)
Definition parsedIndex (now : Z) (content : str) : option SceneIndex :=
  let '(h, this) := newService 0 in
  let '(r, h', _) := parseDocument now content None h this in
  deref h' r.

(** The two parts of the data-model invariant. *)
Definition sortedByLine (l : list SceneInfo) : Prop :=
  StronglySorted Z.lt (map s_line l).

Definition uniqueNumbers (l : list SceneInfo) : Prop :=
  NoDup (map (fun s => (s_episode s, s_scene s)) l).

Definition indexInvariant (index : SceneIndex) : Prop :=
  sortedByLine (i_scenes index) /\ uniqueNumbers (i_scenes index).

(** A document with the same header twice:
    [1-1 日 内 a] and, on the next line, [1-1 日 内 b]. *)
Definition twiceTheSameNumber : str :=
  [49; 45; 49; 32; 26085; 32; 20869; 32; 97; 10;
   49; 45; 49; 32; 26085; 32; 20869; 32; 98]%N.

(** The lines of the scenes found so far are ascending and below the line
    the scan has reached. *)
Definition ascendingBelow (bound : Z) (l : list Z) : Prop :=
  StronglySorted Z.lt l /\ Forall (fun x => x < bound) l.

(** Every index object of a store has its scenes sorted by line. *)
Definition storeSorted (h : store) : Prop :=
  Forall (fun index => sortedByLine (i_scenes index)) h.

(** The line [张三（笑）：你好世界] and its parts. *)
Definition text_ZhangSan : str := [24352; 19977]%N.              (* 张三 *)
Definition text_Xiao : str := [31505]%N.                          (* 笑 *)
Definition text_NiHaoShiJie : str := [20320; 22909; 19990; 30028]%N. (* 你好世界 *)
Definition text_NiHao : str := [20320; 22909]%N.                  (* 你好 *)

Definition emotionLine : str :=
  text_ZhangSan ++ [c_LPAR] ++ text_Xiao ++ [c_RPAR; c_FCOLON] ++ text_NiHaoShiJie.

(** Names that are there to be read: some character is not white space. *)
Definition hasVisible (s : str) : Prop :=
  Exists (fun c => isWhiteSpace c = false) s.

(** An emotion-dialogue line: the name, the emotion between full-width
    parentheses, a full-width colon and the content. *)
Definition emotionDialogue (name emotion content : str) : str :=
  name ++ [c_LPAR] ++ emotion ++ [c_RPAR; c_FCOLON] ++ content.

(** The tests of the loop of [countContentWords] that come before the
    dialogue patterns, on the trimmed line: the lines it skips. *)
Definition skippedLine (trimmedLine : str) : bool :=
  isEmpty trimmedLine
  || test SCENE_NUMBER_REGEX trimmedLine
  || JS.startsWith StatsService.CHARACTER_PREFIX trimmedLine
  || (str_eqb trimmedLine FLASHBACK_START || str_eqb trimmedLine FLASHBACK_END)
  || JS.startsWith StatsService.TAG_PREFIX trimmedLine
  || str_eqb trimmedLine StatsService.SEPARATOR
  || JS.startsWith [c_HASH] trimmedLine.

(** What a speaker's name starts with, for the line not to be taken for a
    structural one: a visible character that is none of a digit (scene
    numbers), 人 (character lists), 【 (flashback markers and tags) and #
    (titles). *)
Definition nameStart (x : char) : Prop :=
  isWhiteSpace x = false /\ isDigit x = false
  /\ x <> c_REN /\ x <> c_LBR /\ x <> c_HASH.

(** The line classifier in the words of the specification: the rules in
    their fixed priority order, first match wins.  The episode-header and
    character-list tests are those of the exporter at hand. *)
Definition priorityRules (episodeHeader characterList : str -> bool)
  : list ((str -> bool) * LineType) :=
  [ (isEmpty, Empty);
    ((fun t => str_eqb t FLASHBACK_START), FlashbackStart);
    ((fun t => str_eqb t FLASHBACK_END), FlashbackEnd);
    (episodeHeader, EpisodeHeader);
    (test SCENE_HEADER_REGEX, SceneHeader);
    (characterList, CharacterList);
    (test ACTION_REGEX, Action);
    (test DIALOGUE_REGEX, Dialogue);
    (test SIMPLE_DIALOGUE_REGEX, SimpleDialogue) ].

Fixpoint firstMatch (rules : list ((str -> bool) * LineType)) (t : str)
  : LineType :=
  match rules with
  | [] => Other
  | (applies, kind) :: rest => if applies t then kind else firstMatch rest t
  end.

Definition wordRules : list ((str -> bool) * LineType) :=
  priorityRules (test WordExporter.EPISODE_HEADER_REGEX)
    (fun t => test WordExporter.CHARACTER_LABEL_REGEX t
              || test CHARACTER_LIST_REGEX t).

Definition pdfRules : list ((str -> bool) * LineType) :=
  priorityRules (test PDFExporter.EPISODE_HEADER_REGEX)
    (test CHARACTER_LIST_REGEX).

(** The lines [张三（笑）：你好], [△ 张三：你好] and [# 第1集：你好]. *)
Definition emotionGreeting : str :=
  text_ZhangSan ++ [c_LPAR] ++ text_Xiao ++ [c_RPAR; c_FCOLON] ++ text_NiHao.

Definition actionWithColon : str :=
  [c_TRI; c_SP] ++ text_ZhangSan ++ [c_FCOLON] ++ text_NiHao.

Definition episodeTitleWithColon : str :=
  [c_HASH; c_SP; c_DI; 49%N; c_JI; c_FCOLON] ++ text_NiHao.

(** [format(h)]: the header line written for [h]. *)
Definition formatHeader (h : ParsedSceneHeader) : str :=
  generateSceneHeaderTemplate
    {| n_episode := h_episode h; n_scene := h_scene h |}
    (h_time h) (h_locationType h) (h_location h).

(** The headers of the round-trip property as the specification words it:
    numbers at least 1, any time, one of the two location kinds, a location
    without newline. *)
Definition claimedHeader (h : ParsedSceneHeader) : Prop :=
  1 <= h_episode h /\ 1 <= h_scene h
  /\ In (h_locationType h) LOCATION_TYPES
  /\ ~ In c_NL (h_location h).

Definition roundTrips (h : ParsedSceneHeader) : Prop :=
  parseSceneHeader (formatHeader h) = Some h.

(** The numbers a template literal prints in plain decimal notation:
    the non-negative integer doubles below [10^21]. *)
Definition plainNumber (n : Z) : Prop :=
  0 <= n < 10 ^ 21 /\ JS.isDouble n.

(** The headers that do round-trip: the numbers are moreover doubles below
    [10^21], the time is one visible word, and the location is not empty,
    has no line terminator and neither starts nor ends with white space. *)
Definition printableHeader (h : ParsedSceneHeader) : Prop :=
  1 <= h_episode h /\ 1 <= h_scene h
  /\ plainNumber (h_episode h) /\ plainNumber (h_scene h)
  /\ h_time h <> [] /\ allIn NonSpace (h_time h)
  /\ In (h_locationType h) LOCATION_TYPES
  /\ h_location h <> [] /\ allIn Dot (h_location h) /\ trimmed (h_location h).

Definition header (episode scene : Z) (time locationType location : str)
  : ParsedSceneHeader :=
  {| h_episode := episode; h_scene := scene; h_time := time;
     h_locationType := locationType; h_location := location |}.

(** ** src/services/SceneService.ts: templates, queries and reset *)

(** [array.sort(compare)]: the sort is stable, so with a comparator that
    orders its arguments consistently the result is the one stable
    insertion computes. *)
Fixpoint sortInsert (A : Type) (compare : A -> A -> Z) (x : A) (l : list A)
  : list A :=
  match l with
  | [] => [x]
  | y :: l' =>
      if compare y x <=? 0 then y :: sortInsert compare x l' else x :: l
  end.

Definition sortBy (A : Type) (compare : A -> A -> Z) (l : list A) : list A :=
  fold_left (fun sorted x => sortInsert compare x sorted) l [].

(** [set.add(x)] on a [Set] of numbers, kept in insertion order. *)
Definition setAdd (x : Z) (set : list Z) : list Z :=
  if existsb (Z.eqb x) set then set else set ++ [x].

Definition generateCharacterListTemplate : str := [c_REN; c_WU; c_FCOLON]. (* 人物： *)

Definition generateSceneContent (sceneNumber : SceneNumber)
    (time locationType location : str) : str :=
  let header := generateSceneHeaderTemplate sceneNumber time locationType location in
  let characterList := generateCharacterListTemplate in
  header ++ [c_NL] ++ characterList ++ [c_NL].

Definition getScenesForEpisode (index : SceneIndex) (episode : Z)
  : list SceneInfo :=
  filter (fun scene => s_episode scene =? episode) (i_scenes index).

Definition getEpisodes (index : SceneIndex) : list Z :=
  let episodes :=
    fold_left (fun episodes scene => setAdd (s_episode scene) episodes)
              (i_scenes index) [] in
  sortBy (fun a b => a - b) episodes.

(** The loop of [getSceneAtLine]: keep the last scene at or before the
    line, stop at the first scene after it. *)
Fixpoint sceneAtLineLoop (scenes : list SceneInfo) (line : Z)
    (result : option SceneInfo) : option SceneInfo :=
  match scenes with
  | [] => result
  | scene :: rest =>
      if s_line scene <=? line then sceneAtLineLoop rest line (Some scene)
      else result
  end.

Definition getSceneAtLine (index : SceneIndex) (line : Z) : option SceneInfo :=
  sceneAtLineLoop (i_scenes index) line None.

(** [needsReparse(content)] and [reset()], on the service and its store.
    (A service whose reference is not in the store cannot be written in
    the source; the model says such a service needs a reparse.) *)
Definition needsReparse (content : str) (h : store) (this : SceneService) : bool :=
  match deref h (index this) with
  | Some current => negb (str_eqb (i_contentHash current) (calculateHash content))
  | None => true
  end.

Definition reset (now : Z) (h : store) (this : SceneService)
  : store * SceneService :=
  let '(r, h') := alloc h (createEmptyIndex now) in
  (h', {| index := r |}).

(** The header lines of a document with their line numbers. *)
Fixpoint headerLines (lineIndex : Z) (lines : list str)
  : list (Z * ParsedSceneHeader) :=
  match lines with
  | [] => []
  | line :: rest =>
      match parseSceneHeader line with
      | Some h => (lineIndex, h) :: headerLines (lineIndex + 1) rest
      | None => headerLines (lineIndex + 1) rest
      end
  end.

(** The line and the header fields of a scene record. *)
Definition sceneHeaderOf (s : SceneInfo) : Z * ParsedSceneHeader :=
  (s_line s,
   {| h_episode := s_episode s; h_scene := s_scene s; h_time := s_time s;
      h_locationType := s_locationType s; h_location := s_location s |}).

(** The layout of a header line: numeral, dash, numeral, white space, a
    visible word, white space, a location kind, white space, and a location
    that starts and ends with a visible character and holds no line
    terminator.  The numbers of the header are what [parseInt] makes of the
    numerals. *)
Definition headerLayout (t : str) (h : ParsedSceneHeader) : Prop :=
  exists d1 d2 w1 w2 w3,
    t = d1 ++ [c_DASH] ++ d2 ++ w1 ++ h_time h ++ w2
           ++ h_locationType h ++ w3 ++ h_location h
    /\ isNumeral d1 /\ isNumeral d2
    /\ h_episode h = JS.parseInt d1 /\ h_scene h = JS.parseInt d2
    /\ (w1 <> [] /\ allIn Space w1)
    /\ (h_time h <> [] /\ allIn NonSpace (h_time h))
    /\ (w2 <> [] /\ allIn Space w2)
    /\ In (h_locationType h) LOCATION_TYPES
    /\ (w3 <> [] /\ allIn Space w3)
    /\ (h_location h <> [] /\ allIn Dot (h_location h) /\ trimmed (h_location h)).

(** ** src/services/StatsService.ts: cache, dialogue and statistics *)

(** [class LRUCache<K, V>], with the string keys the service uses.  The
    [Map] it wraps keeps its entries in insertion order, no key twice;
    [set] on a key that is present keeps the key's place. *)
Module LRUCache.
Section Cache.
Variable V : Type.

Definition mapHas (key : str) (m : list (str * V)) : bool :=
  existsb (fun entry => str_eqb (fst entry) key) m.

Fixpoint mapGet (key : str) (m : list (str * V)) : option V :=
  match m with
  | [] => None
  | (k, v) :: m' => if str_eqb k key then Some v else mapGet key m'
  end.

Definition mapDelete (key : str) (m : list (str * V)) : list (str * V) :=
  filter (fun entry => negb (str_eqb (fst entry) key)) m.

Fixpoint mapSet (key : str) (value : V) (m : list (str * V)) : list (str * V) :=
  match m with
  | [] => [(key, value)]
  | (k, v) :: m' =>
      if str_eqb k key then (k, value) :: m' else (k, v) :: mapSet key value m'
  end.

Record t : Type := mk {
  maxSize : Z;
  cache : list (str * V)
}.

Definition new (maxSize : Z) : t := {| maxSize := maxSize; cache := [] |}.

(** [get(key)]: the value, and the cache with the entry moved to the end. *)
Definition get (key : str) (this : t) : option V * t :=
  if negb (mapHas key (cache this)) then (None, this)
  else
    match mapGet key (cache this) with
    | Some value =>
        (Some value,
         {| maxSize := maxSize this;
            cache := mapSet key value (mapDelete key (cache this)) |})
    | None => (None, this)
    end.

Definition set (key : str) (value : V) (this : t) : t :=
  let cache' :=
    if mapHas key (cache this) then mapDelete key (cache this)
    else if Z.of_nat (length (cache this)) >=? maxSize this then
      match cache this with
      | (firstKey, _) :: _ => mapDelete firstKey (cache this)
      | [] => cache this
      end
    else cache this in
  {| maxSize := maxSize this; cache := mapSet key value cache' |}.

Definition has (key : str) (this : t) : bool := mapHas key (cache this).

Definition clear (this : t) : t := {| maxSize := maxSize this; cache := [] |}.

Definition size (this : t) : Z := Z.of_nat (length (cache this)).

End Cache.
End LRUCache.

Record ParsedDialogue : Type := mkDialogue {
  d_characterName : str;
  d_emotion : option str;
  d_content : str;
  d_wordCount : Z
}.

Definition parseDialogue (line : str) : option ParsedDialogue :=
  let trimmedLine := JS.trim line in
  match exec DIALOGUE_REGEX trimmedLine with
  | Some dialogueMatch =>
      Some {| d_characterName := at_ dialogueMatch 1;
              d_emotion := Some (at_ dialogueMatch 2);
              d_content := at_ dialogueMatch 3;
              d_wordCount := StatsService.countWords (at_ dialogueMatch 3) |}
  | None =>
      match exec SIMPLE_DIALOGUE_REGEX trimmedLine with
      | Some simpleMatch =>
          Some {| d_characterName := at_ simpleMatch 1;
                  d_emotion := None;
                  d_content := at_ simpleMatch 2;
                  d_wordCount := StatsService.countWords (at_ simpleMatch 2) |}
      | None => None
      end
  end.

Record EpisodeStats : Type := mkEpisodeStats {
  e_episode : Z;
  e_wordCount : Z;
  e_sceneCount : Z;
  e_estimatedDuration : Q
}.

Record CharacterStats : Type := mkCharacterStats {
  cs_name : str;
  cs_sceneCount : Z;
  cs_dialogueCount : Z;
  cs_dialogueWordCount : Z;
  cs_scenes : list Z
}.

(** The totals and the average below are written in exact arithmetic.
    The code adds and divides doubles, which gives the same as long as the
    word counts and the scene counts are not negative and their sums stay
    below 2^53 (the length of a text is below that bound); the properties
    that need it carry the bound. *)
Definition getTotalWordCount (episodeStats : list EpisodeStats) : Z :=
  fold_left (fun sum ep => sum + e_wordCount ep) episodeStats 0.

Definition getTotalDuration (episodeStats : list EpisodeStats) : Q :=
  fold_left (fun sum ep => (sum + e_estimatedDuration ep)%Q) episodeStats 0%Q.

(** [a < b] on numbers. *)
Definition Qltb (a b : Q) : bool := negb (Qle_bool b a).

Definition getLowAppearanceCharacters (characterStats : list CharacterStats)
  : list str :=
  match characterStats with
  | [] => []
  | _ :: _ =>
      let totalScenes :=
        fold_left (fun sum c => sum + cs_sceneCount c) characterStats 0 in
      let avgScenes :=
        (inject_Z totalScenes / inject_Z (Z.of_nat (length characterStats)))%Q in
      let threshold := (avgScenes / 2)%Q in
      map cs_name
          (filter (fun c => Qltb (inject_Z (cs_sceneCount c)) threshold)
                  characterStats)
  end.

(** [array.slice(start, end)]: a negative index counts from the end, and
    both are clamped to the array. *)
Definition sliceIndex (A : Type) (i : Z) (l : list A) : nat :=
  let n := Z.of_nat (length l) in
  Z.to_nat (if i <? 0 then Z.max (n + i) 0 else Z.min i n).

Definition slice (A : Type) (start end_ : Z) (l : list A) : list A :=
  let from := sliceIndex start l in
  let to := sliceIndex end_ l in
  firstn (to - from) (skipn from l).

Definition calculateSceneWordCount (content : str) (scene : SceneInfo)
    (nextSceneLine : Z) : Z :=
  let lines := JS.split c_NL content in
  let sceneContent := JS.join [c_NL] (slice (s_line scene) nextSceneLine lines) in
  StatsService.countContentWords sceneContent.

Definition calculateSceneDuration (content : str) (scene : SceneInfo)
    (nextSceneLine : Z) : Q :=
  StatsService.estimateDuration (calculateSceneWordCount content scene nextSceneLine).

(** Calls on a cache, to speak of what holds after any sequence of them;
    the entries of a well-formed [Map] have distinct keys. *)
Inductive cacheCall (V : Type) : Type :=
| CallGet (key : str)
| CallSet (key : str) (value : V)
| CallClear.

Definition perform (V : Type) (this : LRUCache.t V) (c : cacheCall V)
  : LRUCache.t V :=
  match c with
  | CallGet _ key => snd (LRUCache.get key this)
  | CallSet key value => LRUCache.set key value this
  | CallClear _ => LRUCache.clear this
  end.

Definition distinctKeys (V : Type) (this : LRUCache.t V) : Prop :=
  NoDup (map fst (LRUCache.cache this)).

(** [c] is a substring of [s]. *)
Definition substringOf (c s : str) : Prop := exists a b, s = a ++ c ++ b.

(** ** The editor extensions *)

(** [s.indexOf(c)] for a one-character string [c]: the first index, or -1. *)
Fixpoint indexOfFrom (c : char) (s : str) (i : Z) : Z :=
  match s with
  | [] => -1
  | x :: s' => if (x =? c)%N then i else indexOfFrom c s' (i + 1)
  end.

Definition indexOf_ (c : char) (s : str) : Z := indexOfFrom c s 0.

(** [s.endsWith(p)] *)
Definition endsWith (p s : str) : bool := JS.startsWith (rev p) (rev s).

(** [s.substring(0, n)]: [n] is clamped to the string. *)
Definition substringTo (n : Z) (s : str) : str := firstn (Z.to_nat n) s.

(** The smart Enter key: the line tests and [shouldInsertTriangle]. *)
Definition lineStartsWithTriangle (line : str) : bool :=
  JS.startsWith [c_TRI] (JS.trimStart line).

Definition isDialogueLine (line : str) : bool :=
  let trimmed := JS.trim line in
  let colonIndex := indexOf_ c_FCOLON trimmed in
  colonIndex >? 0.

(** [/^\d+-\d+\s+/] *)
Definition sceneHeaderRegex : regex :=
  Seq (Plus Digit) (Seq (Lit [c_DASH]) (Seq (Plus Digit) (Plus Space))).

Definition isSceneHeaderLine (line : str) : bool :=
  test sceneHeaderRegex (JS.trim line).

Definition isCharacterListLine (line : str) : bool :=
  JS.startsWith [c_REN; c_SP] (JS.trim line).

Definition isSpecialMarkerLine (line : str) : bool :=
  let trimmed := JS.trim line in
  JS.startsWith [c_LBR] trimmed && endsWith [c_RBR] trimmed.

Definition isEmptyLine (line : str) : bool := isEmpty (JS.trim line).

Definition shouldInsertTriangle (currentLine : str) : bool :=
  if isEmptyLine currentLine then false
  else if lineStartsWithTriangle currentLine then false
  else if isSceneHeaderLine currentLine then false
  else if isCharacterListLine currentLine then true
  else if isSpecialMarkerLine currentLine then false
  else if isDialogueLine currentLine then true
  else true.

(** The character popup: [/^△\s*$/] and [shouldTriggerCharacterPopup]. *)
Definition triangleOnlyRegex : regex :=
  Seq (Lit [c_TRI]) (Seq (Star Space) Eol).

Definition shouldTriggerCharacterPopup (lineText : str) (posInLine : Z) : bool :=
  let textBefore := substringTo posInLine lineText in
  if isEmpty (JS.trim textBefore) then true
  else
    let trimmedBefore := JS.trimEnd textBefore in
    if str_eqb trimmedBefore [c_TRI] || endsWith [c_TRI] trimmedBefore then true
    else if test triangleOnlyRegex textBefore then true
    else false.

(** *** calculateEpisodeStats *)

(** The cache holds values of both kinds, [EpisodeStats[] | CharacterStats[]];
    the casts of the source are erased when it runs. *)
Inductive StatsValue : Type :=
| EpisodeStatsArray (result : list EpisodeStats)
| CharacterStatsArray (result : list CharacterStats).

Record StatsServiceState : Type := mkStats {
  st_cache : LRUCache.t StatsValue;
  st_lastContentHash : str
}.

(** [new StatsService(cacheSize)] *)
Definition newStatsService (cacheSize : Z) : StatsServiceState :=
  {| st_cache := LRUCache.new StatsValue cacheSize; st_lastContentHash := [] |}.

Definition invalidateCache (this : StatsServiceState) : StatsServiceState :=
  {| st_cache := LRUCache.clear (st_cache this); st_lastContentHash := [] |}.

Definition getCacheSize (this : StatsServiceState) : Z :=
  LRUCache.size (st_cache this).

(** The key prefix [episode:]. *)
Definition EPISODE_KEY : str := [101; 112; 105; 115; 111; 100; 101; 58]%N.

(** [const episodeScenes = episodeMap.get(scene.episode) || [];
     episodeScenes.push(scene); episodeMap.set(scene.episode, episodeScenes)]
    on a [Map] kept in insertion order. *)
Fixpoint groupAdd (scene : SceneInfo) (episodeMap : list (Z * list SceneInfo))
  : list (Z * list SceneInfo) :=
  match episodeMap with
  | [] => [(s_episode scene, [scene])]
  | (episode, episodeScenes) :: rest =>
      if episode =? s_episode scene
      then (episode, episodeScenes ++ [scene]) :: rest
      else (episode, episodeScenes) :: groupAdd scene rest
  end.

(** The loop over [sortedScenes] that adds up [episodeWordCount]; the
    scenes after index [i] are [rest]. *)
Fixpoint episodeWords (scenes : list SceneInfo) (lines : list str) (episode : Z)
    (sortedScenes : list SceneInfo) (episodeWordCount : Z) : Z :=
  match sortedScenes with
  | [] => episodeWordCount
  | scene :: rest =>
      let startLine := s_line scene in
      let endLine :=
        match rest with
        | next :: _ => s_line next
        | [] =>
            match find (fun s => (s_episode s >? episode) && (s_line s >? s_line scene))
                       scenes with
            | Some nextEpisodeScene => s_line nextEpisodeScene
            | None => Z.of_nat (length lines)
            end
        end in
      let sceneContent := JS.join [c_NL] (slice startLine endLine lines) in
      episodeWords scenes lines episode rest
                   (episodeWordCount + StatsService.countContentWords sceneContent)
  end.

Definition episodeEntry (scenes : list SceneInfo) (lines : list str)
    (entry : Z * list SceneInfo) : EpisodeStats :=
  let '(episode, episodeScenes) := entry in
  let sortedScenes := sortBy (fun a b => s_line a - s_line b) episodeScenes in
  let episodeWordCount := episodeWords scenes lines episode sortedScenes 0 in
  {| e_episode := episode;
     e_wordCount := episodeWordCount;
     e_sceneCount := Z.of_nat (length sortedScenes);
     e_estimatedDuration := StatsService.estimateDuration episodeWordCount |}.

(** What [calculateEpisodeStats] computes when the cache has no entry. *)
Definition computeEpisodeStats (content : str) (index : SceneIndex)
  : list EpisodeStats :=
  let scenes := i_scenes index in
  match scenes with
  | [] => []
  | _ :: _ =>
      let episodeMap := fold_left (fun m scene => groupAdd scene m) scenes [] in
      let lines := JS.split c_NL content in
      let result := map (episodeEntry scenes lines) episodeMap in
      sortBy (fun a b => e_episode a - e_episode b) result
  end.

(** [calculateEpisodeStats(content, index)]: the value returned and the
    service afterwards.  ([if (cached)]: an array, even an empty one, is
    truthy.) *)
Definition calculateEpisodeStats (content : str) (index : SceneIndex)
    (this : StatsServiceState) : StatsValue * StatsServiceState :=
  let cacheKey := EPISODE_KEY ++ i_contentHash index in
  let '(cached, cache1) := LRUCache.get cacheKey (st_cache this) in
  match cached with
  | Some value =>
      (value, {| st_cache := cache1; st_lastContentHash := st_lastContentHash this |})
  | None =>
      let result := EpisodeStatsArray (computeEpisodeStats content index) in
      (result,
       {| st_cache := LRUCache.set cacheKey result cache1;
          st_lastContentHash := st_lastContentHash this |})
  end.

(** Episode numbers that never go down along the scenes. *)
Definition episodesAscend (scenes : list SceneInfo) : Prop :=
  Sorted Z.le (map s_episode scenes).

(** The content words of the lines from [startLine] up to [endLine], and
    the sum of a quantity over a list of episodes. *)
Definition rangeWords (lines : list str) (startLine endLine : Z) : Z :=
  StatsService.countContentWords (JS.join [c_NL] (slice startLine endLine lines)).

Definition sumOver (F : Z -> Z) (episodes : list Z) : Z :=
  fold_right (fun k total => F k + total) 0 episodes.

(** The word count [calculateEpisodeStats] finds for one episode. *)
Definition episodeTotal (scenes : list SceneInfo) (lines : list str) (k : Z) : Z :=
  e_wordCount
    (episodeEntry scenes lines (k, filter (fun s => s_episode s =? k) scenes)).



(** * Properties *)

(** ** Facts about the matcher *)

Section MatcherFacts.
Variable A : Type.
Implicit Types (k : str -> option A) (s w rest : str).

Lemma star_greedy c w rest k a :
  allIn c w -> stops c rest -> k rest = Some a ->
  star c (w ++ rest) k = Some a.
Proof.
  intros Hall Hstop Hk. induction Hall as [|x w Hx _ IH]; simpl.
  - destruct rest as [|y rest']; simpl in *; auto.
    now rewrite Hstop.
  - now rewrite Hx, IH.
Qed.

Lemma star_sound c s k a :
  star c s k = Some a ->
  exists w rest, s = w ++ rest /\ allIn c w /\ k rest = Some a.
Proof.
  induction s as [|x s IH]; simpl; intros H.
  - exists [], []. repeat split; auto. constructor.
  - destruct (mem c x) eqn:Hx.
    + destruct (star c s k) as [a'|] eqn:Hs.
      * inversion H; subst a'. destruct (IH eq_refl) as (w & rest & -> & Hw & Hk).
        exists (x :: w), rest. repeat split; auto. now constructor.
      * exists [], (x :: s). repeat split; auto. constructor.
    + exists [], (x :: s). repeat split; auto. constructor.
Qed.

Lemma lazy_sound c s k a :
  lazy c s k = Some a ->
  exists w rest, s = w ++ rest /\ allIn c w /\ k rest = Some a.
Proof.
  induction s as [|x s IH]; simpl; intros H.
  - destruct (k []) eqn:Hk; [|discriminate]. inversion H; subst.
    exists [], []. repeat split; auto. constructor.
  - destruct (k (x :: s)) eqn:Hk.
    + inversion H; subst.
      exists [], (x :: s). repeat split; auto. constructor.
    + destruct (mem c x) eqn:Hx; [|discriminate].
      destruct (IH H) as (w & rest & -> & Hw & Hk').
      exists (x :: w), rest. repeat split; auto. now constructor.
Qed.

Lemma lit_app l rest k : lit l (l ++ rest) k = k rest.
Proof.
  induction l as [|x l IH]; simpl.
  - now destruct rest.
  - now rewrite N.eqb_refl.
Qed.

Lemma lit_sound l s k a :
  lit l s k = Some a -> exists rest, s = l ++ rest /\ k rest = Some a.
Proof.
  revert s. induction l as [|x l IH]; intros s H.
  - exists s. now destruct s.
  - destruct s as [|y s]; simpl in H; [discriminate|].
    destruct (N.eqb_spec x y) as [->|]; [|discriminate].
    destruct (IH _ H) as (rest & -> & Hk). now exists rest.
Qed.

End MatcherFacts.

Lemma plus_greedy (A : Type) c w rest (k : str -> option A) a :
  w <> [] -> allIn c w -> stops c rest -> k rest = Some a ->
  run (Plus c) (w ++ rest) k = Some ([], a).
Proof.
  intros Hne Hall Hstop Hk. destruct w as [|x w]; [congruence|].
  inversion Hall as [|? ? Hx Hw]; subst. simpl. rewrite Hx.
  apply star_greedy; auto. now rewrite Hk.
Qed.

Lemma plus_stops (A : Type) c s (k : str -> option A) :
  s <> [] -> stops c s -> run (Plus c) s k = None.
Proof.
  destruct s as [|x s]; [congruence|]. simpl. now intros _ ->.
Qed.

Lemma consumed_app (w rest : str) : consumed (w ++ rest) rest = w.
Proof.
  unfold consumed. rewrite length_app, Nat.add_sub.
  rewrite firstn_app, Nat.sub_diag, firstn_all. simpl. apply app_nil_r.
Qed.

Lemma matches_suffix r s s' cs : matches r s s' cs -> exists w, s = w ++ s'.
Proof.
  induction 1; try (eexists; reflexivity); auto.
  - now exists [x].
  - destruct IHmatches1 as [w1 ->], IHmatches2 as [w2 ->].
    exists (w1 ++ w2). now rewrite app_assoc.
  - now exists [].
Qed.

Lemma run_sound (r : regex) :
  forall (A : Type) (s : str) (k : str -> option A) cs a,
    run r s k = Some (cs, a) ->
    exists s', matches r s s' cs /\ k s' = Some a.
Proof.
  induction r as [l|c|r1 IH1 r2 IH2|r1 IH1 r2 IH2|c|c|c|r1 IH1|];
    intros A s k cs a H; simpl in H.
  - apply lit_sound in H. destruct H as (rest & -> & Hk).
    destruct (k rest) eqn:E; inversion Hk; subst. exists rest. split; auto. constructor.
  - destruct s as [|x s]; [discriminate|]. destruct (mem c x) eqn:Hx; [|discriminate].
    destruct (k s) eqn:E; inversion H; subst. exists s. split; auto. now constructor.
  - destruct (run r1 s (fun s' => run r2 s' k)) as [[c1 [c2 a']]|] eqn:E; inversion H; subst.
    apply IH1 in E. destruct E as (s1 & M1 & E1). apply IH2 in E1.
    destruct E1 as (s2 & M2 & E2). exists s2. split; auto. econstructor; eauto.
  - destruct (run r1 s k) as [res|] eqn:E.
    + inversion H; subst. apply IH1 in E. destruct E as (s' & M & E1).
      exists s'. split; auto. now apply M_AltL.
    + apply IH2 in H. destruct H as (s' & M & E1).
      exists s'. split; auto. now apply M_AltR.
  - apply star_sound in H. destruct H as (w & rest & -> & Hw & Hk).
    destruct (k rest) eqn:E; inversion Hk; subst. exists rest. split; auto. now constructor.
  - destruct s as [|x s]; [discriminate|]. destruct (mem c x) eqn:Hx; [|discriminate].
    apply star_sound in H. destruct H as (w & rest & -> & Hw & Hk).
    destruct (k rest) eqn:E; inversion Hk; subst. exists rest. split; auto.
    apply (@M_Plus c (x :: w) rest); [discriminate|now constructor].
  - destruct s as [|x s]; [discriminate|]. destruct (mem c x) eqn:Hx; [|discriminate].
    apply lazy_sound in H. destruct H as (w & rest & -> & Hw & Hk).
    destruct (k rest) eqn:E; inversion Hk; subst. exists rest. split; auto.
    apply (@M_PlusLazy c (x :: w) rest); [discriminate|now constructor].
  - destruct (run r1 s (fun s' => option_map (pair s') (k s'))) as [[c1 [s1 a']]|] eqn:E;
      inversion H; subst.
    apply IH1 in E. destruct E as (s' & M & E1).
    destruct (k s') eqn:E'; inversion E1; subst.
    exists s1. split; auto. destruct (matches_suffix M) as [w ->].
    rewrite consumed_app. now constructor.
  - destruct s; [|discriminate]. destruct (k []) eqn:E; inversion H; subst.
    exists []. split; auto. constructor.
Qed.

(** The fuel [execAll] starts with is enough: more fuel finds the same
    matches, since every round moves on by at least one character. *)
Lemma execAllFuel_enough r fuel :
  forall s fuel',
    (length s < fuel)%nat -> (length s < fuel')%nat ->
    execAllFuel fuel r s = execAllFuel fuel' r s.
Proof.
  induction fuel as [|f IH]; intros s fuel' H H'; [lia|].
  destruct fuel' as [|f']; [lia|]. destruct s as [|c s']; [reflexivity|].
  cbn [execAllFuel]. cbn [length] in H, H'.
  destruct (run r (c :: s') (fun rest => Some rest)) as [[caps rest]|].
  - f_equal. destruct (Nat.ltb_spec (length rest) (length (c :: s'))) as [L|L].
    + cbn [length] in L. apply IH; lia.
    + apply IH; lia.
  - apply IH; lia.
Qed.

(** ** Facts about the string primitives *)

Lemma dropWhile_stops p s :
  match s with [] => True | c :: _ => p c = false end -> JS.dropWhile p s = s.
Proof. destruct s as [|c s]; simpl; auto. now intros ->. Qed.

Lemma dropWhile_split p s :
  exists w, s = w ++ JS.dropWhile p s /\ Forall (fun c => p c = true) w
            /\ match JS.dropWhile p s with [] => True | c :: _ => p c = false end.
Proof.
  induction s as [|c s (w & E & Hw & Hs)]; simpl.
  - exists []. repeat split; auto.
  - destruct (p c) eqn:Hc.
    + exists (c :: w). repeat split; auto. simpl. now rewrite <- E.
    + exists []. repeat split; auto.
Qed.

Lemma dropWhile_app_all p w s :
  Forall (fun c => p c = true) w -> JS.dropWhile p (w ++ s) = JS.dropWhile p s.
Proof. induction 1 as [|c w Hc _ IH]; simpl; auto. now rewrite Hc. Qed.

Lemma trim_trimmed s : trimmed (JS.trim s).
Proof.
  unfold JS.trim, JS.trimEnd, JS.trimStart, trimmed.
  set (t := JS.dropWhile isWhiteSpace s).
  assert (Ht : stops Space t).
  { unfold t. destruct (dropWhile_split isWhiteSpace s) as (w & _ & _ & H).
    destruct (JS.dropWhile isWhiteSpace s); simpl in *; auto. }
  destruct (dropWhile_split isWhiteSpace (rev t)) as (w & E & Hw & H).
  split.
  - assert (Et : t = rev (JS.dropWhile isWhiteSpace (rev t)) ++ rev w).
    { rewrite <- rev_app_distr, <- E. now rewrite rev_involutive. }
    destruct (rev (JS.dropWhile isWhiteSpace (rev t))) as [|c u]; simpl; auto.
    rewrite Et in Ht. exact Ht.
  - rewrite rev_involutive.
    destruct (JS.dropWhile isWhiteSpace (rev t)); simpl in *; auto.
Qed.

Lemma trim_of_trimmed s : trimmed s -> JS.trim s = s.
Proof.
  intros [H1 H2]. unfold JS.trim, JS.trimEnd, JS.trimStart.
  rewrite (dropWhile_stops isWhiteSpace s).
  - rewrite (dropWhile_stops isWhiteSpace (rev s)); [apply rev_involutive|].
    destruct (rev s); simpl in *; auto.
  - destruct s; simpl in *; auto.
Qed.

Lemma trim_idempotent s : JS.trim (JS.trim s) = JS.trim s.
Proof. apply trim_of_trimmed, trim_trimmed. Qed.

(** A string that ends like a trimmed one is not shortened on the right. *)
Lemma trimEnd_keeps a s :
  s <> [] -> stops Space (rev s) -> JS.trimEnd (a ++ s) = a ++ s.
Proof.
  intros Hne H. unfold JS.trimEnd. rewrite rev_app_distr.
  rewrite dropWhile_stops.
  - now rewrite <- rev_app_distr, rev_involutive.
  - destruct (rev s) as [|c u] eqn:E; simpl in *; auto.
    apply (f_equal (@rev _)) in E. rewrite rev_involutive in E. now subst.
Qed.

Lemma trimmed_app a s :
  a <> [] -> stops Space a -> s <> [] -> stops Space (rev s) -> trimmed (a ++ s).
Proof.
  intros Ha H1 Hs H2. split.
  - destruct a; simpl in *; [congruence|auto].
  - rewrite rev_app_distr. destruct (rev s) as [|c u] eqn:E; simpl in *; auto.
    apply (f_equal (@rev _)) in E. rewrite rev_involutive in E. now subst.
Qed.

(** Decimal printing and reading. *)
Lemma parseDigits_app d rest acc :
  allIn Digit d -> JS.parseDigits acc (d ++ rest) = JS.parseDigits (JS.parseDigits acc d) rest.
Proof.
  intros H. revert acc.
  induction H as [|c d Hc _ IH]; intros acc; cbn [JS.parseDigits app]; auto.
  cbn [mem] in Hc. now rewrite Hc, IH.
Qed.

Lemma digitsFuel_spec fuel :
  forall n acc, (n < 2 ^ N.of_nat fuel)%N -> (0 < fuel)%nat ->
    exists d, JS.digitsFuel fuel n acc = d ++ acc /\ isNumeral d
              /\ JS.parseDigits 0 d = Z.of_N n.
Proof.
  induction fuel as [|f IH]; intros n acc Hn Hf; [lia|].
  cbn [JS.digitsFuel].
  assert (Hm : (n mod 10 < 10)%N) by (apply N.mod_upper_bound; lia).
  assert (Hq : (n = 10 * (n / 10) + n mod 10)%N) by (apply N.div_mod; lia).
  remember (n mod 10)%N as m eqn:Em. remember (n / 10)%N as q eqn:Eq.
  assert (Hd : isDigit (48 + m)%N = true).
  { unfold isDigit. apply andb_true_intro; split; apply N.leb_le; lia. }
  assert (Hv : Z.of_N (48 + m - 48) = Z.of_N m) by (f_equal; lia).
  destruct (N.eqb_spec q 0) as [E|E].
  - exists [(48 + m)%N]. repeat split.
    + discriminate.
    + repeat constructor. exact Hd.
    + cbn [JS.parseDigits]. rewrite Hd, Hv. lia.
  - assert (Hf' : (0 < f)%nat).
    { destruct f; [|lia]. simpl in Hn. lia. }
    assert (Hn' : (q < 2 ^ N.of_nat f)%N).
    { replace (N.of_nat (S f)) with (N.succ (N.of_nat f)) in Hn by lia.
      rewrite N.pow_succ_r' in Hn. lia. }
    destruct (IH q ((48 + m)%N :: acc) Hn' Hf') as (d & Ed & [Hne Hall] & Hp).
    exists (d ++ [(48 + m)%N]). repeat split.
    + cbv beta iota zeta. rewrite Ed, <- app_assoc. reflexivity.
    + destruct d; discriminate.
    + apply Forall_app; split; [assumption|repeat constructor; exact Hd].
    + rewrite parseDigits_app by assumption. rewrite Hp.
      cbn [JS.parseDigits]. rewrite Hd, Hv. lia.
Qed.

Lemma digits_spec n :
  isNumeral (JS.digits n) /\ JS.parseDigits 0 (JS.digits n) = Z.of_N n.
Proof.
  unfold JS.digits.
  destruct (@digitsFuel_spec (S (N.to_nat (N.log2 n))) n []) as (d & E & Hd & Hp).
  - destruct n as [|p]; [reflexivity|].
    replace (N.of_nat (S (N.to_nat (N.log2 (N.pos p))))) with (N.succ (N.log2 (N.pos p))) by lia.
    apply N.log2_spec. lia.
  - lia.
  - rewrite E, app_nil_r. auto.
Qed.

(** *** Doubles *)

Lemma toDoubleAbs_small n : n < 2 ^ 53 -> JS.toDoubleAbs n = n.
Proof.
  intros H. unfold JS.toDoubleAbs. destruct (Z.ltb_spec n (2 ^ 53)); [reflexivity|lia].
Qed.

Lemma toDouble_small n : 0 <= n <= 2 ^ 53 -> JS.toDouble n = n.
Proof.
  intros [H0 H1]. unfold JS.toDouble. destruct (Z.ltb_spec n 0); [lia|].
  destruct (Z.eq_dec n (2 ^ 53)) as [->|Hne]; [vm_compute; reflexivity|].
  apply toDoubleAbs_small. lia.
Qed.

(** A significand of 53 bits times a power of two is a double (or
    infinity): rounding leaves it alone. *)
Lemma toDoubleAbs_significand m e :
  2 ^ 52 <= m < 2 ^ 53 -> 1 <= e ->
  JS.toDoubleAbs (m * 2 ^ e)
  = if JS.INFINITY <=? m * 2 ^ e then JS.INFINITY else m * 2 ^ e.
Proof.
  intros Hm He.
  assert (HP : 0 < 2 ^ e) by (apply Z.pow_pos_nonneg; lia).
  assert (HP2 : 2 ^ e = 2 * 2 ^ (e - 1)).
  { replace e with (Z.succ (e - 1)) at 1 by lia. apply Z.pow_succ_r. lia. }
  assert (HP1 : 0 < 2 ^ (e - 1)) by (apply Z.pow_pos_nonneg; lia).
  assert (Hlog : Z.log2 (m * 2 ^ e) = 52 + e).
  { apply Z.log2_unique; [lia|]. rewrite Z.pow_add_r by lia.
    replace (Z.succ (52 + e)) with (53 + e) by lia. rewrite Z.pow_add_r by lia.
    split; nia. }
  unfold JS.toDoubleAbs.
  destruct (Z.ltb_spec (m * 2 ^ e) (2 ^ 53)) as [Hs|_]; [nia|].
  rewrite Hlog. replace (52 + e - 52) with e by lia.
  rewrite Z.div_mul, Z.mod_mul by lia. cbv zeta.
  destruct (Z.ltb_spec 0 (2 ^ (e - 1))); [reflexivity|lia].
Qed.

Lemma toDoubleAbs_idempotent n :
  0 <= n -> JS.toDoubleAbs (JS.toDoubleAbs n) = JS.toDoubleAbs n.
Proof.
  intros Hn. destruct (Z.ltb_spec n (2 ^ 53)) as [Hs|Hb].
  { now rewrite !(toDoubleAbs_small Hs). }
  assert (Hinf : JS.toDoubleAbs JS.INFINITY = JS.INFINITY) by (vm_compute; reflexivity).
  remember (JS.toDoubleAbs n) as d eqn:Ed. unfold JS.toDoubleAbs in Ed.
  destruct (Z.ltb_spec n (2 ^ 53)) as [|_]; [lia|]. cbv zeta in Ed.
  set (L := Z.log2 n) in *. set (e := L - 52) in *.
  assert (Hpos : 0 < n) by (assert (0 < 2 ^ 53) by reflexivity; lia).
  destruct (Z.log2_spec n Hpos) as [Hl1 Hl2]. fold L in Hl1, Hl2.
  assert (HL : 53 <= L).
  { unfold L. rewrite <- (Z.log2_pow2 53) by lia. now apply Z.log2_le_mono. }
  assert (He : 1 <= e) by (unfold e; lia).
  assert (HP : 0 < 2 ^ e) by (apply Z.pow_pos_nonneg; lia).
  assert (E1 : 2 ^ L = 2 ^ 52 * 2 ^ e).
  { rewrite <- Z.pow_add_r by lia. f_equal. unfold e. lia. }
  assert (E2 : 2 ^ Z.succ L = 2 ^ 53 * 2 ^ e).
  { rewrite <- Z.pow_add_r by lia. f_equal. unfold e. lia. }
  assert (Hq : 2 ^ 52 <= n / 2 ^ e < 2 ^ 53).
  { split.
    - apply Z.div_le_lower_bound; lia.
    - apply Z.div_lt_upper_bound; lia. }
  set (q := n / 2 ^ e) in *.
  set (q' := if n mod 2 ^ e <? 2 ^ (e - 1) then q
             else if 2 ^ (e - 1) <? n mod 2 ^ e then q + 1
             else if Z.even q then q else q + 1) in *.
  assert (Hq' : q' = q \/ q' = q + 1).
  { unfold q'. destruct (n mod 2 ^ e <? 2 ^ (e - 1)); auto.
    destruct (2 ^ (e - 1) <? n mod 2 ^ e); auto. destruct (Z.even q); auto. }
  clearbody q'.
  assert (Hsig : JS.toDoubleAbs (q' * 2 ^ e)
                 = if JS.INFINITY <=? q' * 2 ^ e then JS.INFINITY else q' * 2 ^ e).
  { destruct (Z.eq_dec q' (2 ^ 53)) as [E|Hne].
    - rewrite E. replace (2 ^ 53 * 2 ^ e) with (2 ^ 52 * 2 ^ (e + 1)).
      + apply toDoubleAbs_significand; [|lia]. split; [lia|reflexivity].
      + rewrite Z.pow_add_r by lia. change (2 ^ 53) with (2 ^ 52 * 2). change (2 ^ 1) with 2.
        ring.
    - apply toDoubleAbs_significand; lia. }
  destruct (Z.leb_spec JS.INFINITY (q' * 2 ^ e)) as [Hi|Hi]; subst d; [exact Hinf|].
  exact Hsig.
Qed.

Lemma toDoubleAbs_nonneg n : 0 <= n -> 0 <= JS.toDoubleAbs n.
Proof.
  intros Hn. unfold JS.toDoubleAbs. destruct (n <? 2 ^ 53); [exact Hn|]. cbv zeta.
  set (e := Z.log2 n - 52). set (q := n / 2 ^ e).
  assert (HP : 0 <= 2 ^ e) by (apply Z.pow_nonneg; lia).
  assert (Hq : 0 <= q).
  { unfold q. destruct (Z.eq_dec (2 ^ e) 0) as [E|E]; [rewrite E, Z.div_0_r; lia|].
    apply Z.div_pos; lia. }
  match goal with |- context [Z.leb _ (?a * _)] => set (q' := a) end.
  assert (Hq' : 0 <= q').
  { unfold q'. destruct (n mod 2 ^ e <? 2 ^ (e - 1)); [lia|].
    destruct (2 ^ (e - 1) <? n mod 2 ^ e); [lia|]. destruct (Z.even q); lia. }
  destruct (JS.INFINITY <=? q' * 2 ^ e); [vm_compute; discriminate|nia].
Qed.

Lemma toDouble_nonneg n : 0 <= n -> 0 <= JS.toDouble n.
Proof.
  intros Hn. unfold JS.toDouble. destruct (Z.ltb_spec n 0); [lia|].
  now apply toDoubleAbs_nonneg.
Qed.

Lemma toDouble_idempotent n : 0 <= n -> JS.isDouble (JS.toDouble n).
Proof.
  intros Hn. unfold JS.isDouble. pose proof (toDouble_nonneg Hn) as H.
  unfold JS.toDouble in *. destruct (Z.ltb_spec n 0); [lia|].
  destruct (Z.ltb_spec (JS.toDoubleAbs n) 0); [lia|].
  now apply toDoubleAbs_idempotent.
Qed.

Lemma parseInt_double d : JS.isDouble (JS.parseInt d) /\ 0 <= JS.parseInt d.
Proof.
  assert (H : forall s acc, 0 <= acc -> 0 <= JS.parseDigits acc s).
  { induction s as [|c s IH]; intros acc Ha; cbn [JS.parseDigits]; auto.
    destruct (isDigit c); auto. apply IH. lia. }
  unfold JS.parseInt. split.
  - apply toDouble_idempotent, H. lia.
  - apply toDouble_nonneg, H. lia.
Qed.

(** *** Printing a number and reading it back *)

Lemma parseDigits_zeros m acc :
  JS.parseDigits acc (repeat 48%N m) = acc * 10 ^ Z.of_nat m.
Proof.
  revert acc. induction m as [|m IH]; intros acc.
  - cbn. lia.
  - cbn [repeat JS.parseDigits]. change (isDigit 48%N) with true. cbv iota.
    rewrite IH. change (Z.of_N (48 - 48)) with 0.
    rewrite Nat2Z.inj_succ, Z.pow_succ_r by lia. ring.
Qed.

Lemma shortestFuel_spec x len :
  0 <= x -> JS.isDouble x ->
  forall fuel k,
    1 <= k -> Z.of_nat fuel + k = len + 1 ->
    let '(s, k', n) := JS.shortestFuel fuel k x len in
    0 <= s /\ 0 <= n - k' /\ JS.toDouble (s * 10 ^ (n - k')) = x.
Proof.
  intros Hx Hd. induction fuel as [|f IH]; intros k Hk Hf; cbn [JS.shortestFuel].
  - replace (len - len) with 0 by lia. rewrite Z.mul_1_r. repeat split; auto; lia.
  - cbv zeta. set (p := 10 ^ (len - k)).
    assert (Hp : 0 < p) by (apply Z.pow_pos_nonneg; lia).
    assert (Hlo : 0 <= x / p) by (apply Z.div_pos; lia).
    set (lo := x / p) in *.
    destruct (Z.eqb_spec (JS.toDouble (lo * p)) x) as [Elo|Nlo];
      destruct (Z.eqb_spec (JS.toDouble ((lo + 1) * p)) x) as [Ehi|Nhi];
      cbn [andb orb].
    + set (s := if x - lo * p <? (lo + 1) * p - x then lo
                else if (lo + 1) * p - x <? x - lo * p then lo + 1
                else if Z.even lo then lo else lo + 1).
      assert (Hs : s = lo \/ s = lo + 1).
      { unfold s. destruct (x - lo * p <? (lo + 1) * p - x); auto.
        destruct ((lo + 1) * p - x <? x - lo * p); auto. destruct (Z.even lo); auto. }
      clearbody s. destruct (Z.eqb_spec s (10 ^ k)) as [E|_].
      * replace (len + 1 - 1) with (k + (len - k)) by lia.
        rewrite Z.pow_add_r by lia. fold p. rewrite <- E.
        repeat split; try lia. rewrite Z.mul_1_l. destruct Hs as [->| ->]; auto.
      * fold p. repeat split; try lia. destruct Hs as [->| ->]; auto.
    + destruct (Z.eqb_spec lo (10 ^ k)) as [E|_].
      * replace (len + 1 - 1) with (k + (len - k)) by lia.
        rewrite Z.pow_add_r by lia. fold p. rewrite <- E, Z.mul_1_l.
        repeat split; try lia; exact Elo.
      * fold p. repeat split; try lia; exact Elo.
    + destruct (Z.eqb_spec (lo + 1) (10 ^ k)) as [E|_].
      * replace (len + 1 - 1) with (k + (len - k)) by lia.
        rewrite Z.pow_add_r by lia. fold p. rewrite <- E, Z.mul_1_l.
        repeat split; try lia; exact Ehi.
      * fold p. repeat split; try lia; exact Ehi.
    + apply IH; lia.
Qed.

Lemma numberToStringAbs_spec x :
  0 <= x < 10 ^ 21 -> JS.isDouble x ->
  isNumeral (JS.numberToStringAbs x) /\ JS.parseInt (JS.numberToStringAbs x) = x.
Proof.
  intros [H0 H1] Hd. unfold JS.numberToStringAbs, JS.parseInt.
  destruct (digits_spec (Z.to_N x)) as [Dx Px].
  destruct (Z.ltb_spec x (2 ^ 53)) as [Hs|Hb].
  { split; [exact Dx|]. rewrite Px, Z2N.id by lia. apply toDouble_small.
    split; [lia|]. apply Z.lt_le_incl, Hs. }
  assert (Hinf : 10 ^ 21 < JS.INFINITY) by reflexivity.
  destruct (Z.leb_spec JS.INFINITY x) as [Hi|_]; [lia|].
  unfold JS.shortest.
  set (len := Z.of_nat (length (JS.digits (Z.to_N x)))).
  pose proof (@shortestFuel_spec x len H0 Hd (Z.to_nat len) 1) as Hsp.
  destruct (JS.shortestFuel (Z.to_nat len) 1 x len) as [[s k] n].
  destruct Hsp as (Hs & Hnk & Hv); [lia|unfold len; lia|].
  destruct (Z.ltb_spec x (10 ^ 21)) as [_|]; [|lia].
  destruct (digits_spec (Z.to_N s)) as [[Ds1 Ds2] Ps].
  split.
  - split.
    + destruct (JS.digits (Z.to_N s)); [congruence|discriminate].
    + apply Forall_app. split; [exact Ds2|].
      apply Forall_forall. intros c Hc. apply repeat_spec in Hc. now subst.
  - rewrite parseDigits_app by exact Ds2. rewrite Ps, parseDigits_zeros.
    rewrite !Z2N.id, Z2Nat.id by lia. exact Hv.
Qed.

Lemma numberToString_spec n :
  plainNumber n ->
  isNumeral (JS.numberToString n) /\ JS.parseInt (JS.numberToString n) = n.
Proof.
  intros [Hn Hd]. pose proof (numberToStringAbs_spec Hn Hd) as H.
  unfold JS.numberToString. destruct n as [|p|p]; [exact H|exact H|lia].
Qed.


Lemma add_one n : 0 <= n < 2 ^ 53 -> JS.add n 1 = n + 1.
Proof. intros H. unfold JS.add. apply toDouble_small. lia. Qed.

(** ** Running the patterns forward *)

Lemma run_seq (A : Type) r1 r2 s (k : str -> option A) c1 c2 a :
  run r1 s (fun s' => run r2 s' k) = Some (c1, (c2, a)) ->
  run (Seq r1 r2) s k = Some (c1 ++ c2, a).
Proof. intros H. simpl. now rewrite H. Qed.

Lemma run_group (A : Type) r w rest (k : str -> option A) cs a :
  run r (w ++ rest) (fun s' => option_map (pair s') (k s')) = Some (cs, (rest, a)) ->
  run (Group r) (w ++ rest) k = Some (w :: cs, a).
Proof. intros H. simpl. rewrite H. now rewrite consumed_app. Qed.

Lemma run_lit (A : Type) l rest (k : str -> option A) a :
  k rest = Some a -> run (Lit l) (l ++ rest) k = Some ([], a).
Proof. intros H. simpl. rewrite lit_app. now rewrite H. Qed.

Lemma run_eol (A : Type) (k : str -> option A) a :
  k [] = Some a -> run Eol [] k = Some ([], a).
Proof. intros H. simpl. now rewrite H. Qed.

Lemma run_group_plus (A : Type) c w rest (k : str -> option A) a :
  w <> [] -> allIn c w -> stops c rest -> k rest = Some a ->
  run (Group (Plus c)) (w ++ rest) k = Some ([w], a).
Proof.
  intros Hne Hall Hstop Hk. apply run_group.
  apply plus_greedy; auto. now rewrite Hk.
Qed.

(** The number pattern on a numeral pair followed by a non-digit. *)
Lemma number_regex_run (A : Type) d1 d2 rest (k : str -> option A) a :
  isNumeral d1 -> isNumeral d2 -> stops Digit rest -> k rest = Some a ->
  run SCENE_NUMBER_REGEX (d1 ++ [c_DASH] ++ d2 ++ rest) k = Some ([d1; d2], a).
Proof.
  intros [N1 D1] [N2 D2] Hstop Hk. unfold SCENE_NUMBER_REGEX.
  apply (@run_seq _ _ _ _ _ [d1] [d2]).
  apply run_group_plus; auto; [reflexivity|].
  apply (@run_seq _ _ _ _ _ [] [d2]).
  apply run_lit. now apply run_group_plus.
Qed.

Lemma number_regex_exec d1 d2 rest :
  isNumeral d1 -> isNumeral d2 -> stops Digit rest ->
  exec SCENE_NUMBER_REGEX (d1 ++ [c_DASH] ++ d2 ++ rest)
  = Some [d1 ++ [c_DASH] ++ d2; d1; d2].
Proof.
  intros H1 H2 Hs. unfold exec.
  rewrite (@number_regex_run _ d1 d2 rest (fun s' => Some s') rest) by auto.
  replace (d1 ++ [c_DASH] ++ d2 ++ rest) with ((d1 ++ [c_DASH] ++ d2) ++ rest)
    by (now rewrite <- !app_assoc).
  now rewrite consumed_app.
Qed.

Lemma digit_not_space x : isDigit x = true -> isWhiteSpace x = false.
Proof.
  unfold isDigit, isWhiteSpace. intros H.
  apply andb_prop in H. destruct H as [H1 H2]. apply N.leb_le in H1, H2.
  repeat (match goal with
          | |- context [(?a <=? ?b)%N] => destruct (N.leb_spec a b); try lia
          | |- context [(?a =? ?b)%N] => destruct (N.eqb_spec a b); try lia
          end); reflexivity.
Qed.

Lemma rev_head_last (s : str) x u : rev s = x :: u -> s = rev u ++ [x].
Proof.
  intros E. apply (f_equal (@rev _)) in E. now rewrite rev_involutive in E.
Qed.

Lemma numeral_trimmed d1 d2 : isNumeral d1 -> isNumeral d2 -> trimmed (d1 ++ [c_DASH] ++ d2).
Proof.
  intros [N1 D1] [N2 D2]. split.
  - destruct d1 as [|x d1]; [congruence|]. inversion D1; subst. simpl.
    now apply digit_not_space.
  - rewrite !rev_app_distr.
    destruct (rev d2) as [|x u] eqn:E.
    + apply (f_equal (@rev _)) in E. rewrite rev_involutive in E. now subst.
    + simpl. apply digit_not_space.
      apply rev_head_last in E. subst d2. apply Forall_app in D2.
      destruct D2 as [_ D2]. now inversion D2.
Qed.

Lemma trim_pad pre x post :
  allIn Space pre -> allIn Space post -> x <> [] -> trimmed x ->
  JS.trim (pre ++ x ++ post) = x.
Proof.
  intros Hpre Hpost Hne [H1 H2]. unfold JS.trim, JS.trimStart, JS.trimEnd.
  rewrite dropWhile_app_all by exact Hpre.
  rewrite (dropWhile_stops isWhiteSpace (x ++ post))
    by (destruct x; [congruence|exact H1]).
  rewrite rev_app_distr, dropWhile_app_all.
  - rewrite dropWhile_stops; [apply rev_involutive|].
    destruct (rev x); simpl in *; auto.
  - apply Forall_forall. intros c Hc. apply in_rev in Hc.
    unfold allIn in Hpost. rewrite Forall_forall in Hpost. now apply Hpost.
Qed.

(** ** Validation of a bare number pair *)

(** C1, as stated, fails: on the line [3-2] the validator reports one
    error, not the three errors for time, location kind and location. *)
Lemma validateSceneHeader_bare_number_not_three_errors :
  ~ reportsAllThree (validateSceneHeader line_3_2).
Proof.
  unfold reportsAllThree. vm_compute.
  intros (_ & [H|[]] & _). discriminate H.
Qed.

(** C1 (amended): for every line that consists of a bare episode-scene
    number pair, possibly surrounded by white space, [validateSceneHeader]
    returns [valid = false] with exactly one error, placed just after the
    number, whose message says that time, location kind and location are
    all missing. *)
Theorem validateSceneHeader_bare_number :
  forall pre d1 d2 post,
    isNumeral d1 -> isNumeral d2 -> allIn Space pre -> allIn Space post ->
    validateSceneHeader (pre ++ (d1 ++ [c_DASH] ++ d2) ++ post)
    = {| valid := false;
         errors := [ {| position := len (d1 ++ [c_DASH] ++ d2);
                        message := MsgMissingAll |} ] |}.
Proof.
  intros pre d1 d2 post H1 H2 Hpre Hpost. unfold validateSceneHeader.
  assert (Hne : d1 ++ [c_DASH] ++ d2 <> []) by (destruct H1 as [N1 _]; destruct d1; [congruence|discriminate]).
  rewrite trim_pad by auto using numeral_trimmed.
  destruct (d1 ++ [c_DASH] ++ d2) as [|x u] eqn:E; [congruence|].
  cbn [isEmpty]. rewrite <- E.
  replace (d1 ++ [c_DASH] ++ d2) with (d1 ++ [c_DASH] ++ d2 ++ []) at 1
    by (now rewrite app_nil_r).
  rewrite number_regex_exec by (auto; exact I).
  cbn [at_ nth]. unfold JS.substring. rewrite skipn_all.
  reflexivity.
Qed.

Lemma validateSceneHeader_bare_number_witness :
  validateSceneHeader line_3_2
  = {| valid := false; errors := [ {| position := 3; message := MsgMissingAll |} ] |}.
Proof.
  apply (@validateSceneHeader_bare_number [] [51%N] [50%N] []).
  - split; [discriminate|repeat constructor].
  - split; [discriminate|repeat constructor].
  - constructor.
  - constructor.
Defined.

(** The per-field checks do accumulate once something follows the
    number: [3-2 日] is reported with two errors at once. *)
Lemma validateSceneHeader_accumulates :
  validateSceneHeader (line_3_2 ++ [c_SP; c_RI])
  = {| valid := false;
       errors := [ {| position := 5; message := MsgMissingLocationType |};
                   {| position := 5; message := MsgMissingLocation |} ] |}.
Proof. reflexivity. Qed.

Lemma splitWs_head c s :
  isWhiteSpace c = false -> exists l ls, JS.splitWs (c :: s) = (c :: l) :: ls.
Proof.
  intros Hc. cbn [JS.splitWs]. rewrite Hc.
  destruct (JS.splitWs s) as [|l ls]; eauto.
Qed.

(** The error for a missing time alone is never reported, on any line:
    when something follows the number, its first word is the time. *)
Lemma validateSceneHeader_never_missing_time line :
  ~ In MsgMissingTime (map message (errors (validateSceneHeader line))).
Proof.
  unfold validateSceneHeader.
  destruct (isEmpty (JS.trim line)); [cbn; intros [H|[]]; discriminate H|].
  destruct (exec SCENE_NUMBER_REGEX (JS.trim line)) as [numberMatch|];
    [|cbn; intros [H|[]]; discriminate H].
  set (afterNumber := JS.trim (JS.substring (length (at_ numberMatch 0)) (JS.trim line))).
  pose proof (trim_trimmed (JS.substring (length (at_ numberMatch 0)) (JS.trim line)))
    as [Hstart _].
  fold afterNumber in Hstart.
  destruct afterNumber as [|c rest]; [cbn; intros [H|[]]; discriminate H|].
  cbn [isEmpty]. simpl in Hstart.
  destruct (@splitWs_head c rest Hstart) as (l & ls & ->).
  cbn [length at_ nth isEmpty Nat.ltb Nat.leb orb].
  repeat match goal with
         | |- context [if ?b then _ else _] => destruct b
         | |- context [match ?x with Some _ => _ | None => _ end] => destruct x
         end;
    cbn; intros H; repeat (destruct H as [H|H]; [discriminate H|]); exact H.
Qed.

(** ** Duration estimate *)

(** The model's rounding against the machine's: [JS.toDouble] gives what
    the conversion of an integer to a primitive float gives, and
    [Binary64.div] what the division of primitive floats gives, at the
    sample inputs. *)
Lemma doubles_agree_with_primitive_floats :
  forallb (fun n => sameValue (primOfZ n) (inject_Z (JS.toDouble n)))
          sampleIntegers = true
  /\ forallb (fun w => (JS.toDouble w =? w)
                       && sameValue (PrimFloat.div (primOfZ w) (primOfZ 200))
                                    (Binary64.div w 200))
             sampleWordCounts = true.
Proof. split; vm_compute; reflexivity. Qed.

Lemma roundHalfEven_spec n d :
  0 < d -> 2 * Z.abs (d * Binary64.roundHalfEven n d - n) <= d.
Proof.
  intros Hd. unfold Binary64.roundHalfEven.
  pose proof (Z.div_mod n d ltac:(lia)) as E.
  pose proof (Z.mod_pos_bound n d Hd) as B.
  destruct (Z.ltb_spec (2 * (n mod d)) d); [lia|].
  destruct (Z.ltb_spec d (2 * (n mod d))); [lia|].
  destruct (Z.even (n / d)); lia.
Qed.

(** Below 2^53 words the quotient by 200 is below 2^46: its significand
    has at least 7 bits after the binary point. *)
Lemma exponent_minutes w : 0 < w < 2 ^ 53 -> Binary64.exponent w 200 <= -7.
Proof.
  intros [H0 H1]. unfold Binary64.exponent.
  assert (Z.log2 w < 53) by (apply Z.log2_lt_pow2; lia).
  change (Z.log2 200) with 7.
  destruct (Binary64.scaled w 200 (Z.log2 w - 7 - 53)) as [n d].
  destruct (2 ^ 53 * d <=? n); lia.
Qed.

Lemma Qceiling_div n p :
  Qceiling (inject_Z n / inject_Z (Z.pos p)) = - ((- n) / Z.pos p).
Proof.
  unfold Qceiling, Qfloor, Qdiv, Qmult, Qinv, inject_Z, Qopp. cbn.
  now rewrite Z.mul_1_r.
Qed.

(** A significand [m] within half a unit of [w * K / 100], with [K] at
    least 64, has the ceiling of [w / 100]: the error is below a hundredth. *)
Lemma ceil_hundred w K m :
  0 < w -> 64 <= K -> Z.abs (100 * m - w * K) <= 50 ->
  - ((- m) / K) = - ((- w) / 100).
Proof.
  intros Hw HK Hm.
  pose proof (Z.div_mod (- w) 100 ltac:(lia)) as E.
  pose proof (Z.mod_pos_bound (- w) 100 ltac:(lia)) as B.
  f_equal. symmetry. apply (Z.div_unique _ _ _ (- m - K * ((- w) / 100))); [|lia].
  left. nia.
Qed.

Lemma estimateDuration_closed_form w :
  0 < w < 2 ^ 53 ->
  (Binary64.estimateDuration w
   == inject_Z (Qceiling (inject_Z w / 200 * 2)) / 2)%Q.
Proof.
  intros Hw. unfold Binary64.estimateDuration, Binary64.div, WORDS_PER_MINUTE.
  destruct (Z.leb_spec w 0); [lia|].
  pose proof (exponent_minutes Hw) as He.
  set (e := Binary64.exponent w 200) in *.
  unfold Binary64.scaled. destruct (Z.leb_spec 0 e); [lia|].
  set (K := 2 ^ (- e - 1)).
  assert (HK : 64 <= K).
  { unfold K. change 64 with (2 ^ 6). apply Z.pow_le_mono_r; lia. }
  assert (E2 : 2 ^ (- e) = 2 * K).
  { unfold K. rewrite <- Z.pow_succ_r by lia. f_equal. lia. }
  rewrite E2.
  set (m := Binary64.roundHalfEven (w * (2 * K)) 200).
  pose proof (@roundHalfEven_spec (w * (2 * K)) 200 ltac:(lia)) as Hm. fold m in Hm.
  assert (Hm' : Z.abs (100 * m - w * K) <= 50) by lia.
  assert (Q1 : (inject_Z m / inject_Z (2 * K) * 2 == inject_Z m / inject_Z K)%Q).
  { rewrite inject_Z_mult. field. intros C. unfold Qeq in C. cbn in C. lia. }
  assert (Q2 : (inject_Z w / 200 * 2 == inject_Z w / inject_Z 100)%Q).
  { change (inject_Z 100) with 100%Q. field. }
  rewrite Q1, Q2.
  destruct K as [|p|p]; try lia.
  rewrite !Qceiling_div. now rewrite (@ceil_hundred w _ m (proj1 Hw) HK Hm').
Qed.

(** Below 2^53 the evaluation in doubles is the exact one. *)
Lemma estimateDuration_exact_below_2_53 w :
  w < 2 ^ 53 ->
  (Binary64.estimateDuration w == StatsService.estimateDuration w)%Q.
Proof.
  intros Hw. destruct (Z.leb_spec w 0) as [H|H].
  - unfold Binary64.estimateDuration, StatsService.estimateDuration.
    destruct (Z.leb_spec w 0); [reflexivity|lia].
  - rewrite estimateDuration_closed_form by lia.
    unfold StatsService.estimateDuration, WORDS_PER_MINUTE.
    destruct (Z.leb_spec w 0); [lia|reflexivity].
Qed.

(** C7, as stated, fails: 72057594037928304 is a word count a double
    holds, and its quotient by 200, 360287970189641.52, is rounded to the
    double 360287970189641.5.  That is what [estimateDuration] returns: a
    value below the duration it should round up, and not
    ceil((wordCount / 200) * 2) / 2 = 360287970189642. *)
Lemma estimateDuration_rounds_down_large_count :
  JS.isDouble 72057594037928304
  /\ (Binary64.estimateDuration 72057594037928304 == 720575940379283 # 2)%Q
  /\ (Binary64.estimateDuration 72057594037928304
      < inject_Z 72057594037928304 / 200)%Q
  /\ ~ (Binary64.estimateDuration 72057594037928304
        == inject_Z (Qceiling (inject_Z 72057594037928304 / 200 * 2)) / 2)%Q.
Proof.
  split; [vm_compute; reflexivity|].
  split; [vm_compute; reflexivity|].
  split; [vm_compute; reflexivity|].
  intros H. vm_compute in H. discriminate H.
Qed.

(** C7 (amended): [estimateDuration] returns 0 for a word count that is
    not positive; for a positive word count below 2^53 it returns
    [ceil((wordCount / 200) * 2) / 2], which is a whole number of half
    minutes, at least the raw duration [wordCount / 200] and less than half
    a minute above it.  In particular it maps 0 to 0, 50 to 0.5, 200 to 1
    and 201 to 1.5. *)
Theorem estimateDuration_half_minute_ceiling :
  (forall wordCount : Z,
      (wordCount <= 0 -> (Binary64.estimateDuration wordCount == 0)%Q)
      /\ (0 < wordCount < 2 ^ 53 ->
          (Binary64.estimateDuration wordCount
           == inject_Z (Qceiling (inject_Z wordCount / 200 * 2)) / 2)%Q
          /\ (exists halves : Z,
                 (Binary64.estimateDuration wordCount == inject_Z halves / 2)%Q)
          /\ (inject_Z wordCount / 200 <= Binary64.estimateDuration wordCount)%Q
          /\ (Binary64.estimateDuration wordCount
              < inject_Z wordCount / 200 + (1 # 2))%Q))
  /\ (Binary64.estimateDuration 0 == 0)%Q
  /\ (Binary64.estimateDuration 50 == 1 # 2)%Q
  /\ (Binary64.estimateDuration 200 == 1)%Q
  /\ (Binary64.estimateDuration 201 == 3 # 2)%Q.
Proof.
  split; [|repeat split; vm_compute; reflexivity].
  intros wc. split.
  - intros H. unfold Binary64.estimateDuration.
    destruct (Z.leb_spec wc 0); [reflexivity|lia].
  - intros H. pose proof (estimateDuration_closed_form H) as E.
    set (x := (inject_Z wc / 200 * 2)%Q) in *.
    pose proof (Qle_ceiling x) as H1. pose proof (Qceiling_lt x) as H2.
    unfold Z.sub in H2. rewrite inject_Z_plus, inject_Z_opp in H2.
    change (inject_Z 1) with 1%Q in H2.
    assert (Hx : (inject_Z wc / 200 == x / 2)%Q) by (unfold x; field).
    split; [exact E|]. split; [now exists (Qceiling x)|].
    rewrite E, Hx. clearbody x. set (c := inject_Z (Qceiling x)) in *. clearbody c.
    unfold Qdiv. change (/ 2)%Q with (1 # 2)%Q. split; lra.
Qed.

Lemma estimateDuration_half_minute_ceiling_witness :
  (Binary64.estimateDuration (-3) == 0)%Q
  /\ (Binary64.estimateDuration 201
      == inject_Z (Qceiling (inject_Z 201 / 200 * 2)) / 2)%Q.
Proof.
  destruct estimateDuration_half_minute_ceiling as [H _]. split.
  - apply (proj1 (H (-3))). lia.
  - apply (proj2 (H 201)). lia.
Defined.

(** ** The numbering engine *)

Lemma findAround_next scenes cursorLine prev :
  snd (findAround scenes cursorLine prev)
  = find (fun s => cursorLine <? s_line s) scenes.
Proof.
  revert prev. induction scenes as [|s rest IH]; intros prev; simpl; auto.
  destruct (Z.leb_spec (s_line s) cursorLine), (Z.ltb_spec cursorLine (s_line s));
    try lia; auto.
Qed.

Lemma findAround_prev_some scenes cursorLine p :
  exists q, fst (findAround scenes cursorLine (Some p)) = Some q.
Proof.
  revert p. induction scenes as [|s rest IH]; intros p; simpl; eauto.
  destruct (s_line s <=? cursorLine); simpl; eauto.
Qed.

(** C5, as stated, fails: with the single scene 1-2 at line 5 and the
    cursor at line 0, the next scene is in the episode of the insertion
    number 1-1, yet nothing needs renumbering. *)
Lemma needsRenumbering_contract_fails :
  ~ needsRenumberingContract (indexOf [sceneAt 1 2 5]) 0.
Proof.
  intros [_ H]. assert (E : needsRenumbering (indexOf [sceneAt 1 2 5]) 0 = true).
  { apply H. left. exists (sceneAt 1 2 5). split; reflexivity. }
  discriminate E.
Qed.

(** C5 (amended): for every index and cursor line, [needsRenumbering]
    returns true exactly when a next scene exists (the first scene with
    line > cursorLine) and either (a) the cursor is at or after the first
    scene and the next scene is in the episode of the insertion number
    computed by [getNextSceneNumber], or (b) the cursor is before the first
    scene and that scene is numbered 1. *)
Theorem needsRenumbering_exactly :
  forall index cursorLine,
    needsRenumbering index cursorLine = true <->
    exists first next,
      firstScene index = Some first
      /\ nextSceneAfter index cursorLine = Some next
      /\ ((s_line first <= cursorLine
           /\ s_episode next = n_episode (getNextSceneNumber index cursorLine))
          \/ (cursorLine < s_line first /\ s_scene first = 1)).
Proof.
  intros [scenes ec lu ch] c.
  unfold needsRenumbering, getNextSceneNumber, firstScene, nextSceneAfter.
  cbn [i_scenes]. destruct scenes as [|f rest].
  - split; [discriminate|]. now intros (first & next & H & _).
  - cbn [hd_error].
    pose proof (findAround_next (f :: rest) c None) as Hn.
    destruct (Z.leb_spec (s_line f) c) as [Hle|Hlt].
    + destruct (findAround_prev_some rest c f) as [p Hp].
      assert (E : findAround (f :: rest) c None = findAround rest c (Some f)).
      { simpl. destruct (Z.leb_spec (s_line f) c); [reflexivity|lia]. }
      rewrite E in *. destruct (findAround rest c (Some f)) as [pv nx].
      cbn [fst snd] in *. subst pv. rewrite <- Hn.
      destruct nx as [n|].
      * destruct (Z.eqb_spec (s_episode p) (s_episode n)) as [Ee|Ee]; cbn [n_episode].
        -- split; auto. intros _. exists f, n. repeat split; auto.
        -- split; [discriminate|]. intros (first & next & H1 & H2 & [[_ H3]|[H3 _]]).
           ++ inversion H2; subst. cbn [n_episode] in H3. congruence.
           ++ inversion H1; subst. lia.
      * split; [discriminate|]. now intros (first & next & _ & H & _).
    + assert (E : findAround (f :: rest) c None = (None, Some f)).
      { simpl. destruct (Z.leb_spec (s_line f) c); [lia|reflexivity]. }
      rewrite E in *. cbn [snd] in Hn. rewrite <- Hn.
      destruct (Z.eqb_spec (s_scene f) 1) as [E1|E1].
      * split; auto. intros _. exists f, f. repeat split; auto.
      * split; [discriminate|]. intros (first & next & H1 & H2 & [[H3 _]|[_ H3]]).
        -- inversion H1; subst. lia.
        -- inversion H1; subst. contradiction.
Qed.




(** Right-trimming a text that begins with a part ending in a visible
    character only shortens what follows that part. *)
Lemma trimEnd_app_prefix x rest :
  x <> [] -> stops Space (rev x) ->
  exists rest' w, rest = rest' ++ w /\ JS.trimEnd (x ++ rest) = x ++ rest'.
Proof.
  intros Hne Hx. unfold JS.trimEnd. rewrite rev_app_distr.
  destruct (dropWhile_split isWhiteSpace (rev rest)) as (w & E & Hw & Hs).
  destruct (JS.dropWhile isWhiteSpace (rev rest)) as [|y u] eqn:Ed.
  - exists [], rest. split; [reflexivity|].
    rewrite app_nil_r in E. rewrite E, dropWhile_app_all by exact Hw.
    rewrite dropWhile_stops.
    + now rewrite rev_involutive, app_nil_r.
    + destruct (rev x); simpl in *; auto.
  - exists (rev (y :: u)), (rev w). split.
    + rewrite <- rev_app_distr, <- E. now rewrite rev_involutive.
    + rewrite E, <- app_assoc, dropWhile_app_all by exact Hw.
      rewrite dropWhile_stops by exact Hs.
      now rewrite rev_app_distr, rev_involutive.
Qed.

Lemma numeral_last_visible d : isNumeral d -> stops Space (rev d).
Proof.
  intros [Hne Hd]. destruct (rev d) as [|x u] eqn:E; simpl; auto.
  apply digit_not_space. apply rev_head_last in E. subst d.
  apply Forall_app in Hd. destruct Hd as [_ Hd]. now inversion Hd.
Qed.

Lemma numeral_head_visible d rest : isNumeral d -> stops Space (d ++ rest).
Proof.
  intros [Hne Hd]. destruct d as [|x d]; [congruence|]. simpl.
  apply digit_not_space. now inversion Hd.
Qed.

(** Reading back the number of a line that starts with a printed pair. *)
Lemma extractSceneNumber_numerals e d rest :
  plainNumber e -> isNumeral d -> stops Digit rest ->
  extractSceneNumber (JS.numberToString e ++ [c_DASH] ++ d ++ rest)
  = Some {| n_episode := e; n_scene := JS.parseInt d |}.
Proof.
  intros He Nd Hrest.
  destruct (numberToString_spec He) as [Ne Pe].
  set (de := JS.numberToString e) in *.
  unfold extractSceneNumber, JS.trim, JS.trimStart.
  rewrite dropWhile_stops
    by (pose proof (numeral_head_visible ([c_DASH] ++ d ++ rest) Ne) as H;
        destruct (de ++ [c_DASH] ++ d ++ rest); simpl in *; auto).
  replace (de ++ [c_DASH] ++ d ++ rest) with ((de ++ [c_DASH] ++ d) ++ rest)
    by (now rewrite <- !app_assoc).
  destruct (@trimEnd_app_prefix (de ++ [c_DASH] ++ d) rest) as (rest' & w & Er & Et).
  - destruct Ne as [Ne _]. destruct de; [congruence|discriminate].
  - apply (numeral_trimmed Ne Nd).
  - rewrite Et. rewrite <- !app_assoc.
    rewrite number_regex_exec; auto.
    + cbn [at_ nth]. now rewrite Pe.
    + subst rest. destruct rest'; simpl in *; auto.
Qed.

Lemma extractSceneNumber_printed e s rest :
  plainNumber e -> plainNumber s -> stops Digit rest ->
  extractSceneNumber (JS.numberToString e ++ [c_DASH] ++ JS.numberToString s ++ rest)
  = Some {| n_episode := e; n_scene := s |}.
Proof.
  intros He Hs Hrest. destruct (numberToString_spec Hs) as [Ns Ps].
  rewrite extractSceneNumber_numerals; auto. now rewrite Ps.
Qed.




(** ** The document index *)

Lemma str_eqb_eq a b : str_eqb a b = true <-> a = b.
Proof.
  revert b. induction a as [|x a IH]; intros [|y b]; simpl; split;
    try discriminate; auto.
  - intros H. apply andb_prop in H. destruct H as [H1 H2].
    apply N.eqb_eq in H1. apply IH in H2. now subst.
  - intros H. inversion H; subst. rewrite N.eqb_refl. now apply IH.
Qed.

Lemma deref_alloc h v : deref (snd (alloc h v)) (fst (alloc h v)) = Some v.
Proof.
  unfold alloc, deref. cbn [fst snd].
  now rewrite nth_error_app2, Nat.sub_diag by lia.
Qed.

Lemma deref_alloc_older h v r x :
  deref h r = Some x -> deref (snd (alloc h v)) r = Some x.
Proof.
  unfold alloc, deref. cbn [snd]. intros H.
  rewrite nth_error_app1; auto. apply nth_error_Some. congruence.
Qed.

(** C3: indexing is idempotent and memoizing.  Two calls of
    [parseDocument] on the same text, whatever the clock shows, return index
    objects with the same scenes in the same order and the same
    fingerprint; a call that is given a previous index whose [contentHash]
    is the hash of the text returns that very object (the same reference),
    leaving the store and the service untouched; so does, in particular, a
    second call that is handed the result of the first. *)
Theorem parseDocument_idempotent_memoizing :
  (forall now1 now2 content h this,
      let '(r1, h1, this1) := parseDocument now1 content None h this in
      let '(r2, h2, _) := parseDocument now2 content None h1 this1 in
      exists i1 i2,
        deref h2 r1 = Some i1 /\ deref h2 r2 = Some i2
        /\ i_scenes i1 = i_scenes i2
        /\ i_contentHash i1 = i_contentHash i2)
  /\ (forall now content p previous h this,
         deref h p = Some previous ->
         i_contentHash previous = calculateHash content ->
         parseDocument now content (Some p) h this = (p, h, this))
  /\ (forall now1 now2 content h this,
         let '(r1, h1, this1) := parseDocument now1 content None h this in
         parseDocument now2 content (Some r1) h1 this1 = (r1, h1, this1)).
Proof.
  assert (Hmemo : forall now content p previous h this,
             deref h p = Some previous ->
             i_contentHash previous = calculateHash content ->
             parseDocument now content (Some p) h this = (p, h, this)).
  { intros now content p previous h this Hp Hh. unfold parseDocument.
    rewrite Hp. apply str_eqb_eq in Hh. now rewrite Hh. }
  split; [|split; [exact Hmemo|]].
  - intros now1 now2 content h this. unfold parseDocument.
    set (hash := calculateHash content).
    destruct (alloc h (buildIndex now1 content hash)) as [r1 h1] eqn:E1.
    destruct (alloc h1 (buildIndex now2 content hash)) as [r2 h2] eqn:E2.
    exists (buildIndex now1 content hash), (buildIndex now2 content hash).
    pose proof (deref_alloc h (buildIndex now1 content hash)) as D1.
    pose proof (deref_alloc h1 (buildIndex now2 content hash)) as D2.
    rewrite E1 in D1. rewrite E2 in D2. cbn [fst snd] in *.
    pose proof (deref_alloc_older h1 (buildIndex now2 content hash) r1 D1) as D3.
    rewrite E2 in D3. cbn [snd] in D3. repeat split; auto.
  - intros now1 now2 content h this.
    destruct (parseDocument now1 content None h this) as [[r1 h1] this1] eqn:E.
    unfold parseDocument in E.
    destruct (alloc h (buildIndex now1 content (calculateHash content)))
      as [r h'] eqn:Ea.
    inversion E; subst; clear E.
    pose proof (deref_alloc h (buildIndex now1 content (calculateHash content))) as D.
    rewrite Ea in D. cbn [fst snd] in D.
    apply (Hmemo now2 content r1 _ h1 _ D). reflexivity.
Qed.

Lemma parseDocument_idempotent_memoizing_witness :
  let '(h, this) := newService 0 in
  let '(r1, h1, this1) := parseDocument 1 twiceTheSameNumber None h this in
  parseDocument 2 twiceTheSameNumber (Some r1) h1 this1 = (r1, h1, this1).
Proof.
  cbv beta iota zeta delta [newService].
  destruct (parseDocument 1 twiceTheSameNumber None [createEmptyIndex 0]
              {| index := 0%nat |}) as [[r1 h1] this1] eqn:E.
  vm_compute in E. inversion E; subst; clear E.
  apply (proj1 (proj2 parseDocument_idempotent_memoizing) 2 twiceTheSameNumber 1%nat
           (buildIndex 1 twiceTheSameNumber (calculateHash twiceTheSameNumber))).
  - vm_compute. reflexivity.
  - vm_compute. reflexivity.
Defined.

Lemma ascendingBelow_push bound l :
  ascendingBelow bound l -> ascendingBelow (bound + 1) (l ++ [bound]).
Proof.
  intros [Hs Hb]. split.
  - induction Hs as [|x l Hs IH Hx]; simpl.
    + repeat constructor.
    + inversion Hb; subst. constructor; auto.
      apply Forall_app. split; auto.
  - apply Forall_app. split.
    + eapply Forall_impl; [|exact Hb]. simpl. intros; lia.
    + repeat constructor. lia.
Qed.

Lemma ascendingBelow_step bound l :
  ascendingBelow bound l -> ascendingBelow (bound + 1) l.
Proof.
  intros [Hs Hb]. split; auto.
  eapply Forall_impl; [|exact Hb]. simpl. intros; lia.
Qed.

Lemma updateLast_lines f l :
  (forall s, s_line (f s) = s_line s) ->
  map s_line (updateLast f l) = map s_line l.
Proof.
  intros Hf. induction l as [|x [|y l] IH]; simpl in *; auto.
  - now rewrite Hf.
  - now rewrite IH.
Qed.

Lemma scanLine_lines lineIndex line st :
  ascendingBelow lineIndex (map s_line (sc_scenes st)) ->
  ascendingBelow (lineIndex + 1) (map s_line (sc_scenes (scanLine lineIndex line st))).
Proof.
  intros H. unfold scanLine.
  destruct (str_eqb (JS.trim line) FLASHBACK_START); [now apply ascendingBelow_step|].
  destruct (str_eqb (JS.trim line) FLASHBACK_END); [now apply ascendingBelow_step|].
  destruct (parseSceneHeader (JS.trim line)) as [parsedHeader|].
  - cbn [sc_scenes]. rewrite map_app. cbn [map s_line].
    apply ascendingBelow_push.
    destruct ((sc_currentSceneStartLine st >=? 0) && (0 <? length (sc_scenes st))%nat);
      auto.
    now rewrite updateLast_lines.
  - destruct (sc_currentSceneStartLine st >=? 0); [|now apply ascendingBelow_step].
    destruct (parseCharacterList (JS.trim line)); cbn [sc_scenes].
    + destruct (0 <? length (sc_scenes st))%nat; [|now apply ascendingBelow_step].
      rewrite updateLast_lines by reflexivity. now apply ascendingBelow_step.
    + now apply ascendingBelow_step.
Qed.

Lemma scanLines_lines lines :
  forall lineIndex st,
    ascendingBelow lineIndex (map s_line (sc_scenes st)) ->
    StronglySorted Z.lt (map s_line (sc_scenes (scanLines lineIndex lines st))).
Proof.
  induction lines as [|line rest IH]; intros lineIndex st H; simpl.
  - apply H.
  - apply IH. now apply scanLine_lines.
Qed.

Lemma buildIndex_sorted now content hash :
  sortedByLine (i_scenes (buildIndex now content hash)).
Proof.
  unfold sortedByLine, buildIndex. cbn [i_scenes].
  assert (H : StronglySorted Z.lt
                (map s_line (sc_scenes (scanLines 0 (JS.split c_NL content) initialScan)))).
  { apply scanLines_lines. split; constructor. }
  destruct ((0 <? length (sc_scenes (scanLines 0 (JS.split c_NL content) initialScan)))%nat
            && (0 <? length (sc_currentSceneContent
                               (scanLines 0 (JS.split c_NL content) initialScan)))%nat);
    auto.
  now rewrite updateLast_lines.
Qed.

(** C4, as stated, fails: a document that repeats the header 1-1 is
    indexed with two scenes numbered 1-1, so the episode-scene pairs of
    an index are not unique. *)
Lemma parseDocument_numbers_not_unique :
  exists index,
    parsedIndex 0 twiceTheSameNumber = Some index /\ ~ indexInvariant index.
Proof.
  eexists. split; [vm_compute; reflexivity|].
  intros [_ H]. unfold uniqueNumbers in H. cbn in H.
  inversion H as [|x l Hin _]; subst. apply Hin. now left.
Qed.

(** C4 (amended): for every document text, the scene records of the
    index that [parseDocument] returns are sorted by line index, strictly
    ascending: this holds of the index a scan builds, and so of every index
    object of a store whose objects were all built by [parseDocument],
    a memoized previous index included.  (The episode-scene pairs are
    whatever the header lines say and may repeat.) *)
Theorem parseDocument_sorted_by_line :
  forall now content previousIndex h this,
    storeSorted h ->
    let '(r, h', _) := parseDocument now content previousIndex h this in
    storeSorted h'
    /\ exists index, deref h' r = Some index /\ sortedByLine (i_scenes index).
Proof.
  intros now content previousIndex h this Hh.
  assert (Hnew :
    let '(r, h') := alloc h (buildIndex now content (calculateHash content)) in
    storeSorted h'
    /\ exists index, deref h' r = Some index /\ sortedByLine (i_scenes index)).
  { destruct (alloc h (buildIndex now content (calculateHash content))) as [r h'] eqn:E.
    pose proof (deref_alloc h (buildIndex now content (calculateHash content))) as D.
    rewrite E in D. cbn [fst snd] in D. split.
    - unfold alloc in E. inversion E; subst. apply Forall_app. split; auto.
      repeat constructor. apply buildIndex_sorted.
    - eexists. split; [exact D|apply buildIndex_sorted]. }
  unfold parseDocument.
  destruct (alloc h (buildIndex now content (calculateHash content))) as [r h'] eqn:E.
  destruct previousIndex as [p|]; auto.
  destruct (deref h p) as [previous|] eqn:Ep; auto.
  destruct (str_eqb (i_contentHash previous) (calculateHash content)); auto.
  split; auto. exists previous. split; auto.
  unfold storeSorted in Hh. rewrite Forall_forall in Hh. apply Hh.
  eapply nth_error_In. exact Ep.
Qed.

Lemma parseDocument_sorted_by_line_witness :
  exists index,
    parsedIndex 0 twiceTheSameNumber = Some index /\ sortedByLine (i_scenes index).
Proof.
  unfold parsedIndex, newService.
  pose proof (@parseDocument_sorted_by_line 0 twiceTheSameNumber None
                [createEmptyIndex 0] {| index := 0%nat |}) as H.
  destruct (parseDocument 0 twiceTheSameNumber None [createEmptyIndex 0]
              {| index := 0%nat |}) as [[r h'] this'].
  apply H. repeat constructor.
Defined.

(** ** Word counting *)

Lemma split_nonempty sep s : JS.split sep s <> [].
Proof.
  destruct s as [|c s]; simpl; [discriminate|].
  destruct (c =? sep)%N; [discriminate|]. destruct (JS.split sep s); discriminate.
Qed.

Lemma split_no_sep sep s : ~ In sep s -> JS.split sep s = [s].
Proof.
  induction s as [|c s IH]; simpl; intros H; auto.
  destruct (N.eqb_spec c sep) as [->|_]; [exfalso; auto|].
  rewrite IH; auto.
Qed.

Lemma split_app sep a b :
  JS.split sep (a ++ sep :: b) = JS.split sep a ++ JS.split sep b.
Proof.
  induction a as [|c a IH]; simpl.
  - now rewrite N.eqb_refl.
  - destruct (c =? sep)%N; rewrite IH; auto.
    pose proof (split_nonempty sep a). destruct (JS.split sep a); [congruence|auto].
Qed.

Lemma fold_lineWords l acc :
  fold_left (fun totalWords line => totalWords + StatsService.lineWords line) l acc
  = acc + fold_left (fun totalWords line => totalWords + StatsService.lineWords line) l 0.
Proof.
  revert acc. induction l as [|x l IH]; intros acc; simpl; [lia|].
  rewrite IH, (IH (StatsService.lineWords x)). lia.
Qed.

Lemma countContentWords_fold text :
  StatsService.countContentWords text
  = fold_left (fun totalWords line => totalWords + StatsService.lineWords line)
              (JS.split c_NL text) 0.
Proof. destruct text; reflexivity. Qed.

Lemma countContentWords_lines a b :
  StatsService.countContentWords (a ++ [c_NL] ++ b)
  = StatsService.countContentWords a + StatsService.countContentWords b.
Proof.
  rewrite !countContentWords_fold. cbn [app]. rewrite split_app, fold_left_app.
  now rewrite fold_lineWords.
Qed.

Lemma lineWords_character_list indent names :
  allIn Space indent -> hasVisible names ->
  StatsService.lineWords (indent ++ StatsService.CHARACTER_PREFIX ++ names) = 0.
Proof.
  intros Hi H. apply Exists_exists in H. destruct H as (y & Hin & Hy).
  apply in_split in Hin. destruct Hin as (n1 & n2 & ->).
  unfold StatsService.lineWords, JS.trim, JS.trimStart.
  rewrite dropWhile_app_all by exact Hi.
  rewrite dropWhile_stops by reflexivity.
  destruct (@trimEnd_app_prefix (StatsService.CHARACTER_PREFIX ++ n1 ++ [y]) n2)
    as (rest' & w & _ & E).
  - discriminate.
  - rewrite !rev_app_distr. exact Hy.
  - replace (StatsService.CHARACTER_PREFIX ++ n1 ++ y :: n2)
      with ((StatsService.CHARACTER_PREFIX ++ n1 ++ [y]) ++ n2)
      by (now rewrite <- !app_assoc).
    rewrite E. reflexivity.
Qed.

(** The word count only skips the form with a space: written with a tab
    after the marker, a character-list line is counted in full. *)
Lemma countContentWords_tab_form :
  test CHARACTER_LIST_REGEX ([c_REN; 9%N] ++ text_ZhangSan) = true
  /\ StatsService.countContentWords ([c_REN; 9%N] ++ text_ZhangSan) = 3.
Proof. split; reflexivity. Qed.

Lemma allIn_not_in c w x : allIn c w -> mem c x = false -> ~ In x w.
Proof.
  unfold allIn. intros H Hx Hin. rewrite Forall_forall in H.
  apply H in Hin. congruence.
Qed.

Lemma allIn_app c a b : allIn c (a ++ b) <-> allIn c a /\ allIn c b.
Proof. unfold allIn. apply Forall_app. Qed.

Lemma consumed_all (s : str) : consumed s [] = s.
Proof. rewrite <- (app_nil_r s) at 1. apply consumed_app. Qed.

(** *** Lazy groups, forwards *)

Lemma lazy_skip (A : Type) c w rest (k : str -> option A) :
  allIn c w ->
  (forall w1 w2, w = w1 ++ w2 -> w2 <> [] -> k (w2 ++ rest) = None) ->
  lazy c (w ++ rest) k = lazy c rest k.
Proof.
  intros Hw. induction Hw as [|x w Hx _ IH]; intros Hk; [reflexivity|].
  assert (E : k ((x :: w) ++ rest) = None)
    by (apply (Hk [] (x :: w)); [reflexivity|discriminate]).
  cbn [app] in *. cbn [lazy]. rewrite E, Hx. apply IH.
  intros w1 w2 -> Hne. now apply (Hk (x :: w1) w2).
Qed.

Lemma lazy_here (A : Type) c s (k : str -> option A) a :
  k s = Some a -> lazy c s k = Some a.
Proof. intros H. destruct s; cbn [lazy]; now rewrite H. Qed.

(** A lazy group takes [x :: w] when the rest of the pattern matches after
    it and after no shorter prefix. *)
Lemma run_lazy_group_intro (A : Type) c R x w rest (k : str -> option A) caps a :
  mem c x = true -> allIn c w ->
  run R rest k = Some (caps, a) ->
  (forall w1 w2, w = w1 ++ w2 -> w2 <> [] -> run R (w2 ++ rest) k = None) ->
  run (Seq (Group (PlusLazy c)) R) ((x :: w) ++ rest) k
  = Some ((x :: w) :: caps, a).
Proof.
  intros Hx Hw HR Hmin.
  apply (@run_seq _ _ _ _ _ [x :: w] caps). apply run_group.
  cbn [run app]. rewrite Hx. rewrite lazy_skip; auto.
  - apply lazy_here. now rewrite HR.
  - intros w1 w2 E Hne. now rewrite (Hmin w1 w2 E Hne).
Qed.

Lemma run_lit_mismatch (A : Type) p l R z s (k : str -> option A) :
  z <> p -> run (Seq (Lit (p :: l)) R) (z :: s) k = None.
Proof.
  intros H. cbn [run lit]. destruct (N.eqb_spec p z); [congruence|reflexivity].
Qed.

Lemma run_tail_group (A : Type) c s (k : str -> option A) a :
  s <> [] -> allIn c s -> k [] = Some a ->
  run (Seq (Group (Plus c)) Eol) s k = Some ([s], a).
Proof.
  intros Hne Hs Hk. rewrite <- (app_nil_r s) at 1.
  apply (@run_seq _ _ _ _ _ [s] []).
  apply run_group_plus; auto; [exact I|]. now apply run_eol.
Qed.

Lemma suffix_head_not (p : char) (w w1 w2 : str) :
  ~ In p w -> w = w1 ++ w2 -> w2 <> [] -> exists z s, w2 = z :: s /\ z <> p.
Proof.
  intros Hp -> Hne. destruct w2 as [|z s]; [congruence|].
  exists z, s. split; [reflexivity|]. intros ->. apply Hp.
  apply in_or_app. right. now left.
Qed.

(** The dialogue pattern on a name without a later （ and an emotion
    without a later ）: the groups are the three parts. *)
Lemma dialogue_regex_run x w y v content :
  mem Dot x = true -> allIn Dot w -> ~ In c_LPAR w ->
  mem Dot y = true -> allIn Dot v -> ~ In c_RPAR v ->
  content <> [] -> allIn Dot content ->
  exec DIALOGUE_REGEX (emotionDialogue (x :: w) (y :: v) content)
  = Some [emotionDialogue (x :: w) (y :: v) content; x :: w; y :: v; content].
Proof.
  intros Hx Hw Lw Hy Hv Rv Hne Hc.
  assert (R : run DIALOGUE_REGEX (emotionDialogue (x :: w) (y :: v) content)
                  (fun s' => Some s')
              = Some ([x :: w; y :: v; content], [])).
  { unfold DIALOGUE_REGEX.
    change (emotionDialogue (x :: w) (y :: v) content)
      with ((x :: w) ++ [c_LPAR] ++ (y :: v) ++ [c_RPAR; c_FCOLON] ++ content).
    apply run_lazy_group_intro; auto.
    - apply (@run_seq _ _ _ _ _ [] [y :: v; content]). apply run_lit.
      apply run_lazy_group_intro; auto.
      + apply (@run_seq _ _ _ _ _ [] [content]). apply run_lit.
        now apply run_tail_group.
      + intros v1 v2 E Hv2.
        destruct (@suffix_head_not _ _ _ _ Rv E Hv2) as (z & s & -> & Hz).
        now apply run_lit_mismatch.
    - intros w1 w2 E Hw2.
      destruct (@suffix_head_not _ _ _ _ Lw E Hw2) as (z & s & -> & Hz).
      now apply run_lit_mismatch. }
  unfold exec. rewrite R. now rewrite consumed_all.
Qed.

Lemma visible_dot x : isWhiteSpace x = false -> mem Dot x = true.
Proof.
  intros H. cbn [mem]. apply negb_true_iff. unfold isLineTerminator.
  destruct (N.eqb_spec x 10) as [->|_]; [discriminate H|].
  destruct (N.eqb_spec x 13) as [->|_]; [discriminate H|].
  destruct (N.eqb_spec x 8232) as [->|_]; [discriminate H|].
  destruct (N.eqb_spec x 8233) as [->|_]; [discriminate H|].
  reflexivity.
Qed.

Lemma startsWith_mismatch p l z s : z <> p -> JS.startsWith (p :: l) (z :: s) = false.
Proof.
  intros H. cbn [JS.startsWith]. destruct (N.eqb_spec p z); [congruence|reflexivity].
Qed.

Lemma str_eqb_mismatch p l z s : z <> p -> str_eqb (z :: s) (p :: l) = false.
Proof.
  intros H. cbn [str_eqb]. destruct (N.eqb_spec z p); [congruence|reflexivity].
Qed.

(** A line that is not skipped and that the dialogue pattern matches
    counts for the third group. *)
Lemma lineWords_dialogue_group line m :
  skippedLine (JS.trim line) = false ->
  exec DIALOGUE_REGEX (JS.trim line) = Some m ->
  StatsService.lineWords line = StatsService.countWords (at_ m 3).
Proof.
  unfold skippedLine, StatsService.lineWords. intros H E.
  repeat (apply orb_false_iff in H; destruct H as [H ?]).
  repeat match goal with Hb : _ = false |- _ => rewrite Hb; clear Hb end.
  now rewrite E.
Qed.

(** An emotion-dialogue line counts for its content. *)
Lemma lineWords_emotion_dialogue x w y v content :
  nameStart x -> allIn Dot w -> ~ In c_LPAR w ->
  mem Dot y = true -> allIn Dot v -> ~ In c_RPAR v ->
  content <> [] -> allIn Dot content -> stops Space (rev content) ->
  StatsService.lineWords (emotionDialogue (x :: w) (y :: v) content)
  = StatsService.countWords content.
Proof.
  intros (Vx & Dx & Rx & Bx & Sx) Hw Lw Hy Hv Rv Hne Hc Hlast.
  pose proof (@visible_dot x Vx) as Hx.
  pose proof (@dialogue_regex_run x w y v content Hx Hw Lw Hy Hv Rv Hne Hc) as E.
  set (line := emotionDialogue (x :: w) (y :: v) content) in *.
  assert (T : JS.trim line = line).
  { apply trim_of_trimmed. unfold line, emotionDialogue.
    replace ((x :: w) ++ [c_LPAR] ++ (y :: v) ++ [c_RPAR; c_FCOLON] ++ content)
      with (((x :: w) ++ [c_LPAR] ++ (y :: v) ++ [c_RPAR; c_FCOLON]) ++ content)
      by (now rewrite <- !app_assoc).
    apply trimmed_app; auto; discriminate. }
  assert (L : exists s, line = x :: s) by (unfold line, emotionDialogue; cbn [app]; eauto).
  destruct L as [s L].
  unfold StatsService.lineWords. rewrite T, E. rewrite L.
  assert (N : test SCENE_NUMBER_REGEX (x :: s) = false).
  { unfold test, exec, SCENE_NUMBER_REGEX. cbn [run mem]. now rewrite Dx. }
  rewrite N. unfold StatsService.CHARACTER_PREFIX, StatsService.TAG_PREFIX,
    FLASHBACK_START, FLASHBACK_END.
  rewrite !startsWith_mismatch, !str_eqb_mismatch by assumption.
  cbn [isEmpty orb].
  assert (S : str_eqb (x :: s) StatsService.SEPARATOR = false).
  { apply not_true_is_false. intros H. apply str_eqb_eq in H.
    assert (Hin : In c_LPAR line).
    { unfold line, emotionDialogue. apply in_or_app. right. now left. }
    rewrite L, H in Hin. cbn in Hin.
    repeat (destruct Hin as [Hin|Hin]; [discriminate Hin|]). exact Hin. }
  rewrite S. reflexivity.
Qed.

(** C8: content word counting leaves structural markup out.  A
    character-list line (the marker 人, a space, then names; indented or
    not) counts for 0 whatever the names are, alone or among other lines.
    An emotion-dialogue line (a name that starts like a name and holds no
    further （, an emotion without a further ）, and a content that ends
    with a visible character) matches the dialogue pattern with its three
    parts as groups and counts for the words of its content alone, by
    itself or among other lines, the name and the emotion left out; and
    whatever its parts are, a line that the loop does not skip and that
    the dialogue pattern matches counts for the words of the third group.
    The line 张三（笑）：你好世界 is such a line, and counts for 4, the
    length of 你好世界. *)
Theorem countContentWords_skips_markup :
  (forall indent names,
      allIn Space indent -> ~ In c_NL indent ->
      hasVisible names -> ~ In c_NL names ->
      StatsService.countContentWords
        (indent ++ StatsService.CHARACTER_PREFIX ++ names) = 0
      /\ forall before after,
          StatsService.countContentWords
            (before ++ [c_NL] ++ (indent ++ StatsService.CHARACTER_PREFIX ++ names)
                    ++ [c_NL] ++ after)
          = StatsService.countContentWords before
            + StatsService.countContentWords after)
  /\ (forall x w y v content,
         nameStart x -> allIn Dot w -> ~ In c_LPAR w ->
         mem Dot y = true -> allIn Dot v -> ~ In c_RPAR v ->
         content <> [] -> allIn Dot content -> stops Space (rev content) ->
         exec DIALOGUE_REGEX (emotionDialogue (x :: w) (y :: v) content)
         = Some [emotionDialogue (x :: w) (y :: v) content; x :: w; y :: v; content]
         /\ StatsService.countContentWords
              (emotionDialogue (x :: w) (y :: v) content)
            = StatsService.countWords content
         /\ forall before after,
             StatsService.countContentWords
               (before ++ [c_NL] ++ emotionDialogue (x :: w) (y :: v) content
                       ++ [c_NL] ++ after)
             = StatsService.countContentWords before
               + StatsService.countWords content
               + StatsService.countContentWords after)
  /\ (forall line m,
         ~ In c_NL line ->
         skippedLine (JS.trim line) = false ->
         exec DIALOGUE_REGEX (JS.trim line) = Some m ->
         StatsService.countContentWords line
         = StatsService.countWords (at_ m 3))
  /\ emotionLine = emotionDialogue text_ZhangSan text_Xiao text_NiHaoShiJie
  /\ exec DIALOGUE_REGEX emotionLine
     = Some [emotionLine; text_ZhangSan; text_Xiao; text_NiHaoShiJie]
  /\ StatsService.countContentWords emotionLine = 4
  /\ StatsService.countWords text_NiHaoShiJie = 4.
Proof.
  split; [|split; [|split; [|repeat split; reflexivity]]].
  - intros indent names Hi Hinl Hv Hnl.
    assert (H0 : StatsService.countContentWords
                   (indent ++ StatsService.CHARACTER_PREFIX ++ names) = 0).
    { rewrite countContentWords_fold, split_no_sep.
      - cbn [fold_left]. now rewrite lineWords_character_list.
      - intros H. apply in_app_or in H. destruct H as [H|[H|[H|H]]];
          [auto|discriminate H|discriminate H|auto]. }
    split; auto. intros before after.
    rewrite !countContentWords_lines, H0. lia.
  - intros x w y v content Nx Hw Lw Hy Hv Rv Hne Hc Hlast.
    pose proof (@visible_dot x (proj1 Nx)) as Hx.
    split; [now apply dialogue_regex_run|].
    assert (H0 : StatsService.countContentWords
                   (emotionDialogue (x :: w) (y :: v) content)
                 = StatsService.countWords content).
    { rewrite countContentWords_fold, split_no_sep.
      - cbn [fold_left]. now rewrite lineWords_emotion_dialogue.
      - apply (@allIn_not_in Dot _ c_NL); [|reflexivity].
        unfold emotionDialogue. rewrite !allIn_app.
        repeat split; auto; repeat constructor; auto. }
    split; auto. intros before after.
    rewrite !countContentWords_lines, H0. lia.
  - intros line m Hnl Hs E.
    rewrite countContentWords_fold, split_no_sep by exact Hnl.
    cbn [fold_left]. now rewrite (lineWords_dialogue_group line Hs E).
Qed.

Lemma countContentWords_skips_markup_witness :
  StatsService.countContentWords
    ([c_SP] ++ StatsService.CHARACTER_PREFIX ++ text_ZhangSan ++ [c_SP] ++ text_NiHao)
  = 0
  /\ StatsService.countContentWords
       (emotionDialogue text_ZhangSan text_Xiao text_NiHaoShiJie)
     = StatsService.countWords text_NiHaoShiJie.
Proof.
  split.
  - apply (proj1 countContentWords_skips_markup [c_SP]
             (text_ZhangSan ++ [c_SP] ++ text_NiHao)).
    + repeat constructor.
    + cbn. intros [H|[]]. discriminate H.
    + left. reflexivity.
    + vm_compute. intros H. repeat (destruct H as [H|H]; [discriminate H|]). exact H.
  - apply (proj1 (proj2 countContentWords_skips_markup)
             24352%N [19977%N] 31505%N [] text_NiHaoShiJie).
    + repeat split; try reflexivity; discriminate.
    + repeat constructor.
    + cbn. intros [H|[]]. discriminate H.
    + reflexivity.
    + constructor.
    + intros [].
    + discriminate.
    + repeat constructor.
    + reflexivity.
Defined.

(** ** The line classifiers *)

(** The Word exporter's classifier is the priority table, on every line. *)
Lemma word_getLineType_priority line :
  WordExporter.getLineType line = firstMatch wordRules (JS.trim line).
Proof.
  unfold WordExporter.getLineType, wordRules, priorityRules, firstMatch.
  destruct (isEmpty (JS.trim line)); auto.
  destruct (str_eqb (JS.trim line) FLASHBACK_START); auto.
  destruct (str_eqb (JS.trim line) FLASHBACK_END); auto.
  destruct (test WordExporter.EPISODE_HEADER_REGEX (JS.trim line)); auto.
  destruct (test SCENE_HEADER_REGEX (JS.trim line)); auto.
  destruct (test WordExporter.CHARACTER_LABEL_REGEX (JS.trim line)); auto.
Qed.

(** Both classifiers read the emotion line as emotion dialogue. *)
Lemma getLineType_emotion_dialogue :
  WordExporter.getLineType emotionGreeting = Dialogue
  /\ PDFExporter.getLineType emotionGreeting = Dialogue.
Proof. split; reflexivity. Qed.

(** C6: the PDF exporter's classifier does not follow the priority
    order.  It tests the two dialogue patterns before the action marker and
    the episode header last, so the action line △ 张三：你好 and the episode
    title # 第1集：你好 both come out as [SimpleDialogue], where the priority
    order (and the Word exporter's classifier) gives [Action] and
    [EpisodeHeader]. *)
Theorem pdf_getLineType_breaks_priority :
  PDFExporter.getLineType actionWithColon = SimpleDialogue
  /\ firstMatch pdfRules (JS.trim actionWithColon) = Action
  /\ WordExporter.getLineType actionWithColon = Action
  /\ PDFExporter.getLineType episodeTitleWithColon = SimpleDialogue
  /\ firstMatch pdfRules (JS.trim episodeTitleWithColon) = EpisodeHeader
  /\ WordExporter.getLineType episodeTitleWithColon = EpisodeHeader.
Proof. repeat split; vm_compute; reflexivity. Qed.

(** ** The header pattern, forwards *)

Lemma run_location (A : Type) l (k : str -> option A) a :
  l <> [] -> allIn Dot l -> k [] = Some a ->
  run (Seq (Group (Plus Dot)) Eol) l k = Some ([l], a).
Proof.
  intros Hne Hl Hk. apply (@run_seq _ _ _ _ _ [l] []).
  rewrite <- (app_nil_r l) at 1. apply run_group_plus; auto; [exact I|].
  now apply run_eol.
Qed.

(** Two runs of visible characters that meet the same white space. *)
Lemma visible_prefix l t x r s' :
  allIn NonSpace l -> allIn NonSpace t -> isWhiteSpace x = true ->
  t ++ x :: r = l ++ s' -> exists t', t = l ++ t' /\ s' = t' ++ x :: r.
Proof.
  intros Hl. revert t. induction Hl as [|y l Hy _ IH]; intros t Ht Hx E.
  - exists t. auto.
  - destruct t as [|z t]; simpl in E; inversion E; subst.
    + simpl in Hy. rewrite Hx in Hy. discriminate.
    + inversion Ht; subst. destruct (IH t) as (t' & -> & ->); auto.
      now exists t'.
Qed.

Lemma alt_lit_or (A : Type) l r2 t x r (k : str -> option A) a :
  allIn NonSpace l -> allIn NonSpace t -> isWhiteSpace x = true ->
  (forall y s, isWhiteSpace y = false -> k (y :: s) = None) ->
  k (x :: r) = Some a ->
  run r2 (t ++ x :: r) k = Some ([], a) ->
  run (Alt (Lit l) r2) (t ++ x :: r) k = Some ([], a).
Proof.
  intros Hl Ht Hx Hfail Hk H2. cbn [run].
  destruct (lit l (t ++ x :: r) (fun s' => option_map (pair []) (k s'))) as [res|] eqn:E;
    [|exact H2].
  apply lit_sound in E. destruct E as (s' & E & Hs').
  destruct (@visible_prefix l t x r s' Hl Ht Hx E) as (t' & -> & ->).
  destruct t' as [|y t'].
  - simpl in Hs'. rewrite Hk in Hs'. now inversion Hs'.
  - apply Forall_app in Ht. destruct Ht as [_ Ht]. inversion Ht; subst.
    simpl in Hs'. rewrite Hfail in Hs'; [discriminate|].
    match goal with H : mem NonSpace y = true |- _ => simpl in H; now destruct (isWhiteSpace y) end.
Qed.

Lemma run_time (A : Type) t x r (k : str -> option A) a :
  t <> [] -> allIn NonSpace t -> isWhiteSpace x = true ->
  (forall y s, isWhiteSpace y = false -> k (y :: s) = None) ->
  k (x :: r) = Some a ->
  run (Group TIME_ALTERNATIVES) (t ++ x :: r) k = Some ([t], a).
Proof.
  intros Hne Ht Hx Hfail Hk. apply run_group. unfold TIME_ALTERNATIVES.
  assert (Hfail' : forall y s, isWhiteSpace y = false ->
                     option_map (pair s) (k (y :: s)) = (None : option (str * A)))
    by (intros y s Hy; now rewrite Hfail).
  repeat (apply (@alt_lit_or _ _ _ t x r (fun s' => option_map (pair s') (k s')));
          [repeat constructor|exact Ht|exact Hx| |now rewrite Hk|]);
    try (intros y s Hy; now rewrite Hfail).
  apply plus_greedy; auto.
  - simpl. now rewrite Hx.
  - now rewrite Hk.
Qed.

Lemma run_kind (A : Type) kind rest (k : str -> option A) a :
  In kind LOCATION_TYPES -> k rest = Some a ->
  run (Group (Alt (Lit [c_NEI]) (Lit [c_WAI]))) (kind ++ rest) k = Some ([kind], a).
Proof.
  intros Hin Hk. apply run_group.
  destruct Hin as [<-|[<-|[]]]; cbn [run lit app]; rewrite ?N.eqb_refl;
    cbn; now rewrite Hk.
Qed.

Lemma space_not_digit x : isWhiteSpace x = true -> isDigit x = false.
Proof.
  intros H. destruct (isDigit x) eqn:E; auto.
  apply digit_not_space in E. congruence.
Qed.

(** The header pattern on a line laid out as the grammar says. *)
Lemma header_regex_run (A : Type) d1 d2 x1 w1 t x2 w2 kind x3 w3 l
      (k : str -> option A) a :
  isNumeral d1 -> isNumeral d2 ->
  allIn Space (x1 :: w1) -> t <> [] -> allIn NonSpace t ->
  allIn Space (x2 :: w2) -> In kind LOCATION_TYPES ->
  allIn Space (x3 :: w3) -> l <> [] -> allIn Dot l -> stops Space l ->
  k [] = Some a ->
  run SCENE_HEADER_REGEX
      (d1 ++ [c_DASH] ++ d2 ++ (x1 :: w1) ++ t ++ (x2 :: w2)
          ++ kind ++ (x3 :: w3) ++ l) k
  = Some ([d1; d2; t; kind; l], a).
Proof.
  intros [N1 D1] [N2 D2] H1 Ht Dt H2 Hk H3 Hl Dl Sl Ha.
  assert (X1 : isWhiteSpace x1 = true) by now inversion H1.
  assert (X2 : isWhiteSpace x2 = true) by now inversion H2.
  assert (X3 : isWhiteSpace x3 = true) by now inversion H3.
  assert (Kv : stops Space (kind ++ (x3 :: w3) ++ l))
    by (destruct Hk as [<-|[<-|[]]]; reflexivity).
  assert (Tv : stops Space (t ++ (x2 :: w2) ++ kind ++ (x3 :: w3) ++ l)).
  { destruct t as [|y t]; [congruence|]. inversion Dt; subst. simpl in *.
    now destruct (isWhiteSpace y). }
  unfold SCENE_HEADER_REGEX.
  apply (@run_seq _ _ _ _ _ [d1] [d2; t; kind; l]).
  apply run_group_plus; auto; [reflexivity|].
  apply (@run_seq _ _ _ _ _ [] [d2; t; kind; l]). apply run_lit.
  apply (@run_seq _ _ _ _ _ [d2] [t; kind; l]).
  apply run_group_plus; auto; [simpl; now apply space_not_digit|].
  apply (@run_seq _ _ _ _ _ [] [t; kind; l]).
  apply plus_greedy; auto; [discriminate|].
  apply (@run_seq _ _ _ _ _ [t] [kind; l]).
  apply run_time; auto.
  { intros y s Hy. cbn [run]. cbn [mem]. now rewrite Hy. }
  apply (@run_seq _ _ _ _ _ [] [kind; l]).
  apply (@plus_greedy _ Space (x2 :: w2)); auto; [discriminate|].
  apply (@run_seq _ _ _ _ _ [kind] [l]).
  apply run_kind; auto.
  apply (@run_seq _ _ _ _ _ [] [l]).
  apply (@plus_greedy _ Space (x3 :: w3)); auto; [discriminate|].
  now apply run_location.
Qed.

(** ** Header round trip *)

(** C2, as stated, fails: a header with an empty time, or a time of two
    words, or an empty location, or a location that starts with a space, or
    one that holds a carriage return, or an episode of 10^21 (printed as
    1e+21), meets the conditions of the claim and is not read back from
    its own text. *)
Lemma header_round_trip_fails :
  (claimedHeader (header 1 1 [] [c_NEI] [97%N])
   /\ ~ roundTrips (header 1 1 [] [c_NEI] [97%N]))
  /\ (claimedHeader (header (10 ^ 21) 1 [c_RI] [c_NEI] [97%N])
      /\ ~ roundTrips (header (10 ^ 21) 1 [c_RI] [c_NEI] [97%N]))
  /\ (claimedHeader (header 1 1 [c_NEI; c_SP; c_NEI] [c_NEI] [97%N])
      /\ ~ roundTrips (header 1 1 [c_NEI; c_SP; c_NEI] [c_NEI] [97%N]))
  /\ (claimedHeader (header 1 1 [c_RI] [c_NEI] [])
      /\ ~ roundTrips (header 1 1 [c_RI] [c_NEI] []))
  /\ (claimedHeader (header 1 1 [c_RI] [c_NEI] [c_SP; 97%N])
      /\ ~ roundTrips (header 1 1 [c_RI] [c_NEI] [c_SP; 97%N]))
  /\ (claimedHeader (header 1 1 [c_RI] [c_NEI] [97%N; 13%N; 98%N])
      /\ ~ roundTrips (header 1 1 [c_RI] [c_NEI] [97%N; 13%N; 98%N])).
Proof.
  assert (Hc : forall episode time location,
             1 <= episode -> ~ In c_NL location ->
             claimedHeader (header episode 1 time [c_NEI] location)).
  { intros episode time location He H. unfold claimedHeader.
    cbn [header h_episode h_scene h_locationType h_location LOCATION_TYPES In].
    repeat split; auto; lia. }
  repeat match goal with |- _ /\ _ => split end;
    lazymatch goal with
    | |- claimedHeader _ =>
        apply Hc;
          [vm_compute; discriminate
          |cbn [In]; intros H; repeat (destruct H as [H|H]; [discriminate H|]);
           exact H]
    | |- ~ roundTrips _ => unfold roundTrips; vm_compute; discriminate
    end.
Qed.

(** C2 (amended): for every header record with episode and scene numbers
    at least 1 and below 10^21, a time that is one visible word (not empty,
    no white space), a location kind 内 or 外, and a location that is not
    empty, holds no line terminator and neither starts nor ends with white
    space, formatting the record as "episode-scene time locationKind
    location" and parsing the result with [parseSceneHeader] yields the
    record back exactly. *)
Theorem header_round_trip :
  forall h, printableHeader h -> parseSceneHeader (formatHeader h) = Some h.
Proof.
  intros [e s t kind l] (He & Hs & Pe' & Ps' & Ht & Dt & Hk & Hl & Dl & [Sl Sr]).
  cbn [h_episode h_scene h_time h_locationType h_location] in *.
  destruct (numberToString_spec Pe') as [Ne Pe].
  destruct (numberToString_spec Ps') as [Ns Ps].
  unfold parseSceneHeader, formatHeader, generateSceneHeaderTemplate.
  cbn [h_episode h_scene h_time h_locationType h_location n_episode n_scene].
  set (de := JS.numberToString e) in *. set (ds := JS.numberToString s) in *.
  set (line := de ++ [c_DASH] ++ ds ++ [c_SP] ++ t ++ [c_SP] ++ kind ++ [c_SP] ++ l).
  assert (Htrim : JS.trim line = line).
  { apply trim_of_trimmed.
    replace line with ((de ++ [c_DASH] ++ ds ++ [c_SP] ++ t ++ [c_SP] ++ kind ++ [c_SP]) ++ l)
      by (unfold line; now rewrite <- !app_assoc).
    apply trimmed_app; auto.
    - destruct Ne as [Ne _]. destruct de; [congruence|discriminate].
    - now apply numeral_head_visible. }
  rewrite Htrim. unfold exec, line.
  rewrite (@header_regex_run _ de ds c_SP [] t c_SP [] kind c_SP [] l
             (fun s' => Some s') []); auto; try (repeat constructor).
  rewrite consumed_all. cbn [at_ nth]. rewrite Pe, Ps.
  now rewrite (trim_of_trimmed (conj Sl Sr)).
Qed.

Lemma header_round_trip_witness :
  parseSceneHeader (formatHeader (header 3 2 [c_YU; c_YE] [c_WAI] [97; 32; 98]%N))
  = Some (header 3 2 [c_YU; c_YE] [c_WAI] [97; 32; 98]%N).
Proof.
  apply header_round_trip. unfold printableHeader, trimmed. cbn.
  repeat split; try lia; try discriminate; auto; repeat constructor.
Defined.

(** ** The header pattern, backwards *)

Lemma matches_seq_inv r1 r2 s s2 cs :
  matches (Seq r1 r2) s s2 cs ->
  exists s1 c1 c2, matches r1 s s1 c1 /\ matches r2 s1 s2 c2 /\ cs = c1 ++ c2.
Proof. inversion 1; subst. eauto 6. Qed.

Lemma matches_lit_inv l s s' cs :
  matches (Lit l) s s' cs -> s = l ++ s' /\ cs = [].
Proof. inversion 1; subst. auto. Qed.

Lemma matches_plus_inv c s s' cs :
  matches (Plus c) s s' cs ->
  exists w, s = w ++ s' /\ w <> [] /\ allIn c w /\ cs = [].
Proof. inversion 1; subst. eauto. Qed.

Lemma matches_group_inv r s s' cs :
  matches (Group r) s s' cs ->
  exists w c, s = w ++ s' /\ matches r (w ++ s') s' c /\ cs = w :: c.
Proof. inversion 1; subst. eauto. Qed.

Lemma matches_eol_inv s s' cs : matches Eol s s' cs -> s = [] /\ s' = [] /\ cs = [].
Proof. inversion 1; subst. auto. Qed.

Lemma matches_group_plus_inv c s s' cs :
  matches (Group (Plus c)) s s' cs ->
  exists w, s = w ++ s' /\ w <> [] /\ allIn c w /\ cs = [w].
Proof.
  intros H. apply matches_group_inv in H. destruct H as (w & c0 & -> & M & ->).
  apply matches_plus_inv in M. destruct M as (w' & E & Hne & Hw & ->).
  apply app_inv_tail in E. subst w'. eauto.
Qed.

Lemma matches_alt_inv r1 r2 s s' cs :
  matches (Alt r1 r2) s s' cs -> matches r1 s s' cs \/ matches r2 s s' cs.
Proof. inversion 1; subst; auto. Qed.

Lemma matches_time_inv s s' cs :
  matches (Group TIME_ALTERNATIVES) s s' cs ->
  exists t, s = t ++ s' /\ t <> [] /\ allIn NonSpace t /\ cs = [t].
Proof.
  intros H. apply matches_group_inv in H. destruct H as (w & c0 & -> & M & ->).
  exists w. split; auto. unfold TIME_ALTERNATIVES in M.
  repeat (apply matches_alt_inv in M; destruct M as [M|M];
          [apply matches_lit_inv in M; destruct M as [E ->];
           apply app_inv_tail in E; subst w;
           repeat split; [discriminate|repeat constructor]|]).
  apply matches_plus_inv in M. destruct M as (w' & E & Hne & Hw & ->).
  apply app_inv_tail in E. subst w'. auto.
Qed.

Lemma matches_kind_inv s s' cs :
  matches (Group (Alt (Lit [c_NEI]) (Lit [c_WAI]))) s s' cs ->
  exists kind, s = kind ++ s' /\ In kind LOCATION_TYPES /\ cs = [kind].
Proof.
  intros H. apply matches_group_inv in H. destruct H as (w & c0 & -> & M & ->).
  exists w. split; auto.
  apply matches_alt_inv in M. destruct M as [M|M];
    apply matches_lit_inv in M; destruct M as [E ->];
    apply app_inv_tail in E; subst w; split; auto; simpl; auto.
Qed.

(** What a line that matches the header pattern looks like. *)
Lemma header_regex_inv line m :
  exec SCENE_HEADER_REGEX line = Some m ->
  exists d1 d2 w1 t w2 kind w3 l,
    line = d1 ++ [c_DASH] ++ d2 ++ w1 ++ t ++ w2 ++ kind ++ w3 ++ l
    /\ isNumeral d1 /\ isNumeral d2
    /\ (w1 <> [] /\ allIn Space w1) /\ (t <> [] /\ allIn NonSpace t)
    /\ (w2 <> [] /\ allIn Space w2) /\ In kind LOCATION_TYPES
    /\ (w3 <> [] /\ allIn Space w3) /\ (l <> [] /\ allIn Dot l).
Proof.
  unfold exec. intros H.
  destruct (run SCENE_HEADER_REGEX line (fun s' => Some s')) as [[cs s']|] eqn:E;
    [|discriminate].
  clear H. apply run_sound in E. destruct E as (s0 & M & _).
  unfold SCENE_HEADER_REGEX in M.
  apply matches_seq_inv in M. destruct M as (s1 & ? & ? & M1 & M & _).
  apply matches_group_plus_inv in M1. destruct M1 as (d1 & -> & N1 & D1 & _).
  apply matches_seq_inv in M. destruct M as (s2 & ? & ? & M1 & M & _).
  apply matches_lit_inv in M1. destruct M1 as [-> _].
  apply matches_seq_inv in M. destruct M as (s3 & ? & ? & M1 & M & _).
  apply matches_group_plus_inv in M1. destruct M1 as (d2 & -> & N2 & D2 & _).
  apply matches_seq_inv in M. destruct M as (s4 & ? & ? & M1 & M & _).
  apply matches_plus_inv in M1. destruct M1 as (w1 & -> & V1 & W1 & _).
  apply matches_seq_inv in M. destruct M as (s5 & ? & ? & M1 & M & _).
  apply matches_time_inv in M1. destruct M1 as (t & -> & Nt & Dt & _).
  apply matches_seq_inv in M. destruct M as (s6 & ? & ? & M1 & M & _).
  apply matches_plus_inv in M1. destruct M1 as (w2 & -> & V2 & W2 & _).
  apply matches_seq_inv in M. destruct M as (s7 & ? & ? & M1 & M & _).
  apply matches_kind_inv in M1. destruct M1 as (kind & -> & Hk & _).
  apply matches_seq_inv in M. destruct M as (s8 & ? & ? & M1 & M & _).
  apply matches_plus_inv in M1. destruct M1 as (w3 & -> & V3 & W3 & _).
  apply matches_seq_inv in M. destruct M as (s9 & ? & ? & M1 & M & _).
  apply matches_group_plus_inv in M1. destruct M1 as (l & -> & Nl & Dl & _).
  apply matches_eol_inv in M. destruct M as (-> & _ & _).
  exists d1, d2, w1, t, w2, kind, w3, l. rewrite app_nil_r.
  repeat split; auto.
Qed.

(** ** The validator and the parser accept the same lines *)

Lemma splitWs_nonempty s : JS.splitWs s <> [].
Proof.
  induction s as [|c s IH]; simpl; [discriminate|].
  destruct (isWhiteSpace c).
  - destruct s as [|c' s']; [discriminate|]. destruct (isWhiteSpace c'); [exact IH|discriminate].
  - destruct (JS.splitWs s); discriminate.
Qed.

Lemma splitWs_space w rest :
  w <> [] -> allIn Space w -> stops Space rest ->
  JS.splitWs (w ++ rest) = [] :: JS.splitWs rest.
Proof.
  intros Hne Hw Hrest. unfold allIn in Hw. revert Hne.
  induction Hw as [|x w Hx Hw IH]; intros Hne; [congruence|].
  cbn [mem] in Hx. cbn [app JS.splitWs]. rewrite Hx.
  destruct w as [|y w].
  - cbn [app]. destruct rest as [|c' rest']; auto.
    simpl in Hrest. now rewrite Hrest.
  - inversion Hw; subst. cbn [app]. cbn [mem] in *.
    match goal with H : isWhiteSpace y = true |- _ => rewrite H end.
    apply IH. discriminate.
Qed.

Lemma splitWs_word t w rest :
  allIn NonSpace t -> w <> [] -> allIn Space w -> stops Space rest ->
  JS.splitWs (t ++ w ++ rest) = t :: JS.splitWs rest.
Proof.
  intros Ht Hne Hw Hrest. unfold allIn in Ht. induction Ht as [|x t Hx _ IH].
  - cbn [app]. now apply splitWs_space.
  - cbn [app JS.splitWs]. cbn [mem] in Hx.
    destruct (isWhiteSpace x); [discriminate|]. now rewrite IH.
Qed.

Lemma stops_rev_tail (a l : str) :
  l <> [] -> stops Space (rev (a ++ l)) -> stops Space (rev l).
Proof.
  intros Hne. rewrite rev_app_distr.
  destruct (rev l) as [|x u] eqn:E; simpl; auto.
Qed.

Lemma stops_rev_head (a l : str) :
  l <> [] -> stops Space (rev l) -> stops Space (rev (a ++ l)).
Proof.
  intros Hne. rewrite rev_app_distr.
  destruct (rev l) as [|x u] eqn:E; simpl; auto.
  apply (f_equal (@rev _)) in E. rewrite rev_involutive in E. simpl in E.
  congruence.
Qed.

Lemma validateSceneHeader_invalid line :
  exec SCENE_HEADER_REGEX (JS.trim line) = None ->
  valid (validateSceneHeader line) = false.
Proof.
  intros E. unfold validateSceneHeader. rewrite E.
  repeat match goal with
         | |- context [if ?b then _ else _] => destruct b
         | |- context [match ?x with Some _ => _ | None => _ end] => destruct x
         end; reflexivity.
Qed.

Lemma validateSceneHeader_valid line m :
  exec SCENE_HEADER_REGEX (JS.trim line) = Some m ->
  validateSceneHeader line = {| valid := true; errors := [] |}.
Proof.
  intros E. pose proof (trim_trimmed line) as [_ Hend].
  unfold validateSceneHeader. rewrite E.
  set (tl := JS.trim line) in *.
  destruct (@header_regex_inv _ _ E)
    as (d1 & d2 & w1 & t & w2 & kind & w3 & l & Etl & N1 & N2 & [V1 W1] & [Nt Dt]
        & [V2 W2] & Hk & [V3 W3] & [Nl Dl]).
  clearbody tl. subst tl.
  assert (Hl : stops Space (rev l)).
  { apply (@stops_rev_tail (d1 ++ [c_DASH] ++ d2 ++ w1 ++ t ++ w2 ++ kind ++ w3) l);
      auto. now rewrite <- !app_assoc. }
  set (rest1 := t ++ w2 ++ kind ++ w3 ++ l) in *.
  assert (Hne : isEmpty (d1 ++ [c_DASH] ++ d2 ++ w1 ++ rest1) = false)
    by (destruct N1 as [N1 _]; destruct d1; [congruence|reflexivity]).
  rewrite Hne.
  rewrite number_regex_exec; auto.
  2:{ destruct w1 as [|x w1]; [congruence|]. inversion W1; subst.
      simpl. now apply space_not_digit. }
  cbn [at_ nth]. unfold JS.substring.
  assert (Hskip : skipn (length (d1 ++ [c_DASH] ++ d2)) (d1 ++ [c_DASH] ++ d2 ++ w1 ++ rest1)
                  = w1 ++ rest1).
  { replace (d1 ++ [c_DASH] ++ d2 ++ w1 ++ rest1)
      with ((d1 ++ [c_DASH] ++ d2) ++ w1 ++ rest1) by (now rewrite <- !app_assoc).
    now rewrite skipn_app, skipn_all, Nat.sub_diag. }
  rewrite Hskip.
  assert (Ht1 : stops Space rest1).
  { unfold rest1. destruct t as [|y t]; [congruence|]. inversion Dt; subst.
    simpl in *. now destruct (isWhiteSpace y). }
  assert (Htrim : JS.trim (w1 ++ rest1) = rest1).
  { rewrite <- (app_nil_r rest1) at 1. apply trim_pad; auto.
    - constructor.
    - unfold rest1. destruct t; [congruence|discriminate].
    - split; auto. unfold rest1. rewrite !app_assoc. now apply stops_rev_head. }
  rewrite Htrim.
  assert (Hne1 : isEmpty rest1 = false)
    by (unfold rest1; destruct t; [congruence|reflexivity]).
  rewrite Hne1.
  destruct (dropWhile_split isWhiteSpace l) as (u & El & Hu & Hs).
  set (l' := JS.dropWhile isWhiteSpace l) in *.
  assert (Hparts : JS.splitWs rest1 = t :: kind :: JS.splitWs l').
  { unfold rest1. rewrite splitWs_word; auto.
    - f_equal. rewrite El.
      replace (kind ++ w3 ++ u ++ l') with (kind ++ (w3 ++ u) ++ l')
        by (now rewrite <- !app_assoc).
      apply splitWs_word.
      + destruct Hk as [<-|[<-|[]]]; repeat constructor.
      + destruct w3; [congruence|discriminate].
      + apply Forall_app. split; auto.
      + destruct l'; simpl in *; auto.
    - destruct Hk as [<-|[<-|[]]]; reflexivity. }
  rewrite Hparts. pose proof (splitWs_nonempty l') as Hp.
  destruct (JS.splitWs l') as [|p ps]; [congruence|].
  destruct t as [|y t]; [congruence|].
  destruct Hk as [<-|[<-|[]]]; reflexivity.
Qed.

(** C10: for every input line, [validateSceneHeader] returns
    [valid = true] if and only if [parseSceneHeader] returns a header: the
    staged validator and the one-shot parser accept the same lines. *)
Theorem validate_accepts_what_parse_accepts :
  forall line,
    valid (validateSceneHeader line) = true <-> parseSceneHeader line <> None.
Proof.
  intros line. unfold parseSceneHeader.
  destruct (exec SCENE_HEADER_REGEX (JS.trim line)) as [m|] eqn:E.
  - rewrite (validateSceneHeader_valid line E). split; [discriminate|reflexivity].
  - rewrite (validateSceneHeader_invalid line E). split; [discriminate|congruence].
Qed.

(** * The header grammar and the index *)

(** ** The header grammar *)

Lemma parseDigits_nonneg d acc : 0 <= acc -> 0 <= JS.parseDigits acc d.
Proof.
  revert acc. induction d as [|c d IH]; intros acc H; cbn [JS.parseDigits]; auto.
  destruct (isDigit c); auto. apply IH. lia.
Qed.

Lemma stops_dropWhile_space s : stops Space (JS.dropWhile isWhiteSpace s).
Proof.
  destruct (dropWhile_split isWhiteSpace s) as (w & _ & _ & H).
  destruct (JS.dropWhile isWhiteSpace s); simpl in *; auto.
Qed.

Lemma space_run_cons w : w <> [] -> allIn Space w ->
  exists x w', w = x :: w' /\ isWhiteSpace x = true.
Proof.
  intros Hne Hw. destruct w as [|x w']; [congruence|].
  exists x, w'. split; auto. now inversion Hw.
Qed.

(** A line that matches the header pattern and ends with a visible
    character, with the captures the pattern returns. *)
Lemma header_regex_captures t m :
  stops Space (rev t) -> exec SCENE_HEADER_REGEX t = Some m ->
  exists d1 d2 w1 time w2 kind w3 l,
    t = d1 ++ [c_DASH] ++ d2 ++ w1 ++ time ++ w2 ++ kind ++ w3 ++ l
    /\ isNumeral d1 /\ isNumeral d2
    /\ (w1 <> [] /\ allIn Space w1) /\ (time <> [] /\ allIn NonSpace time)
    /\ (w2 <> [] /\ allIn Space w2) /\ In kind LOCATION_TYPES
    /\ (w3 <> [] /\ allIn Space w3)
    /\ (l <> [] /\ allIn Dot l /\ trimmed l)
    /\ m = [t; d1; d2; time; kind; l].
Proof.
  intros Hend E.
  destruct (@header_regex_inv _ _ E)
    as (d1 & d2 & w1 & time & w2 & kind & w3 & l0 & Et & N1 & N2 & [V1 W1] & [Nt Dt]
        & [V2 W2] & Hk & [V3 W3] & [Nl Dl]).
  assert (Hl0 : stops Space (rev l0)).
  { apply (@stops_rev_tail (d1 ++ [c_DASH] ++ d2 ++ w1 ++ time ++ w2 ++ kind ++ w3) l0);
      auto. rewrite <- !app_assoc. now rewrite <- Et. }
  destruct (dropWhile_split isWhiteSpace l0) as (u & El & Hu & _).
  pose proof (stops_dropWhile_space l0) as Sl.
  set (l := JS.dropWhile isWhiteSpace l0) in *.
  assert (Nl' : l <> []).
  { intros Hnil. rewrite Hnil, app_nil_r in El. subst u.
    destruct (rev l0) as [|x r] eqn:Er.
    - apply (f_equal (@rev _)) in Er. rewrite rev_involutive in Er. now subst.
    - simpl in Hl0. apply rev_head_last in Er. rewrite Er in Hu.
      apply Forall_app in Hu. destruct Hu as [_ Hu]. inversion Hu; subst. congruence. }
  assert (Hl : stops Space (rev l)).
  { apply (@stops_rev_tail u l); auto. now rewrite <- El. }
  assert (Dl' : allIn Dot l).
  { unfold allIn in Dl. rewrite El in Dl. apply Forall_app in Dl. tauto. }
  assert (Et' : t = d1 ++ [c_DASH] ++ d2 ++ w1 ++ time ++ w2 ++ kind ++ (w3 ++ u) ++ l).
  { rewrite Et, El. now rewrite <- !app_assoc. }
  exists d1, d2, w1, time, w2, kind, (w3 ++ u), l.
  split; [exact Et'|]. split; [exact N1|]. split; [exact N2|].
  split; [now split|]. split; [now split|]. split; [now split|].
  split; [exact Hk|].
  split; [split; [destruct w3; [congruence|discriminate]|apply Forall_app; now split]|].
  split; [repeat split; auto|].
  destruct (space_run_cons V1 W1) as (x1 & w1' & -> & _).
  destruct (space_run_cons V2 W2) as (x2 & w2' & -> & _).
  destruct (space_run_cons V3 W3) as (x3 & w3' & -> & _).
  assert (W3' : allIn Space ((x3 :: w3') ++ u)) by (apply Forall_app; now split).
  pose proof (@header_regex_run _ d1 d2 x1 w1' time x2 w2' kind x3 (w3' ++ u) l
                (fun s' => Some s') [] N1 N2 W1 Nt Dt W2 Hk W3' Nl' Dl' Sl eq_refl) as R.
  unfold exec in E. rewrite Et' in E.
  cbn [app] in E, R. rewrite R in E. rewrite consumed_all in E.
  inversion E. now rewrite Et'.
Qed.

Lemma parseSceneHeader_inv line h :
  parseSceneHeader line = Some h -> headerLayout (JS.trim line) h.
Proof.
  unfold parseSceneHeader. intros H.
  destruct (exec SCENE_HEADER_REGEX (JS.trim line)) as [m|] eqn:E; [|discriminate].
  pose proof (trim_trimmed line) as [_ Hend].
  destruct (@header_regex_captures _ _ Hend E)
    as (d1 & d2 & w1 & time & w2 & kind & w3 & l & Et & N1 & N2 & H1 & Ht & H2 & Hk
        & H3 & (Nl & Dl & Tl) & ->).
  inversion H; subst h; clear H. cbn [at_ nth].
  rewrite (trim_of_trimmed Tl).
  exists d1, d2, w1, w2, w3.
  cbn [h_episode h_scene h_time h_locationType h_location].
  destruct Tl as [Sl Sr], H1, Ht, H2, H3, N1, N2. repeat split; auto.
Qed.

Lemma parseSceneHeader_of_layout line h :
  headerLayout (JS.trim line) h -> parseSceneHeader line = Some h.
Proof.
  intros (d1 & d2 & w1 & w2 & w3 & Et & N1 & N2 & He & Hs & [V1 W1] & [Nt Dt]
          & [V2 W2] & Hk & [V3 W3] & (Nl & Dl & [Sl Sr])).
  destruct (space_run_cons V1 W1) as (x1 & w1' & -> & _).
  destruct (space_run_cons V2 W2) as (x2 & w2' & -> & _).
  destruct (space_run_cons V3 W3) as (x3 & w3' & -> & _).
  unfold parseSceneHeader, exec. rewrite Et.
  rewrite (@header_regex_run _ d1 d2 x1 w1' (h_time h) x2 w2' (h_locationType h)
             x3 w3' (h_location h) (fun s' => Some s') []); auto.
  rewrite consumed_all. cbn [at_ nth].
  rewrite (trim_of_trimmed (conj Sl Sr)), <- He, <- Hs. now destruct h.
Qed.

(** X1: [parseSceneHeader] accepts exactly the lines whose trimmed text
    has the header layout (numeral, dash, numeral, white space, one visible
    word, white space, 内 or 外, white space, a location that starts and
    ends with a visible character and has no line terminator), and the
    header it returns holds what [parseInt] makes of the two numerals
    (their values, rounded to the nearest double) and those very parts. *)
Theorem parseSceneHeader_accepts_layout :
  forall line h,
    parseSceneHeader line = Some h <-> headerLayout (JS.trim line) h.
Proof.
  intros line h. split.
  - apply parseSceneHeader_inv.
  - apply parseSceneHeader_of_layout.
Qed.

Lemma formatHeader_layout h :
  plainNumber (h_episode h) -> plainNumber (h_scene h) ->
  h_time h <> [] -> allIn NonSpace (h_time h) ->
  In (h_locationType h) LOCATION_TYPES ->
  h_location h <> [] -> allIn Dot (h_location h) -> trimmed (h_location h) ->
  headerLayout (JS.trim (formatHeader h)) h.
Proof.
  intros He Hs Nt Dt Hk Nl Dl [Sl Sr].
  destruct (numberToString_spec He) as [Ne Pe].
  destruct (numberToString_spec Hs) as [Ns Ps].
  unfold formatHeader, generateSceneHeaderTemplate. cbn [n_episode n_scene].
  set (de := JS.numberToString (h_episode h)) in *.
  set (ds := JS.numberToString (h_scene h)) in *.
  rewrite trim_of_trimmed.
  - exists de, ds, [c_SP], [c_SP], [c_SP].
    repeat split; auto; try discriminate; try (repeat constructor);
      try (now destruct Ne); try (now destruct Ns).
  - replace (de ++ [c_DASH] ++ ds ++ [c_SP] ++ h_time h ++ [c_SP]
                ++ h_locationType h ++ [c_SP] ++ h_location h)
      with ((de ++ [c_DASH] ++ ds ++ [c_SP] ++ h_time h ++ [c_SP]
                ++ h_locationType h ++ [c_SP]) ++ h_location h)
      by (now rewrite <- !app_assoc).
    apply trimmed_app; auto.
    + destruct Ne as [Ne _]. destruct de; [congruence|discriminate].
    + now apply numeral_head_visible.
Qed.

(** X2: a parsed header with numbers below 10^21 is in canonical form:
    writing it out with the header template and parsing that line gives the
    same header again, for every line the parser reads an episode and a
    scene below 10^21 from (leading zeros and extra spaces of the original
    line are gone after the first parse; from 10^21 on the template writes
    the number with an exponent). *)
Theorem parseSceneHeader_canonical :
  forall line h,
    parseSceneHeader line = Some h ->
    h_episode h < 10 ^ 21 -> h_scene h < 10 ^ 21 ->
    parseSceneHeader (formatHeader h) = Some h.
Proof.
  intros line h H Be Bs. apply parseSceneHeader_inv in H.
  destruct H as (d1 & d2 & w1 & w2 & w3 & _ & _ & _ & He & Hs & _ & [Nt Dt]
                 & _ & Hk & _ & (Nl & Dl & Tl)).
  destruct (parseInt_double d1) as [D1 P1], (parseInt_double d2) as [D2 P2].
  rewrite <- He in D1, P1. rewrite <- Hs in D2, P2.
  apply parseSceneHeader_of_layout, formatHeader_layout; auto; now repeat split.
Qed.

Lemma parseSceneHeader_canonical_witness :
  parseSceneHeader
    (formatHeader (header 1 2 [c_RI] [c_NEI] [97; 32; 98]%N))
  = Some (header 1 2 [c_RI] [c_NEI] [97; 32; 98]%N).
Proof.
  apply (@parseSceneHeader_canonical
           [32; 48; 49; 45; 48; 50; 32; 32; 26085; 9; 20869; 32; 97; 32; 98; 32]%N).
  - vm_compute. reflexivity.
  - reflexivity.
  - reflexivity.
Defined.

(** X3: the number extractor agrees with the header parser: on every line
    that [parseSceneHeader] accepts, [isSceneNumberLine] is true and
    [extractSceneNumber] returns the episode and scene of the parsed
    header. *)
Theorem extractSceneNumber_agrees_with_header :
  forall line h,
    parseSceneHeader line = Some h ->
    isSceneNumberLine line = true
    /\ extractSceneNumber line
       = Some {| n_episode := h_episode h; n_scene := h_scene h |}.
Proof.
  intros line h H. apply parseSceneHeader_inv in H.
  destruct H as (d1 & d2 & w1 & w2 & w3 & Et & N1 & N2 & He & Hs & [V1 W1] & _).
  assert (E : exec SCENE_NUMBER_REGEX (JS.trim line)
              = Some [d1 ++ [c_DASH] ++ d2; d1; d2]).
  { rewrite Et. apply number_regex_exec; auto.
    destruct (space_run_cons V1 W1) as (x & w' & -> & Hx).
    simpl. now apply space_not_digit. }
  unfold isSceneNumberLine, test, extractSceneNumber. rewrite E.
  cbn [at_ nth]. now rewrite He, Hs.
Qed.

Lemma extractSceneNumber_agrees_with_header_witness :
  extractSceneNumber [49; 45; 50; 32; 26085; 32; 20869; 32; 97]%N
  = Some {| n_episode := 1; n_scene := 2 |}.
Proof.
  apply (@extractSceneNumber_agrees_with_header
           [49; 45; 50; 32; 26085; 32; 20869; 32; 97]%N
           (header 1 2 [c_RI] [c_NEI] [97%N])).
  vm_compute. reflexivity.
Defined.

(** X4: scene numbers round-trip through their text: for every number
    whose episode and scene are non-negative integers below 10^21,
    [extractSceneNumber] reads [formatSceneNumber] back. *)
Theorem extractSceneNumber_formatSceneNumber :
  forall n,
    plainNumber (n_episode n) -> plainNumber (n_scene n) ->
    extractSceneNumber (formatSceneNumber n) = Some n.
Proof.
  intros [e s] He Hs. cbn [n_episode n_scene] in *. unfold formatSceneNumber.
  cbn [n_episode n_scene].
  rewrite <- (app_nil_r (JS.numberToString s)).
  now apply extractSceneNumber_printed.
Qed.

Lemma extractSceneNumber_formatSceneNumber_witness :
  extractSceneNumber (formatSceneNumber {| n_episode := 12; n_scene := 0 |})
  = Some {| n_episode := 12; n_scene := 0 |}.
Proof.
  apply extractSceneNumber_formatSceneNumber;
    (split; [split; [cbn; lia|reflexivity]|reflexivity]).
Defined.

(** X5: a validation result is consistent: [valid] is true exactly when
    the list of errors is empty, so an invalid line always comes with at
    least one error to show. *)
Theorem validateSceneHeader_valid_iff_no_errors :
  forall line,
    valid (validateSceneHeader line) = true
    <-> errors (validateSceneHeader line) = [].
Proof.
  intros line. unfold validateSceneHeader.
  destruct (isEmpty (JS.trim line)); [cbn; split; discriminate|].
  destruct (exec SCENE_NUMBER_REGEX (JS.trim line)) as [numberMatch|];
    [|cbn; split; discriminate].
  destruct (isEmpty _); [cbn; split; discriminate|].
  match goal with
  | |- context [if (0 <? length ?e)%nat then _ else _] =>
      set (errors3 := e); destruct (Nat.ltb_spec 0 (length errors3)) as [L|L]
  end.
  - cbn [valid errors]. split; [discriminate|]. intros E. rewrite E in L.
    simpl in L. lia.
  - destruct (exec SCENE_HEADER_REGEX (JS.trim line)); cbn [valid errors].
    + split; reflexivity.
    + split; [discriminate|]. intros E. destruct errors3; discriminate E.
Qed.

(** ** Character lists and tags *)

Lemma trim_decompose s :
  exists pre post,
    s = pre ++ JS.trim s ++ post /\ allIn Space pre /\ allIn Space post.
Proof.
  unfold JS.trim, JS.trimEnd, JS.trimStart.
  destruct (dropWhile_split isWhiteSpace s) as (pre & E1 & H1 & _).
  set (t := JS.dropWhile isWhiteSpace s) in *.
  destruct (dropWhile_split isWhiteSpace (rev t)) as (w & E2 & H2 & _).
  exists pre, (rev w). split; [|split]; auto.
  - rewrite <- rev_app_distr, <- E2, rev_involutive. exact E1.
  - apply Forall_forall. intros c Hc. apply in_rev in Hc.
    rewrite Forall_forall in H2. now apply H2.
Qed.

Lemma removeWhiteSpace_app a b :
  JS.removeWhiteSpace (a ++ b) = JS.removeWhiteSpace a ++ JS.removeWhiteSpace b.
Proof. apply filter_app. Qed.

Lemma removeWhiteSpace_space w : allIn Space w -> JS.removeWhiteSpace w = [].
Proof.
  induction 1 as [|x w Hx _ IH]; simpl; auto. simpl in Hx. now rewrite Hx.
Qed.

Lemma removeWhiteSpace_trim s : JS.removeWhiteSpace (JS.trim s) = JS.removeWhiteSpace s.
Proof.
  destruct (trim_decompose s) as (pre & post & E & Hpre & Hpost).
  rewrite E at 2. rewrite !removeWhiteSpace_app.
  now rewrite (removeWhiteSpace_space Hpre), (removeWhiteSpace_space Hpost), app_nil_r.
Qed.

Lemma splitWs_pieces_visible s : Forall (allIn NonSpace) (JS.splitWs s).
Proof.
  induction s as [|c s IH]; cbn [JS.splitWs].
  - repeat constructor.
  - destruct (isWhiteSpace c) eqn:Hc.
    + destruct s as [|c' s']; [repeat constructor|].
      destruct (isWhiteSpace c'); [exact IH|]. constructor; [constructor|exact IH].
    + destruct (JS.splitWs (s)) as [|l ls].
      * repeat constructor. simpl. now rewrite Hc.
      * inversion IH; subst. constructor; auto. constructor; auto.
        simpl. now rewrite Hc.
Qed.

Lemma splitWs_concat s : concat (JS.splitWs s) = JS.removeWhiteSpace s.
Proof.
  induction s as [|c s IH]; cbn [JS.splitWs]; [reflexivity|].
  unfold JS.removeWhiteSpace in *. cbn [filter].
  destruct (isWhiteSpace c) eqn:Hc; cbn [negb].
  - destruct s as [|c' s']; [reflexivity|].
    destruct (isWhiteSpace c') eqn:Hc'; [exact IH|]. cbn [concat app]. exact IH.
  - destruct (JS.splitWs s) as [|l ls].
    + cbn in IH. rewrite <- IH. reflexivity.
    + cbn [concat] in *. cbn [app]. now rewrite IH.
Qed.

Lemma concat_filter_nonempty (l : list str) :
  concat (filter (fun name => (0 <? length name)%nat) l) = concat l.
Proof.
  induction l as [|x l IH]; auto.
  destruct x as [|c x]; simpl; auto. now rewrite <- IH.
Qed.

(** X6: when [parseCharacterList] returns a list, it holds at least one
    name, every name is non-empty and free of white space, and together the
    names are the text after the marker 人 with its white space removed:
    nothing but white space is lost. *)
Theorem parseCharacterList_names :
  forall line names,
    parseCharacterList line = Some names ->
    names <> []
    /\ Forall (fun name => name <> [] /\ allIn NonSpace name) names
    /\ c_REN :: concat names = JS.removeWhiteSpace line.
Proof.
  intros line names H. unfold parseCharacterList, exec in H.
  destruct (run CHARACTER_LIST_REGEX (JS.trim line) (fun s' => Some s'))
    as [[cs s']|] eqn:E; [|discriminate].
  apply run_sound in E. destruct E as (s0 & M & _).
  unfold CHARACTER_LIST_REGEX in M.
  apply matches_seq_inv in M. destruct M as (s1 & ? & ? & M1 & M & ->).
  apply matches_lit_inv in M1. destruct M1 as [Et ->].
  apply matches_seq_inv in M. destruct M as (s2 & ? & ? & M1 & M & ->).
  apply matches_plus_inv in M1. destruct M1 as (w & -> & Vw & Ww & ->).
  apply matches_seq_inv in M. destruct M as (s3 & ? & ? & M1 & M & ->).
  apply matches_group_plus_inv in M1. destruct M1 as (l & -> & Nl & Dl & ->).
  apply matches_eol_inv in M. destruct M as (-> & _ & ->).
  cbn [app at_ nth] in H. inversion H; subst names; clear H.
  rewrite app_nil_r in Et.
  assert (Hcat : concat (filter (fun name => (0 <? length name)%nat) (JS.splitWs l))
                 = JS.removeWhiteSpace l)
    by (now rewrite concat_filter_nonempty, splitWs_concat).
  assert (Hvis : JS.removeWhiteSpace l <> []).
  { pose proof (trim_trimmed line) as [_ Hend]. rewrite Et in Hend.
    apply (@stops_rev_tail ([c_REN] ++ w) l) in Hend; auto.
    destruct (rev l) as [|x r] eqn:Er.
    - apply (f_equal (@rev _)) in Er. rewrite rev_involutive in Er. now subst.
    - apply rev_head_last in Er. rewrite Er, removeWhiteSpace_app.
      simpl in Hend. unfold JS.removeWhiteSpace at 2. cbn [filter].
      rewrite Hend. cbn [negb]. destruct (JS.removeWhiteSpace (rev r)); discriminate. }
  split; [|split].
  - intros Hnil. rewrite Hnil in Hcat. cbn in Hcat. congruence.
  - apply Forall_forall. intros name Hin. apply filter_In in Hin.
    destruct Hin as [Hin Hlen]. split.
    + destruct name; [discriminate|discriminate].
    + pose proof (splitWs_pieces_visible l) as Hp. rewrite Forall_forall in Hp.
      now apply Hp.
  - rewrite Hcat, <- (removeWhiteSpace_trim line), Et.
    rewrite !removeWhiteSpace_app, (removeWhiteSpace_space Ww). reflexivity.
Qed.

Lemma parseCharacterList_names_witness :
  [[97%N]; [98%N]] <> []
  /\ Forall (fun name => name <> [] /\ allIn NonSpace name) [[97%N]; [98%N]]
  /\ c_REN :: concat [[97%N]; [98%N]]
     = JS.removeWhiteSpace [32; 20154; 9; 97; 32; 32; 98; 32]%N.
Proof.
  apply (@parseCharacterList_names [32; 20154; 9; 97; 32; 32; 98; 32]%N).
  vm_compute. reflexivity.
Defined.

Lemma execAllFuel_tags fuel :
  forall s,
    Forall (fun m => at_ m 1 <> [] /\ allIn Dot (at_ m 1))
           (execAllFuel fuel TAG_REGEX s).
Proof.
  induction fuel as [|f IH]; intros s; cbn [execAllFuel]; [constructor|].
  destruct s as [|c s']; [constructor|].
  destruct (run TAG_REGEX (c :: s') (fun rest => Some rest)) as [[caps rest]|] eqn:E;
    [|apply IH].
  constructor; [|apply IH].
  apply run_sound in E. destruct E as (s0 & M & _). unfold TAG_REGEX in M.
  apply matches_seq_inv in M. destruct M as (s1 & ? & ? & M1 & M & ->).
  apply matches_lit_inv in M1. destruct M1 as [_ ->].
  apply matches_seq_inv in M. destruct M as (s2 & ? & ? & M1 & M & ->).
  apply matches_group_inv in M1. destruct M1 as (w & c0 & -> & M1 & ->).
  inversion M1 as [| | | | | | |? w' ? Nw Dw| |]; subst.
  match goal with H : _ ++ _ = _ ++ _ |- _ => apply app_inv_tail in H; subst end.
  cbn [app at_ nth]. now split.
Qed.

(** X7: every tag [parseSceneTags] extracts is non-empty and holds no
    line terminator, whatever the text. *)
Theorem parseSceneTags_tags :
  forall text,
    Forall (fun tag => tag <> [] /\ allIn Dot tag) (parseSceneTags text).
Proof.
  intros text. unfold parseSceneTags, execAll. apply Forall_map.
  apply execAllFuel_tags.
Qed.

(** ** What the index holds *)

Lemma updateLast_map (B : Type) (g : SceneInfo -> B) f l :
  (forall s, g (f s) = g s) -> map g (updateLast f l) = map g l.
Proof.
  intros Hf. induction l as [|x [|y l] IH]; simpl in *; auto.
  - now rewrite Hf.
  - now rewrite IH.
Qed.

Lemma flashback_marker_no_header line :
  str_eqb (JS.trim line) FLASHBACK_START = true
  \/ str_eqb (JS.trim line) FLASHBACK_END = true ->
  parseSceneHeader line = None.
Proof.
  unfold parseSceneHeader. intros [H|H]; apply str_eqb_eq in H; now rewrite H.
Qed.

Lemma parseSceneHeader_trim line :
  parseSceneHeader (JS.trim line) = parseSceneHeader line.
Proof. unfold parseSceneHeader. now rewrite trim_idempotent. Qed.

Lemma header_eta h :
  {| h_episode := h_episode h; h_scene := h_scene h; h_time := h_time h;
     h_locationType := h_locationType h; h_location := h_location h |} = h.
Proof. now destruct h. Qed.

(** One step of the scan adds the header of its line, if it is one, and
    keeps the largest episode in [maxEpisode]. *)
Lemma scanLine_headers lineIndex line st :
  map sceneHeaderOf (sc_scenes (scanLine lineIndex line st))
  = map sceneHeaderOf (sc_scenes st) ++ headerLines lineIndex [line].
Proof.
  unfold scanLine. cbn [headerLines].
  destruct (str_eqb (JS.trim line) FLASHBACK_START) eqn:E1.
  { rewrite flashback_marker_no_header by auto. now rewrite app_nil_r. }
  destruct (str_eqb (JS.trim line) FLASHBACK_END) eqn:E2.
  { rewrite flashback_marker_no_header by auto. now rewrite app_nil_r. }
  rewrite parseSceneHeader_trim.
  destruct (parseSceneHeader line) as [parsedHeader|].
  - cbn [sc_scenes]. rewrite map_app. cbn [map]. unfold sceneHeaderOf at 2.
    cbn [s_line s_episode s_scene s_time s_locationType s_location].
    rewrite header_eta. f_equal.
    destruct ((sc_currentSceneStartLine st >=? 0) && (0 <? length (sc_scenes st))%nat);
      auto.
    now apply updateLast_map.
  - rewrite app_nil_r.
    destruct (sc_currentSceneStartLine st >=? 0); auto.
    destruct (parseCharacterList (JS.trim line)); cbn [sc_scenes]; auto.
    destruct (0 <? length (sc_scenes st))%nat; auto.
    now apply updateLast_map.
Qed.

Lemma headerLines_cons lineIndex line rest :
  headerLines lineIndex (line :: rest)
  = headerLines lineIndex [line] ++ headerLines (lineIndex + 1) rest.
Proof. cbn [headerLines]. now destruct (parseSceneHeader line). Qed.

Lemma scanLines_headers lines :
  forall lineIndex st,
    map sceneHeaderOf (sc_scenes (scanLines lineIndex lines st))
    = map sceneHeaderOf (sc_scenes st) ++ headerLines lineIndex lines.
Proof.
  induction lines as [|line rest IH]; intros lineIndex st.
  - cbn [scanLines headerLines]. now rewrite app_nil_r.
  - cbn [scanLines]. rewrite IH, scanLine_headers.
    rewrite (headerLines_cons lineIndex line rest). now rewrite app_assoc.
Qed.

Lemma buildIndex_headers now content hash :
  map sceneHeaderOf (i_scenes (buildIndex now content hash))
  = headerLines 0 (JS.split c_NL content).
Proof.
  unfold buildIndex. cbn [i_scenes].
  pose proof (scanLines_headers (JS.split c_NL content) 0 initialScan) as H.
  cbn [initialScan sc_scenes map app] in H.
  match goal with |- context [if ?b then _ else _] => destruct b end; auto.
  now rewrite updateLast_map.
Qed.

Lemma parseDocument_builds now content h this :
  parseDocument now content None h this
  = (length h, h ++ [buildIndex now content (calculateHash content)],
     {| index := length h |})
  /\ deref (h ++ [buildIndex now content (calculateHash content)]) (length h)
     = Some (buildIndex now content (calculateHash content)).
Proof.
  split; [reflexivity|].
  unfold deref. now rewrite nth_error_app2, Nat.sub_diag by lia.
Qed.

(** X8: the index holds one scene record for each line of the document
    that [parseSceneHeader] accepts, in the order of the lines, and each
    record carries the number of its line and the episode, scene, time,
    location kind and location parsed from that line; no other line
    produces a record. *)
Theorem parseDocument_scenes_are_header_lines :
  forall now content h this,
    let '(r, h', _) := parseDocument now content None h this in
    exists index,
      deref h' r = Some index
      /\ map sceneHeaderOf (i_scenes index)
         = headerLines 0 (JS.split c_NL content).
Proof.
  intros now content h this.
  destruct (parseDocument_builds now content h this) as [-> D].
  eexists. split; [exact D|apply buildIndex_headers].
Qed.

Lemma scanLine_maxEpisode lineIndex line st :
  sc_maxEpisode st = fold_left Z.max (map s_episode (sc_scenes st)) 0 ->
  sc_maxEpisode (scanLine lineIndex line st)
  = fold_left Z.max (map s_episode (sc_scenes (scanLine lineIndex line st))) 0.
Proof.
  intros H. unfold scanLine.
  destruct (str_eqb (JS.trim line) FLASHBACK_START); auto.
  destruct (str_eqb (JS.trim line) FLASHBACK_END); auto.
  destruct (parseSceneHeader (JS.trim line)) as [parsedHeader|].
  - cbn [sc_scenes sc_maxEpisode]. rewrite map_app, fold_left_app.
    cbn [map fold_left s_episode].
    assert (E : map s_episode
                  (if (sc_currentSceneStartLine st >=? 0)
                      && (0 <? length (sc_scenes st))%nat
                   then updateLast
                          (setCount
                             (countWords (JS.join [c_NL] (sc_currentSceneContent st)))
                             (sc_currentTags st)) (sc_scenes st)
                   else sc_scenes st)
                = map s_episode (sc_scenes st)).
    { destruct ((sc_currentSceneStartLine st >=? 0)
                && (0 <? length (sc_scenes st))%nat); auto.
      now apply updateLast_map. }
    rewrite E, <- H.
    destruct (Z.gtb_spec (h_episode parsedHeader) (sc_maxEpisode st)); lia.
  - destruct (sc_currentSceneStartLine st >=? 0); auto.
    destruct (parseCharacterList (JS.trim line)); cbn [sc_scenes sc_maxEpisode]; auto.
    destruct (0 <? length (sc_scenes st))%nat; auto.
    now rewrite updateLast_map.
Qed.

Lemma scanLines_maxEpisode lines :
  forall lineIndex st,
    sc_maxEpisode st = fold_left Z.max (map s_episode (sc_scenes st)) 0 ->
    sc_maxEpisode (scanLines lineIndex lines st)
    = fold_left Z.max (map s_episode (sc_scenes (scanLines lineIndex lines st))) 0.
Proof.
  induction lines as [|line rest IH]; intros lineIndex st H; cbn [scanLines]; auto.
  apply IH. now apply scanLine_maxEpisode.
Qed.

Lemma fold_max_bounds l :
  forall acc,
    acc <= fold_left Z.max l acc
    /\ Forall (fun x => x <= fold_left Z.max l acc) l
    /\ (fold_left Z.max l acc = acc \/ In (fold_left Z.max l acc) l).
Proof.
  induction l as [|x l IH]; intros acc; cbn [fold_left].
  - repeat split; auto; lia.
  - destruct (IH (Z.max acc x)) as (H1 & H2 & H3). repeat split.
    + lia.
    + constructor; auto. lia.
    + destruct H3 as [H3|H3]; [|right; now right].
      rewrite H3. destruct (Z.max_spec acc x) as [[_ ->]|[_ ->]]; auto.
      right. now left.
Qed.

(** X9: [episodeCount] of a built index is the largest episode number
    among its scenes, and 0 when there is no scene: no scene has a larger
    episode, and the count is 0 or the episode of one of the scenes. *)
Theorem parseDocument_episodeCount :
  forall now content h this,
    let '(r, h', _) := parseDocument now content None h this in
    exists index,
      deref h' r = Some index
      /\ i_episodeCount index = fold_left Z.max (map s_episode (i_scenes index)) 0
      /\ Forall (fun s => s_episode s <= i_episodeCount index) (i_scenes index)
      /\ (i_episodeCount index = 0
          \/ exists s, In s (i_scenes index) /\ s_episode s = i_episodeCount index).
Proof.
  intros now content h this.
  destruct (parseDocument_builds now content h this) as [-> D].
  eexists. split; [exact D|].
  assert (E : i_episodeCount (buildIndex now content (calculateHash content))
              = fold_left Z.max
                  (map s_episode (i_scenes (buildIndex now content (calculateHash content)))) 0).
  { unfold buildIndex. cbn [i_scenes i_episodeCount].
    rewrite (scanLines_maxEpisode (JS.split c_NL content) 0 initialScan) by reflexivity.
    match goal with |- context [if ?b then _ else _] => destruct b end; auto.
    now rewrite updateLast_map. }
  split; [exact E|].
  destruct (fold_max_bounds
              (map s_episode (i_scenes (buildIndex now content (calculateHash content)))) 0)
    as (_ & H2 & H3).
  rewrite <- E in H2, H3. split.
  - rewrite Forall_map in H2. exact H2.
  - destruct H3 as [H3|H3]; [now left|right].
    apply in_map_iff in H3. destruct H3 as (s & Hs & Hin). now exists s.
Qed.

(** ** Reparse, lookup by line, episodes *)

Lemma hexFuel_nonempty fuel n acc :
  (0 < fuel)%nat \/ acc <> [] -> JS.hexFuel fuel n acc <> [].
Proof.
  revert n acc. induction fuel as [|f IH]; intros n acc H; cbn [JS.hexFuel].
  - destruct H as [H|H]; [lia|exact H].
  - destruct (n / 16 =? 0)%N; [discriminate|]. apply IH. right. discriminate.
Qed.

Lemma calculateHash_nonempty content : calculateHash content <> [].
Proof.
  unfold calculateHash, JS.toString16.
  destruct (fold_left hashStep content 0); try discriminate;
    apply hexFuel_nonempty; left; lia.
Qed.

Lemma str_eqb_refl a : str_eqb a a = true.
Proof. now apply str_eqb_eq. Qed.

(** X10: after [parseDocument] has scanned a text, [needsReparse] of that
    text is false; after [reset], [needsReparse] is true for every text
    (the hash of a text is never the empty string the empty index
    carries). *)
Theorem needsReparse_after_parse_and_reset :
  (forall now content h this,
      let '(_, h', this') := parseDocument now content None h this in
      needsReparse content h' this' = false)
  /\ (forall now content h this,
         let '(h', this') := reset now h this in
         needsReparse content h' this' = true).
Proof.
  split.
  - intros now content h this.
    destruct (parseDocument_builds now content h this) as [-> D].
    unfold needsReparse. cbn [index]. rewrite D.
    unfold buildIndex. cbn [i_contentHash]. now rewrite str_eqb_refl.
  - intros now content h this. unfold reset, alloc, needsReparse. cbn [index].
    unfold deref. rewrite nth_error_app2, Nat.sub_diag by lia. cbn [nth_error].
    cbn [createEmptyIndex i_contentHash].
    pose proof (calculateHash_nonempty content) as Hne.
    destruct (calculateHash content); [congruence|reflexivity].
Qed.

Lemma sceneAtLineLoop_findAround scenes line result :
  sceneAtLineLoop scenes line result = fst (findAround scenes line result).
Proof.
  revert result. induction scenes as [|s rest IH]; intros result; simpl; auto.
  destruct (s_line s <=? line); auto.
Qed.

(** X11: the insertion number continues the scene the cursor is in: when
    [getSceneAtLine] finds a scene at the cursor line, [getNextSceneNumber]
    returns that scene's episode with the sum the code computes for its
    scene number and one (a sum of doubles, [JS.add]); when it finds none,
    the insertion number is scene 1 of the first scene's episode, or 1-1 in
    an empty index.  For a scene number from 0 to below 2^53 the sum is
    the scene number plus one (from 2^53 on the sum can be the scene number
    itself). *)
Theorem getNextSceneNumber_continues_scene_at_line :
  forall index cursorLine,
    getNextSceneNumber index cursorLine
    = match getSceneAtLine index cursorLine with
      | Some current =>
          {| n_episode := s_episode current;
             n_scene := JS.add (s_scene current) 1 |}
      | None =>
          match i_scenes index with
          | [] => {| n_episode := 1; n_scene := 1 |}
          | firstScene :: _ => {| n_episode := s_episode firstScene; n_scene := 1 |}
          end
      end
    /\ (forall current,
           getSceneAtLine index cursorLine = Some current ->
           0 <= s_scene current < 2 ^ 53 ->
           getNextSceneNumber index cursorLine
           = {| n_episode := s_episode current;
                n_scene := s_scene current + 1 |}).
Proof.
  intros index cursorLine.
  assert (G : getNextSceneNumber index cursorLine
              = match getSceneAtLine index cursorLine with
                | Some current =>
                    {| n_episode := s_episode current;
                       n_scene := JS.add (s_scene current) 1 |}
                | None =>
                    match i_scenes index with
                    | [] => {| n_episode := 1; n_scene := 1 |}
                    | firstScene :: _ =>
                        {| n_episode := s_episode firstScene; n_scene := 1 |}
                    end
                end).
  { unfold getNextSceneNumber, getSceneAtLine.
    rewrite sceneAtLineLoop_findAround.
    destruct (i_scenes index) as [|f rest] eqn:E; [reflexivity|].
    destruct (findAround (f :: rest) cursorLine None) as [[p|] [n|]];
      cbn [fst]; auto.
    destruct (s_episode p =? s_episode n); reflexivity. }
  split; [exact G|].
  intros current Hc Hb. rewrite G, Hc. now rewrite (add_one Hb).
Qed.

Lemma getNextSceneNumber_continues_scene_at_line_witness :
  getNextSceneNumber boundaryIndex 12 = {| n_episode := 2; n_scene := 2 |}.
Proof.
  apply (proj2 (getNextSceneNumber_continues_scene_at_line boundaryIndex 12)
           (sceneAt 2 1 10)).
  - reflexivity.
  - cbn. lia.
Defined.

Lemma last_cons (A : Type) (a : A) l d : last (a :: l) d = last l a.
Proof.
  revert a d. induction l as [|b l IH]; intros a d; [reflexivity|].
  change (last (a :: b :: l) d) with (last (b :: l) d). now rewrite !IH.
Qed.

Lemma sceneAtLineLoop_sorted scenes line :
  sortedByLine scenes ->
  forall result,
    sceneAtLineLoop scenes line result
    = last (map Some (filter (fun s => s_line s <=? line) scenes)) result.
Proof.
  unfold sortedByLine. induction scenes as [|s rest IH]; intros Hs result;
    cbn [sceneAtLineLoop filter map]; [reflexivity|].
  cbn [map] in Hs. inversion Hs as [|? ? Hs' Hlt]; subst.
  destruct (Z.leb_spec (s_line s) line) as [Hle|Hgt].
  - cbn [map]. rewrite last_cons. now apply IH.
  - assert (E : filter (fun s0 => s_line s0 <=? line) rest = []).
    { clear IH Hs Hs'. induction rest as [|q rest IH]; [reflexivity|].
      cbn [map] in Hlt. inversion Hlt; subst. cbn [filter].
      destruct (Z.leb_spec (s_line q) line); [lia|]. now apply IH. }
    now rewrite E.
Qed.

(** X12: in an index sorted by line, [getSceneAtLine] returns the last of
    the scenes whose header is at or before the given line, and nothing
    when there is no such scene. *)
Theorem getSceneAtLine_sorted :
  forall index line,
    sortedByLine (i_scenes index) ->
    getSceneAtLine index line
    = last (map Some (filter (fun s => s_line s <=? line) (i_scenes index))) None.
Proof.
  intros index line Hs. unfold getSceneAtLine. now apply sceneAtLineLoop_sorted.
Qed.

Lemma getSceneAtLine_sorted_witness :
  getSceneAtLine boundaryIndex 12 = Some (sceneAt 2 1 10).
Proof.
  rewrite getSceneAtLine_sorted.
  - reflexivity.
  - unfold sortedByLine. cbn. repeat constructor.
Defined.

Lemma setAdd_spec x set :
  NoDup set ->
  NoDup (setAdd x set) /\ (forall y, In y (setAdd x set) <-> y = x \/ In y set).
Proof.
  intros Hnd. unfold setAdd. destruct (existsb (Z.eqb x) set) eqn:E.
  - split; auto. intros y. split; auto. intros [->|H]; auto.
    apply existsb_exists in E. destruct E as (z & Hz & Ez).
    apply Z.eqb_eq in Ez. now subst.
  - split.
    + apply NoDup_app; [exact Hnd|repeat constructor; auto|].
      intros a Ha [E'|[]]. subst a.
      assert (existsb (Z.eqb x) set = true); [|congruence].
      apply existsb_exists. exists x. split; auto. apply Z.eqb_refl.
    + intros y. rewrite in_app_iff. cbn. intuition.
Qed.

Lemma episodeSet_spec scenes :
  forall set,
    NoDup set ->
    NoDup (fold_left (fun episodes scene => setAdd (s_episode scene) episodes) scenes set)
    /\ (forall e,
           In e (fold_left (fun episodes scene => setAdd (s_episode scene) episodes)
                           scenes set)
           <-> In e set \/ exists s, In s scenes /\ s_episode s = e).
Proof.
  induction scenes as [|s rest IH]; intros set Hnd; cbn [fold_left].
  - split; auto. intros e. split; auto. intros [H|(s & [] & _)]; auto.
  - destruct (setAdd_spec (s_episode s) Hnd) as [Hnd' Hin].
    destruct (IH _ Hnd') as [H1 H2]. split; auto.
    intros e. rewrite H2, Hin. split.
    + intros [[->|H]|(q & Hq & Eq)]; auto.
      * right. exists s. split; auto. now left.
      * right. exists q. split; auto. now right.
    + intros [H|(q & [<-|Hq] & Eq)]; auto.
      right. now exists q.
Qed.

Lemma sortInsert_spec x l :
  StronglySorted Z.lt l -> ~ In x l ->
  StronglySorted Z.lt (sortInsert (fun a b => a - b) x l)
  /\ (forall y, In y (sortInsert (fun a b => a - b) x l) <-> y = x \/ In y l).
Proof.
  induction l as [|z l IH]; intros Hs Hx; cbn [sortInsert].
  - split; [repeat constructor|]. intros y. cbn. intuition.
  - inversion Hs as [|? ? Hs' Hlt]; subst.
    destruct (Z.leb_spec (z - x) 0) as [Hle|Hgt].
    + destruct IH as [IH1 IH2]; auto. { intros H. apply Hx. now right. }
      split.
      * constructor; auto. apply Forall_forall. intros y Hy. apply IH2 in Hy.
        destruct Hy as [->|Hy].
        -- assert (z <> x) by (intros ->; apply Hx; now left). lia.
        -- rewrite Forall_forall in Hlt. now apply Hlt.
      * intros y. cbn [In]. rewrite IH2. intuition.
    + split.
      * constructor; auto. constructor; [lia|].
        eapply Forall_impl; [|exact Hlt]. cbn. intros; lia.
      * intros y. cbn [In]. intuition.
Qed.

Lemma sortBy_spec l :
  forall sorted,
    StronglySorted Z.lt sorted -> NoDup l -> (forall x, In x l -> ~ In x sorted) ->
    StronglySorted Z.lt (fold_left (fun acc x => sortInsert (fun a b => a - b) x acc) l sorted)
    /\ (forall y,
           In y (fold_left (fun acc x => sortInsert (fun a b => a - b) x acc) l sorted)
           <-> In y l \/ In y sorted).
Proof.
  induction l as [|x l IH]; intros sorted Hs Hnd Hdis; cbn [fold_left].
  - split; auto. intros y. cbn. intuition.
  - inversion Hnd as [|? ? Hx Hnd']; subst.
    destruct (@sortInsert_spec x sorted Hs) as [H1 H2]; [apply Hdis; now left|].
    destruct (IH _ H1 Hnd') as [H3 H4].
    + intros y Hy Hin. apply H2 in Hin. destruct Hin as [->|Hin]; [contradiction|].
      apply (Hdis y); auto. now right.
    + split; auto. intros y. rewrite H4, H2. cbn [In]. intuition.
Qed.

(** X13: [getEpisodes] lists the episode numbers of the index in strictly
    ascending order, each once: a number is listed exactly when some scene
    has that episode. *)
Theorem getEpisodes_sorted_distinct :
  forall index,
    StronglySorted Z.lt (getEpisodes index)
    /\ (forall e,
           In e (getEpisodes index)
           <-> exists s, In s (i_scenes index) /\ s_episode s = e).
Proof.
  intros index. unfold getEpisodes, sortBy.
  destruct (@episodeSet_spec (i_scenes index) [] (NoDup_nil _)) as [Hnd Hin].
  destruct (@sortBy_spec _ [] (SSorted_nil _) Hnd) as [H1 H2]; [intros x _ []|].
  split; auto. intros e. rewrite H2, Hin. cbn [In]. intuition.
Qed.

(** ** The text [generateSceneContent] inserts *)

Lemma formatHeader_one_line h : printableHeader h -> ~ In c_NL (formatHeader h).
Proof.
  intros (He & Hs & Pe & Ps & Ht & Dt & Hk & Hl & Dl & _).
  destruct (numberToString_spec Pe) as [[_ Ne] _].
  destruct (numberToString_spec Ps) as [[_ Ns] _].
  unfold formatHeader, generateSceneHeaderTemplate. cbn [n_episode n_scene].
  rewrite !in_app_iff.
  intros [H|[H|[H|[H|[H|[H|[H|[H|H]]]]]]]].
  - now apply (@allIn_not_in _ _ c_NL Ne eq_refl).
  - destruct H as [H|[]]; discriminate.
  - now apply (@allIn_not_in _ _ c_NL Ns eq_refl).
  - destruct H as [H|[]]; discriminate.
  - now apply (@allIn_not_in _ _ c_NL Dt eq_refl).
  - destruct H as [H|[]]; discriminate.
  - destruct Hk as [Hk|[Hk|[]]]; rewrite <- Hk in H; destruct H as [H|[]]; discriminate.
  - destruct H as [H|[]]; discriminate.
  - now apply (@allIn_not_in _ _ c_NL Dl eq_refl).
Qed.

Lemma scanLine_first_header lineIndex line h :
  parseSceneHeader line = Some h ->
  scanLine lineIndex line initialScan
  = {| sc_scenes :=
         [ {| s_episode := h_episode h; s_scene := h_scene h; s_line := lineIndex;
              s_time := h_time h; s_locationType := h_locationType h;
              s_location := h_location h; s_characters := []; s_tags := [];
              s_wordCount := 0; s_isFlashback := false |} ];
       sc_inFlashback := false;
       sc_currentSceneStartLine := lineIndex;
       sc_currentSceneContent := [];
       sc_currentTags := [];
       sc_maxEpisode := if h_episode h >? 0 then h_episode h else 0 |}.
Proof.
  intros H. unfold scanLine.
  destruct (str_eqb (JS.trim line) FLASHBACK_START) eqn:E1.
  { rewrite flashback_marker_no_header in H; [discriminate|now left]. }
  destruct (str_eqb (JS.trim line) FLASHBACK_END) eqn:E2.
  { rewrite flashback_marker_no_header in H; [discriminate|now right]. }
  rewrite parseSceneHeader_trim, H. reflexivity.
Qed.

Lemma scanLine_content lineIndex line st :
  str_eqb (JS.trim line) FLASHBACK_START = false ->
  str_eqb (JS.trim line) FLASHBACK_END = false ->
  parseSceneHeader line = None ->
  parseCharacterList (JS.trim line) = None ->
  parseSceneTags (JS.trim line) = [] ->
  (sc_currentSceneStartLine st >=? 0) = true ->
  scanLine lineIndex line st
  = {| sc_scenes := sc_scenes st; sc_inFlashback := sc_inFlashback st;
       sc_currentSceneStartLine := sc_currentSceneStartLine st;
       sc_currentSceneContent := sc_currentSceneContent st ++ [line];
       sc_currentTags := sc_currentTags st;
       sc_maxEpisode := sc_maxEpisode st |}.
Proof.
  intros E1 E2 Hh Hc Ht Hs. unfold scanLine.
  now rewrite E1, E2, parseSceneHeader_trim, Hh, Hs, Hc, Ht.
Qed.

(** X14: reading back what [generateSceneContent] writes.  For a header
    with numbers at least 1 and below 10^21 (integers a double holds, so
    that the template prints them as plain numerals), a time that is one
    visible word, a location
    kind 内 or 外 and a location without line terminator that neither
    starts nor ends with white space, [parseDocument]'s scan of the
    generated text finds exactly one scene, at line 0, with the header's
    fields, outside a flashback and with no tags; the template line 人物：
    is not read as a character list (the pattern wants white space after
    人), so the scene has no characters and the line counts as 3 words.
    The episode count is the header's episode. *)
Theorem generateSceneContent_parses_to_one_scene :
  forall now hash h,
    printableHeader h ->
    let content :=
      generateSceneContent {| n_episode := h_episode h; n_scene := h_scene h |}
                           (h_time h) (h_locationType h) (h_location h) in
    i_scenes (buildIndex now content hash)
    = [ {| s_episode := h_episode h; s_scene := h_scene h; s_line := 0;
           s_time := h_time h; s_locationType := h_locationType h;
           s_location := h_location h; s_characters := []; s_tags := [];
           s_wordCount := 3; s_isFlashback := false |} ]
    /\ i_episodeCount (buildIndex now content hash) = h_episode h.
Proof.
  intros now hash h P. pose proof (formatHeader_one_line P) as Hnl.
  assert (Hp : parseSceneHeader (formatHeader h) = Some h).
  { destruct P as (He & Hs & Pe & Ps & Ht & Dt & Hk & Hl & Dl & Tl).
    apply parseSceneHeader_of_layout, formatHeader_layout; auto. }
  assert (He : (h_episode h >? 0) = true) by (destruct P; lia).
  cbv zeta. unfold buildIndex, generateSceneContent.
  change (generateSceneHeaderTemplate _ _ _ _) with (formatHeader h).
  change (formatHeader h ++ [c_NL] ++ generateCharacterListTemplate ++ [c_NL])
    with (formatHeader h ++ c_NL :: [c_REN; c_WU; c_FCOLON; c_NL]).
  rewrite split_app, (@split_no_sep c_NL _ Hnl).
  change (JS.split c_NL [c_REN; c_WU; c_FCOLON; c_NL])
    with [[c_REN; c_WU; c_FCOLON]; []].
  cbn [app scanLines].
  rewrite (@scanLine_first_header 0 _ _ Hp), He.
  rewrite scanLine_content; try reflexivity.
  rewrite scanLine_content; try reflexivity.
  cbn [sc_scenes sc_currentSceneContent sc_currentTags sc_maxEpisode app length
       Nat.ltb Nat.leb andb updateLast setCount i_scenes i_episodeCount
       s_episode s_scene s_line s_time s_locationType s_location s_characters
       s_isFlashback].
  split; reflexivity.
Qed.

Lemma generateSceneContent_parses_to_one_scene_witness :
  i_episodeCount
    (buildIndex 0 (generateSceneContent {| n_episode := 3; n_scene := 2 |}
                                        [c_YU; c_YE] [c_WAI] [97; 32; 98]%N) [])
  = 3.
Proof.
  apply (@generateSceneContent_parses_to_one_scene 0 []
           (header 3 2 [c_YU; c_YE] [c_WAI] [97; 32; 98]%N)).
  unfold printableHeader, trimmed. cbn.
  repeat split; try lia; try discriminate; auto; repeat constructor.
Defined.

(** * Statistics *)

(** ** Content words against all words *)

Lemma substringOf_refl s : substringOf s s.
Proof. exists [], []. now rewrite app_nil_r. Qed.

Lemma substringOf_nil s : substringOf [] s.
Proof. now exists [], s. Qed.

Lemma substringOf_extend c s p q : substringOf c s -> substringOf c (p ++ s ++ q).
Proof.
  intros (a & b & ->). exists (p ++ a), (b ++ q). now rewrite <- !app_assoc.
Qed.

Lemma matches_captures r s s' cs :
  matches r s s' cs -> Forall (fun c => substringOf c s) cs.
Proof.
  induction 1; try constructor; auto.
  - apply Forall_app. split; auto.
    destruct (matches_suffix H) as [w1 ->].
    eapply Forall_impl; [|exact IHmatches2]. intros c Hc.
    rewrite <- (app_nil_r (w1 ++ s1)), <- app_assoc.
    now apply substringOf_extend.
  - exists [], rest. reflexivity.
Qed.

Lemma nth_Forall (A : Type) (P : A -> Prop) l d i :
  Forall P l -> P d -> P (nth i l d).
Proof.
  intros Hl Hd. revert i. induction Hl as [|x l Hx _ IH]; intros [|i]; cbn [nth]; auto.
Qed.

Lemma exec_groups r s m i :
  exec r s = Some m -> substringOf (at_ m i) s.
Proof.
  unfold exec. destruct (run r s (fun s' => Some s')) as [[caps s']|] eqn:E;
    [|discriminate].
  intros H. inversion H; subst. clear H.
  apply run_sound in E. destruct E as (s1 & Hm & Hk). inversion Hk; subst.
  destruct (matches_suffix Hm) as [w ->]. rewrite consumed_app.
  pose proof (matches_captures Hm) as Hc.
  assert (Hall : Forall (fun c => substringOf c (w ++ s')) (w :: caps)).
  { constructor; auto. exists [], s'. reflexivity. }
  unfold at_. apply (@nth_Forall _ _ _ [] i Hall), substringOf_nil.
Qed.

Lemma length_removeWhiteSpace_substring c s :
  substringOf c s -> len (JS.removeWhiteSpace c) <= len (JS.removeWhiteSpace s).
Proof.
  intros (a & b & ->). unfold len. rewrite !removeWhiteSpace_app, !length_app. lia.
Qed.

Lemma stats_countWords_len text :
  StatsService.countWords text = len (JS.removeWhiteSpace text).
Proof. now destruct text. Qed.

Lemma lineWords_bounds line :
  0 <= StatsService.lineWords line <= len (JS.removeWhiteSpace line).
Proof.
  assert (H0 : 0 <= len (JS.removeWhiteSpace line)) by (unfold len; lia).
  assert (Hc : forall c, substringOf c (JS.trim line) ->
                 0 <= StatsService.countWords c <= len (JS.removeWhiteSpace line)).
  { intros c Hc. rewrite stats_countWords_len, <- (removeWhiteSpace_trim line).
    split; [unfold len; lia|now apply length_removeWhiteSpace_substring]. }
  unfold StatsService.lineWords.
  repeat match goal with
         | |- context [if ?b then _ else _] => destruct b; [lia|]
         end.
  destruct (exec DIALOGUE_REGEX (JS.trim line)) as [m|] eqn:E1.
  { apply Hc. eapply exec_groups; eauto. }
  destruct (exec SIMPLE_DIALOGUE_REGEX (JS.trim line)) as [m|] eqn:E2.
  { apply Hc. eapply exec_groups; eauto. }
  destruct (exec ACTION_REGEX (JS.trim line)) as [m|] eqn:E3.
  { apply Hc. eapply exec_groups; eauto. }
  apply Hc, substringOf_refl.
Qed.

Lemma removeWhiteSpace_lines text :
  JS.removeWhiteSpace text = concat (map JS.removeWhiteSpace (JS.split c_NL text)).
Proof.
  induction text as [|c text IH]; [reflexivity|].
  cbn [JS.split]. destruct (N.eqb_spec c c_NL) as [->|Hc].
  - cbn [map concat]. rewrite <- IH. reflexivity.
  - pose proof (split_nonempty c_NL text) as Hne.
    destruct (JS.split c_NL text) as [|l ls]; [congruence|].
    cbn [map concat] in *. unfold JS.removeWhiteSpace in *. cbn [filter].
    rewrite IH. destruct (negb (isWhiteSpace c)); reflexivity.
Qed.

Lemma fold_lineWords_bounds lines :
  0 <= fold_left (fun totalWords line => totalWords + StatsService.lineWords line) lines 0
    <= len (concat (map JS.removeWhiteSpace lines)).
Proof.
  induction lines as [|l lines IH]; cbn [fold_left map concat]; [unfold len; simpl; lia|].
  rewrite fold_lineWords. pose proof (lineWords_bounds l).
  unfold len in *. rewrite length_app. lia.
Qed.

(** X15: [countContentWords] never counts more than [countWords] does on
    the same text, and never less than 0: leaving out the markup only
    lowers the count. *)
Theorem countContentWords_at_most_countWords :
  forall text,
    0 <= StatsService.countContentWords text <= StatsService.countWords text.
Proof.
  intros text. rewrite countContentWords_fold, stats_countWords_len.
  rewrite (removeWhiteSpace_lines text). apply fold_lineWords_bounds.
Qed.

(** ** Durations *)

Lemma estimateDuration_positive w :
  0 < w ->
  (StatsService.estimateDuration w
   == inject_Z (Qceiling (inject_Z w / 200 * 2)) * (1 # 2))%Q.
Proof.
  intros H. unfold StatsService.estimateDuration, WORDS_PER_MINUTE.
  destruct (Z.leb_spec w 0); [lia|]. reflexivity.
Qed.

Lemma estimateDuration_nonneg w : (0 <= StatsService.estimateDuration w)%Q.
Proof.
  destruct (Z.leb_spec w 0) as [H|H].
  - unfold StatsService.estimateDuration. destruct (Z.leb_spec w 0); [|lia].
    apply Qle_refl.
  - rewrite (estimateDuration_positive H).
    assert (Hc : (0 <= Qceiling (inject_Z w / 200 * 2))%Z).
    { change 0%Z with (Qceiling (inject_Z 0)). apply Qceiling_resp_le.
      assert (Hw : (inject_Z 0 <= inject_Z w)%Q) by (rewrite <- Zle_Qle; lia).
      change (inject_Z 0) with 0%Q in *. unfold Qdiv.
      change (/ 200)%Q with (1 # 200)%Q. lra. }
    rewrite Zle_Qle in Hc. change (inject_Z 0) with 0%Q in Hc. lra.
Qed.

Lemma estimateDuration_monotone a b :
  a <= b -> (StatsService.estimateDuration a <= StatsService.estimateDuration b)%Q.
Proof.
  intros H. destruct (Z.leb_spec a 0) as [Ha|Ha].
  - unfold StatsService.estimateDuration at 1. destruct (Z.leb_spec a 0); [|lia].
    apply estimateDuration_nonneg.
  - rewrite (estimateDuration_positive Ha), (@estimateDuration_positive b) by lia.
    assert (Hc : (Qceiling (inject_Z a / 200 * 2) <= Qceiling (inject_Z b / 200 * 2))%Z).
    { apply Qceiling_resp_le.
      assert (Hw : (inject_Z a <= inject_Z b)%Q) by (rewrite <- Zle_Qle; lia).
      unfold Qdiv. change (/ 200)%Q with (1 # 200)%Q. lra. }
    rewrite Zle_Qle in Hc. lra.
Qed.

Lemma estimateDuration_subadditive a b :
  (StatsService.estimateDuration (a + b)
   <= StatsService.estimateDuration a + StatsService.estimateDuration b)%Q.
Proof.
  pose proof (estimateDuration_nonneg a) as Na.
  pose proof (estimateDuration_nonneg b) as Nb.
  destruct (Z.leb_spec a 0) as [Ha|Ha].
  { assert (H : a + b <= b) by lia. apply estimateDuration_monotone in H. lra. }
  destruct (Z.leb_spec b 0) as [Hb|Hb].
  { assert (H : a + b <= a) by lia. apply estimateDuration_monotone in H. lra. }
  rewrite (estimateDuration_positive Ha), (estimateDuration_positive Hb),
    (@estimateDuration_positive (a + b)) by lia.
  set (x := (inject_Z a / 200 * 2)%Q). set (y := (inject_Z b / 200 * 2)%Q).
  assert (Hc : (Qceiling (inject_Z (a + b) / 200 * 2) <= Qceiling x + Qceiling y)%Z).
  { rewrite <- (Qceiling_Z (Qceiling x + Qceiling y)). apply Qceiling_resp_le.
    assert (E : (inject_Z (a + b) / 200 * 2 == x + y)%Q).
    { unfold x, y. rewrite inject_Z_plus. field. }
    rewrite E, inject_Z_plus.
    pose proof (Qle_ceiling x). pose proof (Qle_ceiling y). lra. }
  rewrite Zle_Qle in Hc. rewrite (inject_Z_plus (Qceiling x)) in Hc. lra.
Qed.



Lemma getTotalWordCount_acc l acc :
  fold_left (fun sum ep => sum + e_wordCount ep) l acc
  = acc + fold_left (fun sum ep => sum + e_wordCount ep) l 0.
Proof.
  revert acc. induction l as [|x l IH]; intros acc; cbn [fold_left]; [lia|].
  rewrite IH, (IH (0 + e_wordCount x)). lia.
Qed.

Lemma getTotalDuration_acc l acc :
  (fold_left (fun sum ep => sum + e_estimatedDuration ep) l acc
   == acc + fold_left (fun sum ep => sum + e_estimatedDuration ep) l 0)%Q.
Proof.
  revert acc. induction l as [|x l IH]; intros acc; cbn [fold_left]; [lra|].
  rewrite IH, (IH (0 + e_estimatedDuration x)%Q). lra.
Qed.

Lemma getTotalDuration_exact l :
  Forall (fun ep =>
            (e_estimatedDuration ep == StatsService.estimateDuration (e_wordCount ep))%Q)
         l ->
  (StatsService.estimateDuration (getTotalWordCount l) <= getTotalDuration l)%Q.
Proof.
  intros H. unfold getTotalWordCount, getTotalDuration.
  induction H as [|ep l Hep _ IH]; cbn [fold_left].
  - apply Qle_refl.
  - rewrite getTotalWordCount_acc, getTotalDuration_acc.
    pose proof (estimateDuration_subadditive (0 + e_wordCount ep)
                  (fold_left (fun sum ep => sum + e_wordCount ep) l 0)) as Hs.
    rewrite Z.add_0_l in *. lra.
Qed.

Lemma wordCount_at_most_total l :
  Forall (fun ep => 0 <= e_wordCount ep) l ->
  0 <= getTotalWordCount l
  /\ Forall (fun ep => e_wordCount ep <= getTotalWordCount l) l.
Proof.
  unfold getTotalWordCount.
  induction 1 as [|ep l Hep _ [IH0 IH]]; cbn [fold_left].
  - split; [lia|constructor].
  - rewrite getTotalWordCount_acc. split; [lia|]. constructor; [lia|].
    eapply Forall_impl; [|exact IH]. cbn. intros a Ha. lia.
Qed.

(** X17: for word counts that are not negative and sum to less than 2^53
    (where the half minutes and their sums are exact in doubles), when
    every entry's estimated duration is [estimateDuration] of its word
    count, as [calculateEpisodeStats] fills it, the total of
    [getTotalDuration] is at least the estimate for the total of
    [getTotalWordCount]: rounding each episode up to half minutes can only
    lengthen the total. *)
Theorem getTotalDuration_at_least_estimate_of_total :
  forall episodeStats,
    Forall (fun ep =>
              0 <= e_wordCount ep
              /\ (e_estimatedDuration ep
                  == Binary64.estimateDuration (e_wordCount ep))%Q)
           episodeStats ->
    getTotalWordCount episodeStats < 2 ^ 53 ->
    (Binary64.estimateDuration (getTotalWordCount episodeStats)
     <= getTotalDuration episodeStats)%Q.
Proof.
  intros l H Hb. rewrite (estimateDuration_exact_below_2_53 Hb).
  apply getTotalDuration_exact.
  assert (Hn : Forall (fun ep => 0 <= e_wordCount ep) l).
  { eapply Forall_impl; [|exact H]. cbn. intros a [Ha _]. exact Ha. }
  destruct (wordCount_at_most_total Hn) as [_ Hle].
  rewrite Forall_forall in *. intros ep Hin.
  destruct (H ep Hin) as [_ E]. specialize (Hle ep Hin).
  rewrite E. apply estimateDuration_exact_below_2_53. lia.
Qed.

Lemma getTotalDuration_at_least_estimate_of_total_witness :
  (Binary64.estimateDuration
     (getTotalWordCount
        [ {| e_episode := 1; e_wordCount := 50; e_sceneCount := 1;
             e_estimatedDuration := 1 # 2 |};
          {| e_episode := 2; e_wordCount := 50; e_sceneCount := 1;
             e_estimatedDuration := 1 # 2 |} ])
   <= getTotalDuration
        [ {| e_episode := 1; e_wordCount := 50; e_sceneCount := 1;
             e_estimatedDuration := 1 # 2 |};
          {| e_episode := 2; e_wordCount := 50; e_sceneCount := 1;
             e_estimatedDuration := 1 # 2 |} ])%Q.
Proof.
  apply getTotalDuration_at_least_estimate_of_total.
  - repeat (apply Forall_cons; [split; [cbn; lia|vm_compute; reflexivity]|]).
    apply Forall_nil.
  - vm_compute. reflexivity.
Defined.

(** ** The cache *)

Lemma str_eqb_spec a b : reflect (a = b) (str_eqb a b).
Proof. apply iff_reflect. symmetry. apply str_eqb_eq. Qed.

Section CacheFacts.
Variable V : Type.
Implicit Types (m : list (str * V)) (this : LRUCache.t V).

Lemma mapHas_In key m : LRUCache.mapHas key m = true <-> In key (map fst m).
Proof.
  unfold LRUCache.mapHas. rewrite existsb_exists, in_map_iff. split.
  - intros (e & He & E). apply str_eqb_eq in E. now exists e.
  - intros (e & E & He). exists e. split; auto. now apply str_eqb_eq.
Qed.

Lemma mapHas_false key m : LRUCache.mapHas key m = false <-> ~ In key (map fst m).
Proof.
  rewrite <- mapHas_In. destruct (LRUCache.mapHas key m); split; congruence.
Qed.

Lemma mapDelete_keys key m k :
  In k (map fst (LRUCache.mapDelete key m)) <-> In k (map fst m) /\ k <> key.
Proof.
  unfold LRUCache.mapDelete. rewrite !in_map_iff. split.
  - intros (e & E & He). apply filter_In in He. destruct He as [He Hk].
    split; [now exists e|]. subst k.
    destruct (str_eqb_spec (fst e) key); [discriminate|auto].
  - intros [(e & E & He) Hk]. exists e. split; auto. apply filter_In. split; auto.
    subst k. destruct (str_eqb_spec (fst e) key); [contradiction|auto].
Qed.

Lemma mapDelete_distinct key m :
  NoDup (map fst m) -> NoDup (map fst (LRUCache.mapDelete key m)).
Proof.
  induction m as [|[k v] m IH]; cbn [map fst LRUCache.mapDelete filter]; auto.
  intros H. inversion H as [|? ? Hk Hm]; subst.
  destruct (negb (str_eqb k key)); cbn [map fst]; auto.
  constructor; auto. intros Hin. apply Hk.
  now apply (mapDelete_keys key m k) in Hin.
Qed.

Lemma mapDelete_length key m :
  (length (LRUCache.mapDelete key m) <= length m)%nat.
Proof. apply filter_length_le. Qed.

Lemma mapDelete_length_present key m :
  In key (map fst m) -> (length (LRUCache.mapDelete key m) < length m)%nat.
Proof.
  induction m as [|[k v] m IH]; cbn [map fst In LRUCache.mapDelete filter length];
    [tauto|].
  intros H. pose proof (mapDelete_length key m) as Hl.
  unfold LRUCache.mapDelete in *.
  destruct (str_eqb_spec k key) as [->|Hne]; cbn [negb length]; [lia|].
  destruct H as [H|H]; [contradiction|]. apply IH in H. lia.
Qed.

Lemma mapSet_absent key value m :
  ~ In key (map fst m) -> LRUCache.mapSet key value m = m ++ [(key, value)].
Proof.
  induction m as [|[k v] m IH]; cbn [map fst In LRUCache.mapSet app]; auto.
  intros H. destruct (str_eqb_spec k key) as [->|Hne]; [tauto|].
  rewrite IH; auto.
Qed.

Lemma mapGet_last key value m :
  ~ In key (map fst m) -> LRUCache.mapGet key (m ++ [(key, value)]) = Some value.
Proof.
  induction m as [|[k v] m IH]; cbn [map fst In LRUCache.mapGet app].
  - intros _. now rewrite (proj2 (str_eqb_eq key key)).
  - intros H. destruct (str_eqb_spec k key) as [->|Hne]; [tauto|]. auto.
Qed.

Lemma mapDelete_absent key m : ~ In key (map fst (LRUCache.mapDelete key m)).
Proof. rewrite mapDelete_keys. tauto. Qed.

(** The cache [get] and [set] leave: the other entries in their order,
    then the entry of the key. *)
Lemma get_cache key this value :
  LRUCache.mapGet key (LRUCache.cache this) = Some value ->
  LRUCache.get key this
  = (Some value,
     {| LRUCache.maxSize := LRUCache.maxSize this;
        LRUCache.cache :=
          LRUCache.mapDelete key (LRUCache.cache this) ++ [(key, value)] |}).
Proof.
  intros H. unfold LRUCache.get.
  assert (Hh : LRUCache.mapHas key (LRUCache.cache this) = true).
  { apply mapHas_In. clear -H. induction (LRUCache.cache this) as [|[k v] m IH];
      cbn [LRUCache.mapGet map fst In] in *; [discriminate|].
    destruct (str_eqb_spec k key); auto. }
  rewrite Hh, H. cbn [negb]. now rewrite mapSet_absent by apply mapDelete_absent.
Qed.

Lemma get_miss key this :
  LRUCache.mapHas key (LRUCache.cache this) = false ->
  LRUCache.get key this = (None, this).
Proof. intros H. unfold LRUCache.get. now rewrite H. Qed.

Lemma mapHas_mapGet key m :
  LRUCache.mapHas key m = true -> exists value, LRUCache.mapGet key m = Some value.
Proof.
  rewrite mapHas_In.
  induction m as [|[k v] m IH]; cbn [LRUCache.mapGet map fst In]; [tauto|].
  intros H. destruct (str_eqb_spec k key) as [->|Hne]; [eauto|].
  destruct H as [H|H]; [contradiction|auto].
Qed.

Lemma set_cache key value this :
  exists kept,
    LRUCache.cache (LRUCache.set key value this) = kept ++ [(key, value)]
    /\ ~ In key (map fst kept)
    /\ ((LRUCache.mapHas key (LRUCache.cache this) = true
         /\ kept = LRUCache.mapDelete key (LRUCache.cache this))
        \/ (LRUCache.mapHas key (LRUCache.cache this) = false
            /\ LRUCache.maxSize this <= Z.of_nat (length (LRUCache.cache this))
            /\ exists firstKey v rest,
                 LRUCache.cache this = (firstKey, v) :: rest
                 /\ kept = LRUCache.mapDelete firstKey (LRUCache.cache this))
        \/ (LRUCache.mapHas key (LRUCache.cache this) = false
            /\ kept = LRUCache.cache this
            /\ (Z.of_nat (length (LRUCache.cache this)) < LRUCache.maxSize this
                \/ LRUCache.cache this = []))).
Proof.
  unfold LRUCache.set. cbn [LRUCache.cache].
  destruct (LRUCache.mapHas key (LRUCache.cache this)) eqn:Hh.
  - exists (LRUCache.mapDelete key (LRUCache.cache this)).
    rewrite mapSet_absent by apply mapDelete_absent.
    split; [reflexivity|]. split; [apply mapDelete_absent|]. left. auto.
  - pose proof (proj1 (mapHas_false _ _) Hh) as Hk.
    destruct (Z.geb_spec (Z.of_nat (length (LRUCache.cache this))) (LRUCache.maxSize this))
      as [Hfull|Hroom].
    + destruct (LRUCache.cache this) as [|[firstKey v] rest] eqn:E.
      * exists []. cbn [LRUCache.mapSet app map fst In].
        split; [reflexivity|]. split; [tauto|]. right. right. auto.
      * exists (LRUCache.mapDelete firstKey ((firstKey, v) :: rest)).
        assert (Hk' : ~ In key (map fst (LRUCache.mapDelete firstKey ((firstKey, v) :: rest)))).
        { rewrite mapDelete_keys. tauto. }
        rewrite mapSet_absent by exact Hk'.
        split; [reflexivity|]. split; [exact Hk'|]. right. left.
        split; [reflexivity|]. split; [lia|]. exists firstKey, v, rest. auto.
    + exists (LRUCache.cache this). rewrite mapSet_absent by exact Hk.
      split; [reflexivity|]. split; [exact Hk|]. right. right.
      split; [reflexivity|]. split; [reflexivity|]. left. lia.
Qed.

Lemma distinct_snoc key value m :
  NoDup (map fst m) -> ~ In key (map fst m) -> NoDup (map fst (m ++ [(key, value)])).
Proof.
  intros H Hk. rewrite map_app. apply NoDup_app; auto.
  - cbn. repeat constructor. auto.
  - cbn. intros a Ha [<-|[]]. contradiction.
Qed.

Lemma set_invariant key value this bound :
  distinctKeys this ->
  LRUCache.size this <= Z.max bound 1 -> LRUCache.maxSize this <= bound ->
  distinctKeys (LRUCache.set key value this)
  /\ LRUCache.size (LRUCache.set key value this) <= Z.max bound 1.
Proof.
  unfold distinctKeys, LRUCache.size. intros Hd Hs Hm.
  destruct (set_cache key value this) as (kept & -> & Hk & Hkept).
  rewrite length_app. cbn [length].
  destruct Hkept as [[Hh ->]|[(Hh & Hfull & fk & v & rest & E & ->)|(Hh & -> & Hroom)]].
  - split; [apply distinct_snoc; auto using mapDelete_distinct|].
    apply mapHas_In, mapDelete_length_present in Hh. lia.
  - split; [apply distinct_snoc; auto using mapDelete_distinct|].
    assert (Hin : In fk (map fst (LRUCache.cache this))) by (rewrite E; now left).
    apply mapDelete_length_present in Hin. lia.
  - split; [apply distinct_snoc; auto|].
    destruct Hroom as [Hroom| ->]; cbn [length]; lia.
Qed.

End CacheFacts.

Lemma perform_invariant (V : Type) (this : LRUCache.t V) (c : cacheCall V) bound :
  distinctKeys this ->
  LRUCache.size this <= Z.max bound 1 -> LRUCache.maxSize this <= bound ->
  distinctKeys (perform this c)
  /\ LRUCache.size (perform this c) <= Z.max bound 1
  /\ LRUCache.maxSize (perform this c) <= bound.
Proof.
  intros Hd Hs Hm. destruct c as [key|key value|]; cbn [perform].
  - destruct (LRUCache.mapHas key (LRUCache.cache this)) eqn:Hh.
    + destruct (mapHas_mapGet _ _ Hh) as [value Hg].
      rewrite (get_cache _ _ Hg). cbn [snd].
      unfold distinctKeys, LRUCache.size in *. cbn [LRUCache.cache LRUCache.maxSize].
      split; [|split; auto].
      * apply distinct_snoc; [now apply mapDelete_distinct|apply mapDelete_absent].
      * apply mapHas_In, mapDelete_length_present in Hh.
        rewrite length_app. cbn [length]. lia.
    + rewrite (get_miss _ _ Hh). cbn [snd]. auto.
  - destruct (set_invariant key value Hd Hs Hm) as [H1 H2]. auto.
  - unfold distinctKeys, LRUCache.size, LRUCache.clear. cbn.
    split; [constructor|]. split; lia.
Qed.

(** X18: whatever calls of [get], [set] and [clear] are made on a new
    cache, its keys stay distinct and its size never exceeds [maxSize],
    or 1 when [maxSize] is below 1 (a cache built with capacity 0 still
    keeps the last entry set). *)
Theorem LRUCache_never_exceeds_maxSize :
  forall (V : Type) (maxSize : Z) (calls : list (cacheCall V)),
    let this := fold_left (@perform V) calls (LRUCache.new V maxSize) in
    distinctKeys this /\ LRUCache.size this <= Z.max maxSize 1.
Proof.
  intros V maxSize calls. cbv zeta.
  assert (H : forall this : LRUCache.t V,
             distinctKeys this -> LRUCache.size this <= Z.max maxSize 1 ->
             LRUCache.maxSize this <= maxSize ->
             distinctKeys (fold_left (@perform V) calls this)
             /\ LRUCache.size (fold_left (@perform V) calls this) <= Z.max maxSize 1).
  { induction calls as [|c calls IH]; intros this Hd Hs Hm; cbn [fold_left]; auto.
    destruct (perform_invariant c Hd Hs Hm) as (H1 & H2 & H3). now apply IH. }
  apply H.
  - constructor.
  - unfold LRUCache.size. cbn. lia.
  - cbn. lia.
Qed.

(** X19: a value that was just [set] is what [get] returns for its key,
    whatever the cache held and however full it was. *)
Theorem LRUCache_get_after_set :
  forall (V : Type) (key : str) (value : V) (this : LRUCache.t V),
    LRUCache.has key (LRUCache.set key value this) = true
    /\ fst (LRUCache.get key (LRUCache.set key value this)) = Some value.
Proof.
  intros V key value this.
  destruct (set_cache key value this) as (kept & E & Hk & _).
  assert (Hg : LRUCache.mapGet key (LRUCache.cache (LRUCache.set key value this))
               = Some value).
  { rewrite E. now apply mapGet_last. }
  split.
  - unfold LRUCache.has. apply mapHas_In. rewrite E, map_app, in_app_iff.
    right. now left.
  - now rewrite (get_cache _ _ Hg).
Qed.

(** X20: eviction takes the oldest entry.  When the cache is full
    ([size >= maxSize]) and [set] brings a key that is not in it, the first
    key of the cache is dropped and every other key stays. *)
Theorem LRUCache_set_evicts_oldest :
  forall (V : Type) (this : LRUCache.t V) firstKey v rest key value,
    distinctKeys this ->
    LRUCache.cache this = (firstKey, v) :: rest ->
    LRUCache.maxSize this <= LRUCache.size this ->
    LRUCache.has key this = false ->
    LRUCache.cache (LRUCache.set key value this) = rest ++ [(key, value)].
Proof.
  intros V this firstKey v rest key value Hd E Hfull Hh.
  unfold LRUCache.has in Hh. unfold LRUCache.size in Hfull.
  unfold LRUCache.set. cbn [LRUCache.cache]. rewrite Hh.
  destruct (Z.geb_spec (Z.of_nat (length (LRUCache.cache this))) (LRUCache.maxSize this));
    [|lia].
  rewrite E. unfold distinctKeys in Hd. rewrite E in Hd, Hh.
  cbn [map fst] in Hd. inversion Hd as [|? ? Hf Hr]; subst.
  assert (Hdel : LRUCache.mapDelete firstKey ((firstKey, v) :: rest) = rest).
  { cbn [LRUCache.mapDelete filter fst].
    rewrite (proj2 (str_eqb_eq firstKey firstKey) eq_refl). cbn [negb].
    clear -Hf. induction rest as [|[k x] rest IH]; cbn [filter fst map In] in *; auto.
    destruct (str_eqb_spec k firstKey) as [->|Hne]; [tauto|].
    cbn [negb]. f_equal. apply IH. tauto. }
  rewrite Hdel. apply mapSet_absent.
  apply mapHas_false in Hh. cbn [map fst In] in Hh. tauto.
Qed.

Lemma LRUCache_set_evicts_oldest_witness :
  LRUCache.cache
    (LRUCache.set [99%N] 3
       {| LRUCache.maxSize := 2; LRUCache.cache := [([97%N], 1); ([98%N], 2)] |})
  = [([98%N], 2); ([99%N], 3)].
Proof.
  apply (@LRUCache_set_evicts_oldest Z _ [97%N] 1 [([98%N], 2)] [99%N] 3).
  - unfold distinctKeys. cbn. repeat constructor; cbn; intuition discriminate.
  - reflexivity.
  - unfold LRUCache.size. cbn. lia.
  - reflexivity.
Defined.

(** X21: reading protects an entry.  In a cache of capacity at least 2, a
    key that [get] has just found is still there after the next [set],
    whichever key that [set] brings. *)
Theorem LRUCache_read_survives_next_set :
  forall (V : Type) (this : LRUCache.t V) key key' (value' : V),
    2 <= LRUCache.maxSize this ->
    LRUCache.has key this = true ->
    LRUCache.has key (LRUCache.set key' value' (snd (LRUCache.get key this))) = true.
Proof.
  intros V this key key' value' Hmax Hh. unfold LRUCache.has in *.
  destruct (mapHas_mapGet _ _ Hh) as [value Hg].
  rewrite (get_cache _ _ Hg). cbn [snd].
  set (this1 := {| LRUCache.maxSize := LRUCache.maxSize this;
                   LRUCache.cache :=
                     LRUCache.mapDelete key (LRUCache.cache this) ++ [(key, value)] |}).
  assert (Hin : In key (map fst (LRUCache.cache this1))).
  { cbn. rewrite map_app, in_app_iff. right. now left. }
  destruct (set_cache key' value' this1) as (kept & E & Hk & Hkept).
  apply mapHas_In. rewrite E, map_app, in_app_iff.
  destruct Hkept as [[_ ->]|[(_ & Hfull & fk & v & rest & Ec & ->)|(_ & -> & _)]].
  - destruct (str_eqb_spec key key') as [->|Hne]; [right; now left|].
    left. apply mapDelete_keys. auto.
  - left. apply mapDelete_keys. split; auto.
    cbn [this1 LRUCache.cache LRUCache.maxSize] in Ec, Hfull.
    rewrite length_app in Hfull. cbn [length] in Hfull.
    destruct (LRUCache.mapDelete key (LRUCache.cache this)) as [|[k x] d] eqn:Ed;
      [cbn [length] in Hfull; lia|].
    cbn [app] in Ec. inversion Ec; subst.
    assert (Hfk : In fk (map fst (LRUCache.mapDelete key (LRUCache.cache this)))).
    { rewrite Ed. now left. }
    apply mapDelete_keys in Hfk. intros ->. tauto.
  - now left.
Qed.

Lemma LRUCache_read_survives_next_set_witness :
  LRUCache.has [97%N]
    (LRUCache.set [99%N] 3
       (snd (LRUCache.get [97%N]
               {| LRUCache.maxSize := 2;
                  LRUCache.cache := [([97%N], 1); ([98%N], 2)] |})))
  = true.
Proof.
  apply LRUCache_read_survives_next_set.
  - cbn. lia.
  - reflexivity.
Defined.

(** ** Dialogue lines *)

Lemma star_complete (A : Type) c w rest (k : str -> option A) a :
  allIn c w -> k rest = Some a -> exists a', star c (w ++ rest) k = Some a'.
Proof.
  intros Hw Hk. induction Hw as [|x w Hx _ IH]; cbn [app].
  - destruct rest as [|y rest]; cbn [star]; [eauto|].
    destruct (mem c y); [|eauto]. destruct (star c rest k); eauto.
  - cbn [star]. rewrite Hx. destruct IH as [a' ->]. eauto.
Qed.

Lemma lazy_complete (A : Type) c w rest (k : str -> option A) a :
  allIn c w -> k rest = Some a -> exists a', lazy c (w ++ rest) k = Some a'.
Proof.
  intros Hw Hk. induction Hw as [|x w Hx _ IH]; cbn [app].
  - destruct rest as [|y rest]; cbn [lazy]; rewrite Hk; eauto.
  - cbn [lazy]. destruct (k (x :: w ++ rest)); [eauto|]. now rewrite Hx.
Qed.

(** Whatever [matches] allows, the matcher finds some match. *)
Lemma run_complete r s s' cs :
  matches r s s' cs ->
  forall (A : Type) (k : str -> option A) a,
    k s' = Some a -> exists res, run r s k = Some res.
Proof.
  induction 1; intros A k a Hk; cbn [run].
  - rewrite lit_app, Hk. cbn. eauto.
  - rewrite H, Hk. cbn. eauto.
  - destruct (IHmatches2 _ k a Hk) as [res2 H2].
    destruct (IHmatches1 _ (fun s' => run r2 s' k) res2 H2) as [[c1' [c2' a']] H1].
    rewrite H1. eauto.
  - destruct (IHmatches _ k a Hk) as [res ->]. eauto.
  - destruct (run r1 s k); [eauto|]. eapply IHmatches; eauto.
  - eapply star_complete; eauto. now rewrite Hk.
  - destruct w as [|x w]; [congruence|]. inversion H0; subst. cbn [app].
    rewrite H3. eapply star_complete; eauto. now rewrite Hk.
  - destruct w as [|x w]; [congruence|]. inversion H0; subst. cbn [app].
    rewrite H3. eapply lazy_complete; eauto. now rewrite Hk.
  - destruct (IHmatches _ (fun s' => option_map (pair s') (k s')) (rest, a))
      as [[c1 [s1 a1]] H1]; [now rewrite Hk|].
    rewrite H1. eauto.
  - rewrite Hk. cbn. eauto.
Qed.

(** A lazy repetition stops at the first place where the rest of the
    pattern succeeds. *)
Lemma lazy_minimal (A : Type) c (k : str -> option A) :
  forall s a,
    lazy c s k = Some a ->
    exists w rest,
      s = w ++ rest /\ allIn c w /\ k rest = Some a
      /\ (forall w1 w2, w = w1 ++ w2 -> w2 <> [] -> k (w2 ++ rest) = None).
Proof.
  induction s as [|x s IH]; intros a H; cbn [lazy] in H.
  - destruct (k []) eqn:Hk; [|discriminate]. inversion H; subst.
    exists [], []. repeat split; auto; [constructor|].
    intros w1 w2 E. symmetry in E. apply app_eq_nil in E. destruct E. congruence.
  - destruct (k (x :: s)) eqn:Hk.
    + inversion H; subst. exists [], (x :: s). repeat split; auto; [constructor|].
      intros w1 w2 E. symmetry in E. apply app_eq_nil in E. destruct E. congruence.
    + destruct (mem c x) eqn:Hx; [|discriminate].
      destruct (IH _ H) as (w & rest & -> & Hw & Hr & Hmin).
      exists (x :: w), rest. repeat split; auto; [now constructor|].
      intros [|y w1] w2 E Hne; cbn [app] in E.
      * subst w2. exact Hk.
      * inversion E; subst. now apply Hmin with (w1 := w1).
Qed.

(** A pattern that starts with a lazy group: the group holds the
    shortest non-empty prefix after which the rest of the pattern
    matches. *)
Lemma run_lazy_group (A : Type) c R t (k : str -> option A) caps a :
  run (Seq (Group (PlusLazy c)) R) t k = Some (caps, a) ->
  exists x w rest caps',
    t = (x :: w) ++ rest /\ mem c x = true /\ allIn c w
    /\ caps = (x :: w) :: caps'
    /\ run R rest k = Some (caps', a)
    /\ (forall w1 w2, w = w1 ++ w2 -> w2 <> [] -> run R (w2 ++ rest) k = None).
Proof.
  intros H. cbn [run] in H. destruct t as [|x t]; [discriminate|].
  destruct (mem c x) eqn:Hx; [|discriminate].
  destruct (lazy c t _) as [[c1 [s1 [c2 a2]]]|] eqn:E; [|discriminate].
  inversion H; subst. clear H.
  apply lazy_minimal in E. destruct E as (w & rest & -> & Hw & Hk & Hmin).
  destruct (run R rest k) as [[c2' a2']|] eqn:ER; [|discriminate].
  cbn in Hk. inversion Hk; subst.
  exists x, w, s1, c2. split; [reflexivity|]. split; [exact Hx|]. split; [exact Hw|].
  split.
  { change (x :: w ++ s1) with ((x :: w) ++ s1). now rewrite consumed_app. }
  split; [exact ER|].
  intros w1 w2 Ew Hne. specialize (Hmin w1 w2 Ew Hne).
  destruct (run R (w2 ++ s1) k); [discriminate|reflexivity].
Qed.

Lemma matches_pluslazy_inv c s s' cs :
  matches (PlusLazy c) s s' cs ->
  exists w, s = w ++ s' /\ w <> [] /\ allIn c w /\ cs = [].
Proof. inversion 1; subst. eauto. Qed.

Lemma matches_tail_group c s s' cs :
  matches (Seq (Group (Plus c)) Eol) s s' cs ->
  s' = [] /\ s <> [] /\ allIn c s /\ cs = [s].
Proof.
  intros M. apply matches_seq_inv in M. destruct M as (s1 & c1 & c2 & M1 & M2 & ->).
  apply matches_eol_inv in M2. destruct M2 as (-> & -> & ->).
  apply matches_group_plus_inv in M1. destruct M1 as (w & -> & Hne & Hw & ->).
  rewrite app_nil_r. auto.
Qed.

Lemma matches_tail_group_intro c s :
  s <> [] -> allIn c s -> matches (Seq (Group (Plus c)) Eol) s [] ([s] ++ []).
Proof.
  intros Hne Hs. apply M_Seq with (s1 := []); [|constructor].
  rewrite <- (app_nil_r s) at 1. constructor. now constructor.
Qed.

Lemma dialogue_regex_exec t m :
  exec DIALOGUE_REGEX t = Some m ->
  exists x w emotion content,
    t = (x :: w) ++ [c_LPAR] ++ emotion ++ [c_RPAR; c_FCOLON] ++ content
    /\ m = [t; x :: w; emotion; content]
    /\ ~ In c_LPAR w /\ emotion <> [] /\ content <> [] /\ allIn Dot t.
Proof.
  unfold exec. destruct (run DIALOGUE_REGEX t (fun s' => Some s')) as [[caps s']|] eqn:E;
    [|discriminate].
  intros H. inversion H; subst. clear H. unfold DIALOGUE_REGEX in E.
  apply run_lazy_group in E.
  destruct E as (x & w & rest & caps' & -> & Hx & Hw & -> & ER & Hmin).
  pose proof ER as ER'. apply run_sound in ER'. destruct ER' as (s1 & M & Hk).
  inversion Hk; subst s1. clear Hk.
  apply matches_seq_inv in M. destruct M as (r1 & c1 & c2 & M1 & M & ->).
  apply matches_lit_inv in M1. destruct M1 as [-> ->].
  apply matches_seq_inv in M. destruct M as (r2 & c3 & c4 & M2 & M & ->).
  apply matches_group_inv in M2. destruct M2 as (e & c5 & -> & M2 & ->).
  apply matches_pluslazy_inv in M2. destruct M2 as (e' & E1 & Hne & Hall & ->).
  apply app_inv_tail in E1. subst e'.
  apply matches_seq_inv in M. destruct M as (r3 & c6 & c7 & M3 & M & ->).
  apply matches_lit_inv in M3. destruct M3 as [-> ->].
  apply matches_tail_group in M. destruct M as (-> & Hc & Hcd & ->).
  exists x, w, e, r3. cbn [app].
  assert (Ht : allIn Dot ((x :: w) ++ [c_LPAR] ++ e ++ [c_RPAR; c_FCOLON] ++ r3)).
  { rewrite !allIn_app. repeat split; auto; repeat constructor; auto. }
  split; [reflexivity|]. split.
  { rewrite consumed_all. reflexivity. }
  split; [|auto].
  intros Hin. apply in_split in Hin. destruct Hin as (w1 & w2 & ->).
  specialize (Hmin w1 (c_LPAR :: w2) eq_refl ltac:(discriminate)).
  assert (Mm : matches (Seq (Lit [c_LPAR])
                          (Seq (Group (PlusLazy Dot))
                             (Seq (Lit [c_RPAR; c_FCOLON]) (Seq (Group (Plus Dot)) Eol))))
                 ((c_LPAR :: w2) ++ [c_LPAR] ++ e ++ [c_RPAR; c_FCOLON] ++ r3) []
                 ([] ++ ([w2 ++ [c_LPAR] ++ e] ++ ([] ++ ([r3] ++ []))))).
  { apply M_Seq with (s1 := (w2 ++ [c_LPAR] ++ e) ++ [c_RPAR; c_FCOLON] ++ r3).
    { replace ((c_LPAR :: w2) ++ [c_LPAR] ++ e ++ [c_RPAR; c_FCOLON] ++ r3)
        with ([c_LPAR] ++ (w2 ++ [c_LPAR] ++ e) ++ [c_RPAR; c_FCOLON] ++ r3)
        by (cbn [app]; now rewrite <- !app_assoc).
      constructor. }
    apply M_Seq with (s1 := [c_RPAR; c_FCOLON] ++ r3).
    { constructor. constructor.
      - destruct w2; discriminate.
      - rewrite !allIn_app in Hw. rewrite !allIn_app.
        destruct Hw as [_ Hw]. inversion Hw; subst.
        repeat split; auto. repeat constructor. }
    apply M_Seq with (s1 := r3); [constructor|].
    now apply matches_tail_group_intro. }
  destruct (run_complete Mm (fun s' => Some s') eq_refl) as [res Hres].
  cbn [app] in Hmin, Hres. congruence.
Qed.

Lemma simple_dialogue_regex_exec t m :
  exec SIMPLE_DIALOGUE_REGEX t = Some m ->
  exists x w content,
    t = (x :: w) ++ [c_FCOLON] ++ content
    /\ m = [t; x :: w; content]
    /\ ~ In c_FCOLON w /\ content <> [] /\ allIn Dot t.
Proof.
  unfold exec.
  destruct (run SIMPLE_DIALOGUE_REGEX t (fun s' => Some s')) as [[caps s']|] eqn:E;
    [|discriminate].
  intros H. inversion H; subst. clear H. unfold SIMPLE_DIALOGUE_REGEX in E.
  apply run_lazy_group in E.
  destruct E as (x & w & rest & caps' & -> & Hx & Hw & -> & ER & Hmin).
  pose proof ER as ER'. apply run_sound in ER'. destruct ER' as (s1 & M & Hk).
  inversion Hk; subst s1. clear Hk.
  apply matches_seq_inv in M. destruct M as (r1 & c1 & c2 & M1 & M & ->).
  apply matches_lit_inv in M1. destruct M1 as [-> ->].
  apply matches_tail_group in M. destruct M as (-> & Hc & Hcd & ->).
  exists x, w, r1. cbn [app].
  assert (Ht : allIn Dot ((x :: w) ++ [c_FCOLON] ++ r1)).
  { rewrite !allIn_app. repeat split; auto; repeat constructor; auto. }
  split; [reflexivity|]. split.
  { rewrite consumed_all. reflexivity. }
  split; [|auto].
  intros Hin. apply in_split in Hin. destruct Hin as (w1 & w2 & ->).
  specialize (Hmin w1 (c_FCOLON :: w2) eq_refl ltac:(discriminate)).
  assert (Mm : matches (Seq (Lit [c_FCOLON]) (Seq (Group (Plus Dot)) Eol))
                 ((c_FCOLON :: w2) ++ [c_FCOLON] ++ r1) []
                 ([] ++ ([w2 ++ [c_FCOLON] ++ r1] ++ []))).
  { apply M_Seq with (s1 := w2 ++ [c_FCOLON] ++ r1).
    { change ((c_FCOLON :: w2) ++ [c_FCOLON] ++ r1)
        with ([c_FCOLON] ++ w2 ++ [c_FCOLON] ++ r1). constructor. }
    apply matches_tail_group_intro.
    - destruct w2; discriminate.
    - rewrite !allIn_app in Hw. rewrite !allIn_app.
      destruct Hw as [_ Hw]. inversion Hw; subst.
      repeat split; auto. repeat constructor. }
  destruct (run_complete Mm (fun s' => Some s') eq_refl) as [res Hres].
  cbn [app] in Hmin, Hres. congruence.
Qed.

(** X22: what [parseDialogue] takes apart.  When it reads a line, the
    trimmed line is the name, then the emotion between full-width
    parentheses if there is one, then a full-width colon and the content;
    name, emotion and content are not empty; the name ends at the first
    opening parenthesis (with an emotion) or at the first colon (without)
    that follows its first character; and the word count is that of the
    content. *)
Theorem parseDialogue_parts :
  forall line d,
    parseDialogue line = Some d ->
    exists x w,
      d_characterName d = x :: w
      /\ d_content d <> []
      /\ d_wordCount d = len (JS.removeWhiteSpace (d_content d))
      /\ match d_emotion d with
         | Some emotion =>
             JS.trim line
             = d_characterName d ++ [c_LPAR] ++ emotion ++ [c_RPAR; c_FCOLON]
                 ++ d_content d
             /\ emotion <> [] /\ ~ In c_LPAR w
         | None =>
             JS.trim line = d_characterName d ++ [c_FCOLON] ++ d_content d
             /\ ~ In c_FCOLON w
         end.
Proof.
  intros line d. unfold parseDialogue.
  destruct (exec DIALOGUE_REGEX (JS.trim line)) as [m|] eqn:E1.
  - intros H. inversion H; subst. clear H.
    apply dialogue_regex_exec in E1.
    destruct E1 as (x & w & e & content & Et & -> & Hw & He & Hc & _).
    exists x, w. cbn [d_characterName d_content d_wordCount d_emotion at_ nth].
    rewrite stats_countWords_len. repeat split; auto.
  - destruct (exec SIMPLE_DIALOGUE_REGEX (JS.trim line)) as [m|] eqn:E2; [|discriminate].
    intros H. inversion H; subst. clear H.
    apply simple_dialogue_regex_exec in E2.
    destruct E2 as (x & w & content & Et & -> & Hw & Hc & _).
    exists x, w. cbn [d_characterName d_content d_wordCount d_emotion at_ nth].
    rewrite stats_countWords_len. repeat split; auto.
Qed.

Lemma parseDialogue_parts_witness :
  exists x w,
    text_ZhangSan = x :: w
    /\ text_NiHaoShiJie <> []
    /\ 4 = len (JS.removeWhiteSpace text_NiHaoShiJie)
    /\ (JS.trim emotionLine
        = text_ZhangSan ++ [c_LPAR] ++ text_Xiao ++ [c_RPAR; c_FCOLON] ++ text_NiHaoShiJie
        /\ text_Xiao <> [] /\ ~ In c_LPAR w).
Proof.
  exact (@parseDialogue_parts emotionLine
           {| d_characterName := text_ZhangSan; d_emotion := Some text_Xiao;
              d_content := text_NiHaoShiJie; d_wordCount := 4 |} eq_refl).
Defined.

(** ** Characters with few scenes *)

Lemma totalScenes_acc l acc :
  fold_left (fun sum c => sum + cs_sceneCount c) l acc
  = acc + fold_left (fun sum c => sum + cs_sceneCount c) l 0.
Proof.
  revert acc. induction l as [|x l IH]; intros acc; cbn [fold_left]; [lia|].
  rewrite IH, (IH (0 + cs_sceneCount x)). lia.
Qed.

(** The test against half the average, in whole numbers. *)
Lemma below_half_average count total (n : positive) :
  Qltb (inject_Z count) (inject_Z total / inject_Z (Z.pos n) / 2)
  = (2 * Z.pos n * count <? total).
Proof.
  unfold Qltb. destruct (Z.ltb_spec (2 * Z.pos n * count) total) as [H|H].
  - apply negb_true_iff. apply not_true_is_false. rewrite Qle_bool_iff.
    unfold Qle, Qdiv, Qmult, Qinv, inject_Z. cbn [Qnum Qden].
    rewrite !Z.mul_1_r, !Pos.mul_1_l. rewrite Pos2Z.inj_mul. lia.
  - apply negb_false_iff. rewrite Qle_bool_iff.
    unfold Qle, Qdiv, Qmult, Qinv, inject_Z. cbn [Qnum Qden].
    rewrite !Z.mul_1_r, !Pos.mul_1_l. rewrite Pos2Z.inj_mul. lia.
Qed.

Lemma getLowAppearanceCharacters_whole characterStats :
  getLowAppearanceCharacters characterStats
  = map cs_name
      (filter (fun c =>
                 2 * Z.of_nat (length characterStats) * cs_sceneCount c
                 <? fold_left (fun sum c => sum + cs_sceneCount c) characterStats 0)
              characterStats).
Proof.
  unfold getLowAppearanceCharacters. destruct characterStats as [|c0 l]; [reflexivity|].
  set (stats := c0 :: l).
  assert (E : Z.of_nat (length stats) = Z.pos (Pos.of_succ_nat (length l))).
  { unfold stats. cbn [length]. rewrite Zpos_P_of_succ_nat. lia. }
  rewrite E. f_equal. apply filter_ext. intros c. apply below_half_average.
Qed.

Lemma filter_all_or_fewer (A : Type) (f : A -> bool) l :
  Forall (fun x => f x = true) l \/ (length (filter f l) < length l)%nat.
Proof.
  induction l as [|x l IH]; [left; constructor|]. cbn [filter length].
  pose proof (filter_length_le f l).
  destruct (f x) eqn:E; [|right; lia].
  destruct IH as [IH|IH]; [left; now constructor|right; cbn [length]; lia].
Qed.

Lemma all_below_total k total l :
  l <> [] ->
  Forall (fun c => k * cs_sceneCount c < total) l ->
  k * fold_left (fun sum c => sum + cs_sceneCount c) l 0
  < Z.of_nat (length l) * total.
Proof.
  intros Hne H. induction H as [|c l Hc Hl IH]; [congruence|].
  cbn [fold_left length]. rewrite totalScenes_acc.
  destruct l as [|c' l'].
  - cbn [fold_left length]. lia.
  - specialize (IH ltac:(discriminate)). lia.
Qed.

Lemma totalScenes_nonneg l :
  Forall (fun c => 0 <= cs_sceneCount c) l ->
  0 <= fold_left (fun sum c => sum + cs_sceneCount c) l 0.
Proof.
  induction 1 as [|c l Hc _ IH]; cbn [fold_left]; [lia|].
  rewrite totalScenes_acc. lia.
Qed.

(** X23: for scene counts that are not negative and sum to less than 2^53
    (where the sum is exact in doubles and the rounding of the average
    cannot carry it across a scene count), [getLowAppearanceCharacters]
    lists the names of the characters whose scene count is below half the
    average, that is those with [2 * n * sceneCount < total] for [n]
    characters, and it never lists every character of a list that is not
    empty. *)
Theorem getLowAppearanceCharacters_never_everyone :
  forall characterStats,
    characterStats <> [] ->
    Forall (fun c => 0 <= cs_sceneCount c) characterStats ->
    fold_left (fun sum c => sum + cs_sceneCount c) characterStats 0 < 2 ^ 53 ->
    getLowAppearanceCharacters characterStats
    = map cs_name
        (filter (fun c =>
                   2 * Z.of_nat (length characterStats) * cs_sceneCount c
                   <? fold_left (fun sum c => sum + cs_sceneCount c) characterStats 0)
                characterStats)
    /\ (length (getLowAppearanceCharacters characterStats)
        < length characterStats)%nat.
Proof.
  intros l Hne Hpos _. split; [apply getLowAppearanceCharacters_whole|].
  rewrite getLowAppearanceCharacters_whole, length_map.
  set (n := Z.of_nat (length l)).
  set (total := fold_left (fun sum c => sum + cs_sceneCount c) l 0).
  destruct (filter_all_or_fewer (fun c => 2 * n * cs_sceneCount c <? total) l)
    as [Hall|Hlt]; [exfalso|exact Hlt].
  assert (Hall' : Forall (fun c => (2 * n) * cs_sceneCount c < total) l).
  { eapply Forall_impl; [|exact Hall]. cbn. intros c Hc. now apply Z.ltb_lt. }
  pose proof (@all_below_total _ _ _ Hne Hall') as Hsum.
  pose proof (totalScenes_nonneg Hpos) as Hnn.
  fold total in Hsum, Hnn. fold n in Hsum.
  assert (0 < n) by (unfold n; destruct l; [congruence|cbn [length]; lia]).
  nia.
Qed.

Lemma getLowAppearanceCharacters_never_everyone_witness :
  getLowAppearanceCharacters
    [ {| cs_name := text_ZhangSan; cs_sceneCount := 9; cs_dialogueCount := 0;
         cs_dialogueWordCount := 0; cs_scenes := [] |};
      {| cs_name := text_Xiao; cs_sceneCount := 1; cs_dialogueCount := 0;
         cs_dialogueWordCount := 0; cs_scenes := [] |} ]
  = [text_Xiao].
Proof.
  refine (eq_trans (proj1 (@getLowAppearanceCharacters_never_everyone _ _ _ _)) _).
  - discriminate.
  - repeat constructor; cbn; lia.
  - vm_compute. reflexivity.
  - reflexivity.
Defined.

(** ** Word counts of parts of a text *)

Lemma firstn_plus (A : Type) (p q : nat) (l : list A) :
  firstn (p + q) l = firstn p l ++ firstn q (skipn p l).
Proof.
  revert l. induction p as [|p IH]; intros l; [reflexivity|].
  destruct l as [|x l]; cbn [Nat.add firstn skipn app].
  - now rewrite firstn_nil.
  - now rewrite IH.
Qed.

Lemma skipn_plus (A : Type) (p q : nat) (l : list A) :
  skipn (p + q) l = skipn q (skipn p l).
Proof.
  revert l. induction p as [|p IH]; intros l; [reflexivity|].
  destruct l as [|x l]; cbn [Nat.add skipn]; [now rewrite skipn_nil|apply IH].
Qed.

Lemma sliceIndex_nonneg (A : Type) i (l : list A) :
  0 <= i -> sliceIndex i l = Nat.min (Z.to_nat i) (length l).
Proof.
  intros H. unfold sliceIndex. destruct (Z.ltb_spec i 0); lia.
Qed.

Lemma slice_adjacent (A : Type) a b c (l : list A) :
  0 <= a <= b -> b <= c -> slice a c l = slice a b l ++ slice b c l.
Proof.
  intros Hab Hbc. unfold slice. rewrite !sliceIndex_nonneg by lia.
  set (n := length l).
  set (ia := Nat.min (Z.to_nat a) n). set (ib := Nat.min (Z.to_nat b) n).
  set (ic := Nat.min (Z.to_nat c) n).
  assert (H1 : (ia <= ib)%nat) by (unfold ia, ib; lia).
  assert (H2 : (ib <= ic)%nat) by (unfold ib, ic; lia).
  replace (ic - ia)%nat with ((ib - ia) + (ic - ib))%nat by lia.
  rewrite firstn_plus. f_equal. rewrite <- skipn_plus. f_equal. f_equal. lia.
Qed.

Lemma join_app sep (l1 l2 : list str) :
  l1 <> [] -> l2 <> [] ->
  JS.join sep (l1 ++ l2) = JS.join sep l1 ++ sep ++ JS.join sep l2.
Proof.
  intros H1 H2. induction l1 as [|x l1 IH]; [congruence|].
  destruct l1 as [|y l1].
  - destruct l2; [congruence|reflexivity].
  - cbn [app JS.join] in *. rewrite IH by discriminate. now rewrite <- !app_assoc.
Qed.

Lemma countContentWords_join_app l1 l2 :
  StatsService.countContentWords (JS.join [c_NL] (l1 ++ l2))
  = StatsService.countContentWords (JS.join [c_NL] l1)
    + StatsService.countContentWords (JS.join [c_NL] l2).
Proof.
  destruct l1 as [|x l1]; [reflexivity|].
  destruct l2 as [|y l2].
  - rewrite app_nil_r. cbn [JS.join]. change (StatsService.countContentWords []) with 0. lia.
  - rewrite join_app by discriminate. apply countContentWords_lines.
Qed.

(** X24: [calculateSceneWordCount] adds up over adjacent ranges of lines:
    the count from a scene to a later line is the count up to any scene
    header in between plus the count from that header on. *)
Theorem calculateSceneWordCount_adjacent :
  forall content scene next nextSceneLine,
    0 <= s_line scene <= s_line next ->
    s_line next <= nextSceneLine ->
    calculateSceneWordCount content scene nextSceneLine
    = calculateSceneWordCount content scene (s_line next)
      + calculateSceneWordCount content next nextSceneLine.
Proof.
  intros content scene next nextSceneLine H1 H2. unfold calculateSceneWordCount.
  rewrite (@slice_adjacent _ (s_line scene) (s_line next) nextSceneLine) by lia.
  apply countContentWords_join_app.
Qed.

Lemma calculateSceneWordCount_adjacent_witness :
  calculateSceneWordCount (text_NiHao ++ [c_NL] ++ text_Xiao) (sceneAt 1 1 0) 2
  = calculateSceneWordCount (text_NiHao ++ [c_NL] ++ text_Xiao) (sceneAt 1 1 0) 1
    + calculateSceneWordCount (text_NiHao ++ [c_NL] ++ text_Xiao) (sceneAt 1 2 1) 2.
Proof.
  apply (@calculateSceneWordCount_adjacent (text_NiHao ++ [c_NL] ++ text_Xiao)
           (sceneAt 1 1 0) (sceneAt 1 2 1) 2); cbn; lia.
Defined.

(** * The editor extensions: properties *)

(** ** The smart Enter key *)

Lemma sceneHeaderRegex_run d1 d2 w rest :
  isNumeral d1 -> isNumeral d2 -> w <> [] -> allIn Space w -> stops Space rest ->
  test sceneHeaderRegex (d1 ++ [c_DASH] ++ d2 ++ w ++ rest) = true.
Proof.
  intros [N1 D1] [N2 D2] Hw Sw Hr. unfold test, exec, sceneHeaderRegex.
  destruct (space_run_cons Hw Sw) as (x & w' & -> & Hx).
  assert (E : run (Seq (Plus Digit) (Seq (Lit [c_DASH]) (Seq (Plus Digit) (Plus Space))))
                (d1 ++ [c_DASH] ++ d2 ++ (x :: w') ++ rest) (fun s' => Some s')
              = Some ([] ++ ([] ++ ([] ++ [])), rest)).
  { apply run_seq. apply plus_greedy; auto; [reflexivity|].
    apply run_seq. apply run_lit.
    apply run_seq. apply plus_greedy; auto.
    - cbn [app stops mem]. now apply space_not_digit.
    - now apply plus_greedy. }
  now rewrite E.
Qed.

Lemma isSceneHeaderLine_of_header line h :
  parseSceneHeader line = Some h -> isSceneHeaderLine line = true.
Proof.
  intros H. apply parseSceneHeader_inv in H.
  destruct H as (d1 & d2 & w1 & w2 & w3 & Et & N1 & N2 & _ & _ & [V1 W1] & [Nt Dt] & _).
  unfold isSceneHeaderLine. rewrite Et. apply sceneHeaderRegex_run; auto.
  destruct (h_time h) as [|y t]; [congruence|]. inversion Dt; subst.
  cbn [app stops mem] in *. now apply negb_true_iff.
Qed.

(** X25: Enter on a scene header never inserts the action mark: on every
    line that [parseSceneHeader] reads as a header,
    [shouldInsertTriangle] is false. *)
Theorem shouldInsertTriangle_not_after_header :
  forall line h,
    parseSceneHeader line = Some h -> shouldInsertTriangle line = false.
Proof.
  intros line h H. unfold shouldInsertTriangle.
  rewrite (isSceneHeaderLine_of_header _ H).
  destruct (isEmptyLine line), (lineStartsWithTriangle line); reflexivity.
Qed.

Lemma shouldInsertTriangle_not_after_header_witness :
  shouldInsertTriangle (formatHeader (header 3 2 [c_YU; c_YE] [c_WAI] [97; 32; 98]%N))
  = false.
Proof.
  apply (@shouldInsertTriangle_not_after_header _
           (header 3 2 [c_YU; c_YE] [c_WAI] [97; 32; 98]%N)).
  vm_compute. reflexivity.
Defined.

(** X26: [shouldInsertTriangle] is decided by four of its six tests: the
    mark is inserted exactly when the line is not empty, does not start
    with the mark, is not a numbered line and is not a bracketed marker.
    The tests for character lists and dialogue never change the answer. *)
Theorem shouldInsertTriangle_four_tests :
  forall currentLine,
    shouldInsertTriangle currentLine
    = negb (isEmptyLine currentLine || lineStartsWithTriangle currentLine
            || isSceneHeaderLine currentLine || isSpecialMarkerLine currentLine).
Proof.
  intros line. unfold shouldInsertTriangle.
  destruct (isEmptyLine line); [reflexivity|].
  destruct (lineStartsWithTriangle line); [reflexivity|].
  destruct (isSceneHeaderLine line); [reflexivity|].
  cbn [orb]. destruct (isCharacterListLine line) eqn:Ec.
  - unfold isCharacterListLine, isSpecialMarkerLine in *.
    destruct (JS.trim line) as [|c t]; [discriminate|].
    cbn [JS.startsWith] in *.
    destruct (N.eqb_spec c_REN c) as [<-|]; [reflexivity|discriminate].
  - destruct (isSpecialMarkerLine line); [reflexivity|].
    destruct (isDialogueLine line); reflexivity.
Qed.

(** ** The character popup *)

Lemma matches_star_inv c s s' cs :
  matches (Star c) s s' cs -> exists w, s = w ++ s' /\ allIn c w /\ cs = [].
Proof. inversion 1; subst. eauto. Qed.

Lemma trimEnd_decompose s :
  exists ws, s = JS.trimEnd s ++ ws /\ allIn Space ws.
Proof.
  unfold JS.trimEnd. destruct (dropWhile_split isWhiteSpace (rev s)) as (w & E & Hw & _).
  exists (rev w). split.
  - apply (f_equal (@rev _)) in E. rewrite rev_involutive, rev_app_distr in E. exact E.
  - unfold allIn. apply Forall_rev. exact Hw.
Qed.

Lemma trim_all_space s : allIn Space s -> JS.trim s = [].
Proof.
  intros H. unfold JS.trim, JS.trimStart, JS.trimEnd.
  rewrite <- (app_nil_r s), dropWhile_app_all by exact H. reflexivity.
Qed.

Lemma trim_empty_all_space s : JS.trim s = [] -> allIn Space s.
Proof.
  intros H. destruct (trim_decompose s) as (pre & post & E & Hpre & Hpost).
  rewrite H in E. rewrite E. apply allIn_app. auto.
Qed.

Lemma endsWith_last p s : endsWith [p] s = true <-> exists u, s = u ++ [p].
Proof.
  unfold endsWith. cbn [rev app]. split.
  - destruct (rev s) as [|x u] eqn:E; cbn [JS.startsWith]; [discriminate|].
    intros H. apply andb_prop in H. destruct H as [H _]. apply N.eqb_eq in H. subst x.
    exists (rev u). now apply rev_head_last.
  - intros [u ->]. rewrite rev_app_distr. cbn [rev app JS.startsWith].
    now rewrite N.eqb_refl.
Qed.

(** X27: when the character popup opens.  [shouldTriggerCharacterPopup]
    is true exactly when the text before the cursor is white space only,
    or is anything that ends with the action mark followed by white space
    only: the mark need not be at the start of the line. *)
Theorem shouldTriggerCharacterPopup_exactly :
  forall lineText posInLine,
    shouldTriggerCharacterPopup lineText posInLine = true
    <-> exists before ws,
          substringTo posInLine lineText = before ++ ws
          /\ allIn Space ws
          /\ (before = [] \/ exists u, before = u ++ [c_TRI]).
Proof.
  intros lineText posInLine. unfold shouldTriggerCharacterPopup.
  set (textBefore := substringTo posInLine lineText). cbv zeta. split.
  - intros H. destruct (JS.trim textBefore) as [|c t] eqn:Et.
    { exists [], textBefore. split; [reflexivity|]. split; [|now left].
      now apply trim_empty_all_space. }
    cbn [isEmpty] in H.
    destruct (trimEnd_decompose textBefore) as (ws & E & Hws).
    destruct (str_eqb_spec (JS.trimEnd textBefore) [c_TRI]) as [E1|_].
    { exists [c_TRI], ws. rewrite <- E1. split; [exact E|]. split; [exact Hws|].
      right. exists []. now rewrite E1. }
    cbn [orb] in H.
    destruct (endsWith [c_TRI] (JS.trimEnd textBefore)) eqn:E2.
    { apply endsWith_last in E2. destruct E2 as [u Eu].
      exists (JS.trimEnd textBefore), ws. split; [exact E|]. split; [exact Hws|].
      right. now exists u. }
    destruct (test triangleOnlyRegex textBefore) eqn:E3; [|discriminate].
    unfold test, exec in E3.
    destruct (run triangleOnlyRegex textBefore (fun s' => Some s')) as [[caps s']|] eqn:R;
      [|discriminate].
    apply run_sound in R. destruct R as (s1 & M & _). unfold triangleOnlyRegex in M.
    apply matches_seq_inv in M. destruct M as (r1 & c1 & c2 & M1 & M & _).
    apply matches_lit_inv in M1. destruct M1 as [E4 _].
    apply matches_seq_inv in M. destruct M as (r2 & c3 & c4 & M2 & M3 & _).
    apply matches_eol_inv in M3. destruct M3 as (-> & _ & _).
    apply matches_star_inv in M2. destruct M2 as (w & -> & Hw & _).
    rewrite app_nil_r in E4.
    exists [c_TRI], w. split; [exact E4|]. split; [exact Hw|].
    right. now exists [].
  - intros (before & ws & E & Hws & Hb).
    destruct (JS.trim textBefore) as [|c t] eqn:Et; [reflexivity|]. cbn [isEmpty].
    destruct Hb as [->|[u ->]].
    { cbn [app] in E. rewrite E, (trim_all_space Hws) in Et. discriminate. }
    assert (Hend : JS.trimEnd textBefore = u ++ [c_TRI]).
    { rewrite E. unfold JS.trimEnd. rewrite rev_app_distr.
      rewrite dropWhile_app_all by (apply Forall_rev; exact Hws).
      rewrite rev_app_distr. cbn [rev app JS.dropWhile].
      change (isWhiteSpace c_TRI) with false. cbn iota.
      change (c_TRI :: rev u) with ([c_TRI] ++ rev u).
      now rewrite rev_app_distr, rev_involutive. }
    rewrite Hend.
    assert (E2 : endsWith [c_TRI] (u ++ [c_TRI]) = true) by (apply endsWith_last; eauto).
    rewrite E2. now rewrite orb_true_r.
Qed.

(** * Episode statistics *)

Lemma get_result (V : Type) key (this : LRUCache.t V) cached cache1 :
  LRUCache.get key this = (cached, cache1) ->
  match cached with
  | Some value => LRUCache.mapGet key (LRUCache.cache cache1) = Some value
  | None => cache1 = this
  end.
Proof.
  unfold LRUCache.get.
  destruct (LRUCache.mapHas key (LRUCache.cache this)) eqn:Hh; cbn [negb].
  - destruct (LRUCache.mapGet key (LRUCache.cache this)) as [value|] eqn:Hg.
    + intros H. inversion H; subst. cbn [LRUCache.cache].
      rewrite mapSet_absent by apply mapDelete_absent.
      apply mapGet_last, mapDelete_absent.
    + intros H. now inversion H.
  - intros H. now inversion H.
Qed.

Lemma get_after_set (V : Type) key (value : V) this :
  LRUCache.get key (LRUCache.set key value this)
  = (Some value, LRUCache.set key value this).
Proof.
  destruct (set_cache key value this) as (kept & E & Hk & _).
  assert (Hg : LRUCache.mapGet key (LRUCache.cache (LRUCache.set key value this))
               = Some value).
  { rewrite E. now apply mapGet_last. }
  rewrite (get_cache _ _ Hg). f_equal.
  destruct (LRUCache.set key value this) as [ms c] eqn:Es. cbn [LRUCache.cache] in *.
  cbn [LRUCache.maxSize]. f_equal. rewrite E.
  unfold LRUCache.mapDelete. rewrite filter_app. cbn [filter fst].
  rewrite (proj2 (str_eqb_eq key key) eq_refl). cbn [negb]. rewrite app_nil_r.
  f_equal. clear -Hk. induction kept as [|[k v] kept IH]; [reflexivity|].
  cbn [map fst In filter] in *. destruct (str_eqb_spec k key) as [->|Hne]; [tauto|].
  cbn [negb]. f_equal. apply IH. tauto.
Qed.

(** X28: [calculateEpisodeStats] answers from its cache.  A second call
    with an index that carries the same content hash returns what the
    first call returned, whatever text and scenes it is given: the result
    is looked up by the hash of the index alone. *)
Theorem calculateEpisodeStats_memoized :
  forall content1 index1 content2 index2 this,
    i_contentHash index1 = i_contentHash index2 ->
    let '(result1, this1) := calculateEpisodeStats content1 index1 this in
    let '(result2, _) := calculateEpisodeStats content2 index2 this1 in
    result2 = result1.
Proof.
  intros content1 index1 content2 index2 this Hh.
  unfold calculateEpisodeStats. rewrite <- Hh.
  set (key := EPISODE_KEY ++ i_contentHash index1).
  destruct (LRUCache.get key (st_cache this)) as [cached cache1] eqn:G1.
  apply get_result in G1. destruct cached as [value|]; cbn [st_cache].
  - rewrite (get_cache _ _ G1). reflexivity.
  - rewrite get_after_set. reflexivity.
Qed.

Lemma calculateEpisodeStats_memoized_witness :
  let '(result1, this1) :=
    calculateEpisodeStats [] (indexOf []) (newStatsService 100) in
  let '(result2, _) :=
    calculateEpisodeStats text_NiHao (indexOf [sceneAt 1 1 0]) this1 in
  result2 = result1.
Proof.
  apply (@calculateEpisodeStats_memoized [] (indexOf []) text_NiHao
           (indexOf [sceneAt 1 1 0]) (newStatsService 100)).
  reflexivity.
Defined.

(** ** The episodes and their scenes *)

Lemma sortInsert_In (A : Type) (compare : A -> A -> Z) x l y :
  In y (sortInsert compare x l) <-> y = x \/ In y l.
Proof.
  induction l as [|z l IH]; cbn [sortInsert In]; [intuition|].
  destruct (compare z x <=? 0); cbn [In]; [rewrite IH|]; intuition.
Qed.

Lemma sortBy_In (A : Type) (compare : A -> A -> Z) l y :
  In y (sortBy compare l) <-> In y l.
Proof.
  unfold sortBy.
  assert (H : forall acc, In y (fold_left (fun sorted x => sortInsert compare x sorted) l acc)
                          <-> In y l \/ In y acc).
  { induction l as [|x l IH]; intros acc; cbn [fold_left In]; [intuition|].
    rewrite IH, sortInsert_In. intuition. }
  rewrite H. cbn [In]. intuition.
Qed.

Lemma sortInsert_length (A : Type) (compare : A -> A -> Z) x l :
  length (sortInsert compare x l) = S (length l).
Proof.
  induction l as [|z l IH]; cbn [sortInsert length]; [reflexivity|].
  destruct (compare z x <=? 0); cbn [length]; [now rewrite IH|reflexivity].
Qed.

Lemma sortBy_length (A : Type) (compare : A -> A -> Z) (l : list A) :
  length (sortBy compare l) = length l.
Proof.
  unfold sortBy.
  assert (H : forall acc,
             length (fold_left (fun sorted x => sortInsert compare x sorted) l acc)
             = (length l + length acc)%nat).
  { induction l as [|x l IH]; intros acc; cbn [fold_left length]; [reflexivity|].
    rewrite IH, sortInsert_length. lia. }
  rewrite H. cbn [length]. lia.
Qed.

Lemma sortInsert_map (A : Type) (f : A -> Z) x l :
  map f (sortInsert (fun a b => f a - f b) x l)
  = sortInsert (fun a b => a - b) (f x) (map f l).
Proof.
  induction l as [|z l IH]; cbn [sortInsert map]; [reflexivity|].
  destruct (f z - f x <=? 0); cbn [map]; [now rewrite IH|reflexivity].
Qed.

Lemma sortBy_map (A : Type) (f : A -> Z) (l : list A) :
  map f (sortBy (fun a b => f a - f b) l) = sortBy (fun a b => a - b) (map f l).
Proof.
  unfold sortBy.
  assert (H : forall acc,
             map f (fold_left (fun sorted x => sortInsert (fun a b => f a - f b) x sorted)
                              l acc)
             = fold_left (fun sorted x => sortInsert (fun a b => a - b) x sorted)
                         (map f l) (map f acc)).
  { induction l as [|x l IH]; intros acc; cbn [fold_left map]; [reflexivity|].
    now rewrite IH, sortInsert_map. }
  apply (H []).
Qed.

Lemma groupAdd_keys scene (g : Z -> list SceneInfo) keys :
  NoDup keys ->
  groupAdd scene (map (fun k => (k, g k)) keys)
  = if existsb (Z.eqb (s_episode scene)) keys
    then map (fun k => (k, if k =? s_episode scene then g k ++ [scene] else g k)) keys
    else map (fun k => (k, g k)) keys ++ [(s_episode scene, [scene])].
Proof.
  induction keys as [|k keys IH]; intros Hnd; cbn [map groupAdd existsb app];
    [reflexivity|].
  inversion Hnd as [|? ? Hk Hnd']; subst.
  rewrite (Z.eqb_sym (s_episode scene) k).
  destruct (Z.eqb_spec k (s_episode scene)) as [E|Hne]; cbn [orb].
  - f_equal. apply map_ext_in. intros k' Hk'.
    destruct (Z.eqb_spec k' (s_episode scene)) as [E'|_]; [|reflexivity].
    exfalso. apply Hk. congruence.
  - rewrite (IH Hnd'). destruct (existsb (Z.eqb (s_episode scene)) keys); reflexivity.
Qed.

Lemma episodeMap_spec scenes :
  fold_left (fun m scene => groupAdd scene m) scenes []
  = map (fun k => (k, filter (fun s => s_episode s =? k) scenes))
        (fold_left (fun episodes scene => setAdd (s_episode scene) episodes) scenes []).
Proof.
  induction scenes as [|s l IH] using rev_ind; [reflexivity|].
  rewrite !fold_left_app. cbn [fold_left]. rewrite IH.
  destruct (@episodeSet_spec l [] (NoDup_nil _)) as [Hnd Hin].
  set (K := fold_left (fun episodes scene => setAdd (s_episode scene) episodes) l []) in *.
  rewrite (groupAdd_keys s _ Hnd). unfold setAdd.
  destruct (existsb (Z.eqb (s_episode s)) K) eqn:E.
  - apply map_ext. intros k. rewrite filter_app. cbn [filter].
    rewrite (Z.eqb_sym (s_episode s) k).
    destruct (k =? s_episode s); [reflexivity|now rewrite app_nil_r].
  - rewrite map_app. cbn [map]. f_equal.
    + apply map_ext_in. intros k Hk. rewrite filter_app. cbn [filter].
      destruct (Z.eqb_spec (s_episode s) k) as [E'|_]; [|now rewrite app_nil_r].
      exfalso. assert (Ht : existsb (Z.eqb (s_episode s)) K = true); [|congruence].
      apply existsb_exists. exists k. split; auto. now apply Z.eqb_eq.
    + rewrite filter_app. cbn [filter]. rewrite Z.eqb_refl.
      assert (En : filter (fun s0 => s_episode s0 =? s_episode s) l = []).
      { destruct (filter (fun s0 => s_episode s0 =? s_episode s) l) as [|q u] eqn:Ef;
          [reflexivity|].
        assert (Hq : In q (filter (fun s0 => s_episode s0 =? s_episode s) l))
          by (rewrite Ef; now left).
        apply filter_In in Hq. destruct Hq as [Hq Eq]. apply Z.eqb_eq in Eq.
        exfalso. assert (Ht : existsb (Z.eqb (s_episode s)) K = true); [|congruence].
        apply existsb_exists. exists (s_episode s). split; [|apply Z.eqb_refl].
        apply Hin. right. exists q. auto. }
      now rewrite En.
Qed.

Lemma computeEpisodeStats_unfold content index :
  computeEpisodeStats content index
  = sortBy (fun a b => e_episode a - e_episode b)
      (map (episodeEntry (i_scenes index) (JS.split c_NL content))
           (map (fun k => (k, filter (fun s => s_episode s =? k) (i_scenes index)))
                (fold_left (fun episodes scene => setAdd (s_episode scene) episodes)
                           (i_scenes index) []))).
Proof.
  unfold computeEpisodeStats. destruct (i_scenes index) as [|s l] eqn:E; [reflexivity|].
  now rewrite episodeMap_spec.
Qed.

(** X29: the entries of [calculateEpisodeStats].  What it computes on a
    cache miss has one entry per episode of the index, in the ascending
    order of [getEpisodes]; each entry counts the scenes
    [getScenesForEpisode] lists for its episode, and its duration is
    [estimateDuration] of its word count. *)
Theorem computeEpisodeStats_entries :
  forall content index,
    map e_episode (computeEpisodeStats content index) = getEpisodes index
    /\ Forall (fun ep =>
                 e_sceneCount ep
                 = Z.of_nat (length (getScenesForEpisode index (e_episode ep)))
                 /\ e_estimatedDuration ep
                    = StatsService.estimateDuration (e_wordCount ep))
              (computeEpisodeStats content index).
Proof.
  intros content index. rewrite computeEpisodeStats_unfold. split.
  - rewrite (sortBy_map e_episode), !map_map. unfold getEpisodes. f_equal.
    cbn [episodeEntry e_episode]. apply map_id.
  - apply Forall_forall. intros ep Hep. apply sortBy_In in Hep.
    rewrite map_map in Hep. apply in_map_iff in Hep. destruct Hep as (k & <- & _).
    cbn [episodeEntry e_episode e_sceneCount e_estimatedDuration e_wordCount].
    rewrite sortBy_length. unfold getScenesForEpisode. auto.
Qed.

(** ** The total over the episodes *)

Lemma sortInsert_last (A : Type) (compare : A -> A -> Z) x l :
  Forall (fun y => compare y x <= 0) l -> sortInsert compare x l = l ++ [x].
Proof.
  induction 1 as [|y l Hy _ IH]; cbn [sortInsert app]; [reflexivity|].
  destruct (Z.leb_spec (compare y x) 0); [now rewrite IH|lia].
Qed.

Lemma sortBy_sorted_by_line l :
  sortedByLine l -> sortBy (fun a b => s_line a - s_line b) l = l.
Proof.
  unfold sortBy, sortedByLine.
  assert (H : forall acc,
             (forall y z, In y acc -> In z l -> s_line y <= s_line z) ->
             StronglySorted Z.lt (map s_line l) ->
             fold_left (fun sorted x => sortInsert (fun a b => s_line a - s_line b) x sorted)
                       l acc
             = acc ++ l).
  { induction l as [|x l IH]; intros acc Hacc Hs; cbn [fold_left];
      [now rewrite app_nil_r|].
    cbn [map] in Hs. inversion Hs as [|? ? Hs' Hx]; subst.
    rewrite sortInsert_last.
    - rewrite IH; [now rewrite <- app_assoc| |exact Hs'].
      intros y z Hy Hz. apply in_app_iff in Hy. destruct Hy as [Hy|[<-|[]]].
      + apply Hacc; [exact Hy|now right].
      + rewrite Forall_forall in Hx. specialize (Hx (s_line z) (in_map _ _ _ Hz)). lia.
    - apply Forall_forall. intros y Hy. specialize (Hacc y x Hy (or_introl eq_refl)). lia. }
  intros Hs. apply (H [] (fun y z Hy => match Hy with end) Hs).
Qed.

Lemma StronglySorted_app (A : Type) (R : A -> A -> Prop) l1 l2 :
  StronglySorted R (l1 ++ l2) ->
  StronglySorted R l1 /\ StronglySorted R l2
  /\ (forall x y, In x l1 -> In y l2 -> R x y).
Proof.
  induction l1 as [|a l1 IH]; cbn [app]; intros H.
  - split; [constructor|]. split; [exact H|]. intros x y [].
  - inversion H as [|? ? Hs Ha]; subst. destruct (IH Hs) as (H1 & H2 & H3).
    rewrite Forall_app in Ha. destruct Ha as [Ha1 Ha2].
    split; [now constructor|]. split; [exact H2|].
    intros x y [<-|Hx] Hy; [|now apply H3].
    rewrite Forall_forall in Ha2. now apply Ha2.
Qed.

Lemma find_app_none (A : Type) (f : A -> bool) l1 l2 :
  Forall (fun x => f x = false) l1 -> find f (l1 ++ l2) = find f l2.
Proof. induction 1 as [|x l1 Hx _ IH]; cbn [app find]; [reflexivity|]. now rewrite Hx. Qed.

Lemma rangeWords_adjacent lines a b c :
  0 <= a <= b -> b <= c ->
  rangeWords lines a c = rangeWords lines a b + rangeWords lines b c.
Proof.
  intros H1 H2. unfold rangeWords. rewrite (@slice_adjacent _ a b c) by lia.
  apply countContentWords_join_app.
Qed.

(** The loop over the sorted scenes of one episode adds up to the words
    from the first of them to the end of the last. *)
Lemma episodeWords_range scenes lines k final :
  forall group acc,
    group <> [] ->
    StronglySorted Z.lt (map s_line group) ->
    Forall (fun s => 0 <= s_line s <= final) group ->
    Forall (fun s =>
              match find (fun q => (s_episode q >? k) && (s_line q >? s_line s)) scenes with
              | Some nextEpisodeScene => s_line nextEpisodeScene
              | None => Z.of_nat (length lines)
              end = final) group ->
    episodeWords scenes lines k group acc
    = acc + rangeWords lines (s_line (hd (sceneAt 0 0 0) group)) final.
Proof.
  induction group as [|s group IH]; intros acc Hne Hs Hb He; [now destruct Hne|].
  cbn [episodeWords hd]. destruct group as [|s' group].
  - apply Forall_inv in He. cbn [episodeWords]. rewrite He. reflexivity.
  - cbn [map] in Hs. apply StronglySorted_inv in Hs. destruct Hs as [Hs' Hlt].
    pose proof (Forall_inv Hb) as Hbs. apply Forall_inv_tail in Hb.
    apply Forall_inv_tail in He.
    rewrite (IH _ ltac:(discriminate) Hs' Hb He). cbn [hd].
    apply Forall_inv in Hlt. pose proof (Forall_inv Hb) as Hbs'.
    cbv beta in Hbs, Hbs'.
    fold (rangeWords lines (s_line s) (s_line s')).
    rewrite (@rangeWords_adjacent lines (s_line s) (s_line s') final) by lia. lia.
Qed.

Lemma episode_run_split s rest :
  StronglySorted Z.le (map s_episode (s :: rest)) ->
  exists group later,
    rest = group ++ later
    /\ Forall (fun q => s_episode q = s_episode s) group
    /\ Forall (fun q => s_episode s < s_episode q) later.
Proof.
  induction rest as [|q rest IH]; intros H.
  - exists [], []. repeat split; constructor.
  - cbn [map] in H. inversion H as [|? ? Hs Hall]; subst.
    inversion Hall as [|? ? Hq Hall']; subst.
    inversion Hs as [|? ? Hs' Hqall]; subst.
    destruct (Z.eq_dec (s_episode q) (s_episode s)) as [E|Hne].
    + destruct IH as (group & later & -> & Hr & Hl).
      { cbn [map]. constructor; auto. }
      exists (q :: group), later. repeat split; auto.
    + exists [], (q :: rest). repeat split; [constructor|].
      constructor; [lia|]. apply Forall_forall. intros x Hx.
      rewrite Forall_forall in Hqall. specialize (Hqall _ (in_map _ _ _ Hx)). lia.
Qed.

Lemma sumOver_split F keys1 k keys2 :
  sumOver F (keys1 ++ k :: keys2) = F k + sumOver F (keys1 ++ keys2).
Proof.
  unfold sumOver. induction keys1 as [|x keys1 IH]; cbn [app fold_right]; [reflexivity|].
  rewrite IH. lia.
Qed.

Lemma filter_none (A : Type) (f : A -> bool) l :
  Forall (fun x => f x = false) l -> filter f l = [].
Proof. induction 1 as [|x l Hx _ IH]; cbn [filter]; [reflexivity|]. now rewrite Hx. Qed.

Lemma filter_all (A : Type) (f : A -> bool) l :
  Forall (fun x => f x = true) l -> filter f l = l.
Proof.
  induction 1 as [|x l Hx _ IH]; cbn [filter]; [reflexivity|]. now rewrite Hx, IH.
Qed.

Lemma episodes_total scenes lines :
  sortedByLine scenes ->
  StronglySorted Z.le (map s_episode scenes) ->
  Forall (fun s => 0 <= s_line s <= Z.of_nat (length lines)) scenes ->
  forall m later before episodes,
    (length later <= m)%nat ->
    scenes = before ++ later ->
    (forall p s, In p before -> In s later -> s_episode p < s_episode s) ->
    NoDup episodes ->
    (forall k, In k episodes <-> exists s, In s later /\ s_episode s = k) ->
    sumOver (episodeTotal scenes lines) episodes
    = match later with
      | [] => 0
      | s1 :: _ => rangeWords lines (s_line s1) (Z.of_nat (length lines))
      end.
Proof.
  intros Hlines Heps Hrange.
  assert (Hnil : forall episodes,
             (forall k, In k episodes <-> exists s, In s (@nil SceneInfo) /\ s_episode s = k) ->
             episodes = []).
  { intros [|k E] H; [reflexivity|].
    destruct (proj1 (H k) (or_introl eq_refl)) as (s & [] & _). }
  induction m as [|m IH]; intros S P E Hlen Hsc Hsep Hnd Hin.
  { destruct S; [|cbn [length] in Hlen; lia]. now rewrite (Hnil E Hin). }
  destruct S as [|s1 S']; [now rewrite (Hnil E Hin)|].
  set (k1 := s_episode s1).
  (* the scenes of the first episode of [S], and the later ones *)
  assert (HepsS : StronglySorted Z.le (map s_episode (s1 :: S'))).
  { rewrite Hsc, map_app in Heps. now apply StronglySorted_app in Heps. }
  destruct (episode_run_split HepsS) as (R & B & -> & HR & HB).
  assert (Hk1 : In k1 E) by (apply Hin; exists s1; split; [now left|reflexivity]).
  destruct (in_split _ _ Hk1) as (E1 & E2 & ->).
  rewrite sumOver_split.
  (* the lines *)
  unfold sortedByLine in Hlines.
  rewrite Hsc in Hlines, Hrange.
  change (s1 :: R ++ B) with ((s1 :: R) ++ B) in Hlines, Hrange, Hsc.
  rewrite !map_app in Hlines.
  apply StronglySorted_app in Hlines. destruct Hlines as (_ & Hlines & _).
  apply StronglySorted_app in Hlines. destruct Hlines as (HlR & HlB & HlRB).
  rewrite !Forall_app in Hrange. destruct Hrange as (_ & HrR & HrB).
  set (final := match B with
                | [] => Z.of_nat (length lines)
                | b :: _ => s_line b
                end).
  (* the first episode *)
  assert (Hfirst : episodeTotal scenes lines k1 = rangeWords lines (s_line s1) final).
  { unfold episodeTotal. cbn [episodeEntry e_wordCount].
    assert (Ef : filter (fun s => s_episode s =? k1) scenes = s1 :: R).
    { rewrite Hsc, !filter_app.
      rewrite (@filter_none _ _ P), (@filter_none _ _ B), app_nil_r.
      - cbn [app]. apply filter_all. constructor; [apply Z.eqb_refl|].
        eapply Forall_impl; [|exact HR]. cbn. intros q Hq. now apply Z.eqb_eq.
      - eapply Forall_impl; [|exact HB]. cbn. intros q Hq. apply Z.eqb_neq. lia.
      - apply Forall_forall. intros p Hp. apply Z.eqb_neq.
        specialize (Hsep p s1 Hp (or_introl eq_refl)). lia. }
    rewrite Ef, (sortBy_sorted_by_line HlR).
    rewrite (@episodeWords_range scenes lines k1 final (s1 :: R) 0); [reflexivity| | | |].
    - discriminate.
    - exact HlR.
    - apply Forall_forall. intros s Hs. rewrite Forall_forall in HrR.
      specialize (HrR s Hs). split; [lia|]. unfold final. destruct B as [|b B']; [lia|].
      specialize (HlRB (s_line s) (s_line b) (in_map _ _ _ Hs) (or_introl eq_refl)). lia.
    - apply Forall_forall. intros s Hs. rewrite Hsc.
      rewrite find_app_none, find_app_none.
      + unfold final. destruct B as [|b B']; [reflexivity|]. cbn [find].
        pose proof (Forall_inv HB) as Hb. cbv beta in Hb. fold k1 in Hb.
        specialize (HlRB (s_line s) (s_line b) (in_map _ _ _ Hs) (or_introl eq_refl)).
        destruct (Z.gtb_spec (s_episode b) k1); [|lia].
        destruct (Z.gtb_spec (s_line b) (s_line s)); [reflexivity|lia].
      + apply Forall_forall. intros q Hq.
        assert (Eq : s_episode q = k1).
        { destruct Hq as [<-|Hq]; [reflexivity|].
          rewrite Forall_forall in HR. now apply HR. }
        destruct (Z.gtb_spec (s_episode q) k1); [lia|reflexivity].
      + apply Forall_forall. intros p Hp.
        specialize (Hsep p s1 Hp (or_introl eq_refl)). fold k1 in Hsep.
        destruct (Z.gtb_spec (s_episode p) k1); [lia|reflexivity]. }
  (* the later episodes *)
  assert (Hlater : sumOver (episodeTotal scenes lines) (E1 ++ E2)
                   = match B with
                     | [] => 0
                     | b :: _ => rangeWords lines (s_line b) (Z.of_nat (length lines))
                     end).
  { apply (IH B (P ++ s1 :: R)).
    - cbn [length] in Hlen. rewrite length_app in Hlen. lia.
    - rewrite Hsc. now rewrite <- app_assoc.
    - intros p s Hp Hs. apply in_app_iff in Hp. destruct Hp as [Hp|Hp].
      + apply Hsep; [exact Hp|]. right. apply in_app_iff. now right.
      + rewrite Forall_forall in HB. specialize (HB s Hs).
        assert (Eq : s_episode p = k1).
        { destruct Hp as [<-|Hp]; [reflexivity|].
          rewrite Forall_forall in HR. now apply HR. }
        fold k1 in HB. lia.
    - now apply NoDup_remove_1 in Hnd.
    - intros k. apply NoDup_remove_2 in Hnd. split.
      + intros Hk. assert (Hne : k <> k1) by (intros ->; contradiction).
        assert (HkE : In k (E1 ++ k1 :: E2)).
        { apply in_app_iff in Hk. apply in_app_iff. destruct Hk; [now left|right; now right]. }
        apply Hin in HkE. destruct HkE as (s & Hs & Es).
        change (s1 :: R ++ B) with ((s1 :: R) ++ B) in Hs.
        apply in_app_iff in Hs. destruct Hs as [Hs|Hs]; [|now exists s].
        exfalso. apply Hne. rewrite <- Es.
        destruct Hs as [<-|Hs]; [reflexivity|].
        rewrite Forall_forall in HR. now apply HR.
      + intros (s & Hs & Es).
        assert (HkE : In k (E1 ++ k1 :: E2)).
        { apply Hin. exists s. split; [|exact Es]. right. apply in_app_iff. now right. }
        rewrite Forall_forall in HB. specialize (HB s Hs). fold k1 in HB.
        apply in_app_iff in HkE. apply in_app_iff.
        destruct HkE as [H|[H|H]]; [now left|lia|now right]. }
  rewrite Hfirst, Hlater. unfold final. destruct B as [|b B']; [cbn [hd]; lia|].
  pose proof (Forall_inv HrR) as H1. pose proof (Forall_inv HrB) as Hb. cbv beta in H1, Hb.
  specialize (HlRB (s_line s1) (s_line b) (or_introl eq_refl) (or_introl eq_refl)).
  rewrite (@rangeWords_adjacent lines (s_line s1) (s_line b) (Z.of_nat (length lines)))
    by lia.
  reflexivity.
Qed.

Lemma getTotalWordCount_cons ep l :
  getTotalWordCount (ep :: l) = e_wordCount ep + getTotalWordCount l.
Proof.
  unfold getTotalWordCount. cbn [fold_left]. rewrite getTotalWordCount_acc. lia.
Qed.

Lemma getTotalWordCount_sortInsert compare ep l :
  getTotalWordCount (sortInsert compare ep l) = e_wordCount ep + getTotalWordCount l.
Proof.
  induction l as [|x l IH]; cbn [sortInsert]; [apply getTotalWordCount_cons|].
  destruct (compare x ep <=? 0); rewrite !getTotalWordCount_cons; [rewrite IH|]; lia.
Qed.

Lemma getTotalWordCount_sortBy compare l :
  getTotalWordCount (sortBy compare l) = getTotalWordCount l.
Proof.
  unfold sortBy.
  assert (H : forall acc,
             getTotalWordCount
               (fold_left (fun sorted x => sortInsert compare x sorted) l acc)
             = getTotalWordCount l + getTotalWordCount acc).
  { induction l as [|x l IH]; intros acc; cbn [fold_left]; [reflexivity|].
    rewrite IH, getTotalWordCount_sortInsert, getTotalWordCount_cons. lia. }
  rewrite H. unfold getTotalWordCount at 2. cbn [fold_left]. lia.
Qed.

Lemma getTotalWordCount_entries scenes lines episodes :
  getTotalWordCount
    (map (episodeEntry scenes lines)
         (map (fun k => (k, filter (fun s => s_episode s =? k) scenes)) episodes))
  = sumOver (episodeTotal scenes lines) episodes.
Proof.
  induction episodes as [|k episodes IH]; [reflexivity|].
  cbn [map]. rewrite getTotalWordCount_cons, IH. reflexivity.
Qed.

(** X30: no line is counted twice and none is left out.  For an index
    whose scenes are in ascending line order with episode numbers that
    never go down, and whose lines lie within the text, the word counts
    [calculateEpisodeStats] computes for the episodes add up to the content
    words of the text from the first scene header to its end. *)
Theorem computeEpisodeStats_total_words :
  forall content index first rest,
    i_scenes index = first :: rest ->
    sortedByLine (i_scenes index) ->
    episodesAscend (i_scenes index) ->
    Forall (fun s => 0 <= s_line s <= Z.of_nat (length (JS.split c_NL content)))
           (i_scenes index) ->
    getTotalWordCount (computeEpisodeStats content index)
    = calculateSceneWordCount content first
        (Z.of_nat (length (JS.split c_NL content))).
Proof.
  intros content index first rest Es Hlines Heps Hrange.
  rewrite computeEpisodeStats_unfold, getTotalWordCount_sortBy, getTotalWordCount_entries.
  destruct (@episodeSet_spec (i_scenes index) [] (NoDup_nil _)) as [Hnd Hin].
  assert (Heps' : StronglySorted Z.le (map s_episode (i_scenes index))).
  { apply Sorted_StronglySorted; [|exact Heps]. intros x y z. apply Z.le_trans. }
  rewrite (@episodes_total (i_scenes index) (JS.split c_NL content) Hlines Heps' Hrange
             (length (i_scenes index)) (i_scenes index) []
             _ (le_n _) eq_refl (fun p s (Hp : In p []) => match Hp with end) Hnd).
  - rewrite Es. reflexivity.
  - intros k. rewrite Hin. cbn [In]. tauto.
Qed.

Lemma computeEpisodeStats_total_words_witness :
  getTotalWordCount
    (computeEpisodeStats (text_NiHao ++ [c_NL] ++ text_Xiao)
                         (indexOf [sceneAt 1 1 0; sceneAt 2 1 1]))
  = calculateSceneWordCount (text_NiHao ++ [c_NL] ++ text_Xiao) (sceneAt 1 1 0)
      (Z.of_nat (length (JS.split c_NL (text_NiHao ++ [c_NL] ++ text_Xiao)))).
Proof.
  apply (@computeEpisodeStats_total_words (text_NiHao ++ [c_NL] ++ text_Xiao)
           (indexOf [sceneAt 1 1 0; sceneAt 2 1 1]) (sceneAt 1 1 0) [sceneAt 2 1 1]).
  - reflexivity.
  - unfold sortedByLine. cbn. repeat constructor.
  - unfold episodesAscend. cbn. repeat constructor. lia.
  - repeat (apply Forall_cons; [cbn; lia|]). apply Forall_nil.
Defined.
